(** * mtgslop: the Scryfall name resolver and search streamer

    A shallow embedding of [notes/fetch_cards_by_name.py] and
    [notes/scryfall.py], followed by the properties the specification
    states about them.

    Python values are modelled as follows.
    - [str] is [string] read as a sequence of code points below 256;
      [str.strip], [str.lower] and [int] treat them as Python does.
    - a [dict] is an association list in insertion order, since
      [dict.items()] is iterated by the front-face heuristic of [main];
    - a [set] is a duplicate-free list.  Only two sets are ever iterated
      ([set(front_face_retry)] and [unresolved]), both through
      [sorted(..., key=str.lower)]; the list keeps insertion order, where
      CPython iterates in hash order, so that the order among strings
      that are equal up to letter case is not the code's; the theorems
      below state that order nowhere and, where it shows (the retry
      request of C5), leave it open.
    - HTTP, [time.sleep], [print(..., file=sys.stderr)], [yield] and the
      output file are events appended to a trace; the provider is a script
      of responses consumed one per request. *)

From Stdlib Require Import List String Ascii ZArith QArith Lia Bool Arith.
From Stdlib Require Import Sorted Permutation.
Import ListNotations.
Local Open Scope string_scope.
Local Open Scope list_scope.
Local Open Scope nat_scope.

(** ** Python string primitives *)

Module PyStr.

(** Whitespace of [str.strip()] below 256: TAB, LF, VT, FF, CR, FS, GS,
    RS, US, SPACE, NEL (U+0085) and NBSP (U+00A0). *)
Definition is_space (c : ascii) : bool :=
  let n := nat_of_ascii c in
  ((9 <=? n) && (n <=? 13)) || ((28 <=? n) && (n <=? 32))
  || (n =? 133) || (n =? 160).

(** Whitespace [int()] skips around a number: the ASCII white space
    TAB, LF, VT, FF, CR and SPACE, and the other white space of Unicode,
    below 256 NEL and NBSP; not FS, GS, RS and US. *)
Definition is_int_space (c : ascii) : bool :=
  let n := nat_of_ascii c in
  ((9 <=? n) && (n <=? 13)) || (n =? 32) || (n =? 133) || (n =? 160).

Fixpoint lstrip (s : string) : string :=
  match s with
  | EmptyString => EmptyString
  | String c r => if is_space c then lstrip r else s
  end.

Fixpoint rstrip (s : string) : string :=
  match s with
  | EmptyString => EmptyString
  | String c r =>
      match rstrip r with
      | EmptyString => if is_space c then EmptyString else String c EmptyString
      | r' => String c r'
      end
  end.

Definition strip (s : string) : string := rstrip (lstrip s).

Fixpoint int_lstrip (s : string) : string :=
  match s with
  | EmptyString => EmptyString
  | String c r => if is_int_space c then int_lstrip r else s
  end.

Fixpoint int_rstrip (s : string) : string :=
  match s with
  | EmptyString => EmptyString
  | String c r =>
      match int_rstrip r with
      | EmptyString =>
          if is_int_space c then EmptyString else String c EmptyString
      | r' => String c r'
      end
  end.

(** [str.lower()] below 256: the letters A-Z, and U+00C0-U+00DE but the
    multiplication sign U+00D7, go 32 code points up. *)
Definition lower_char (c : ascii) : ascii :=
  let n := nat_of_ascii c in
  if ((65 <=? n) && (n <=? 90))
     || ((192 <=? n) && (n <=? 222) && negb (n =? 215))
  then ascii_of_nat (n + 32) else c.

Fixpoint lower (s : string) : string :=
  match s with
  | EmptyString => EmptyString
  | String c r => String (lower_char c) (lower r)
  end.

(** [s.startswith(p)] *)
Definition startswith (p s : string) : bool := String.prefix p s.

(** [sub in s] *)
Fixpoint contains (sub s : string) : bool :=
  String.prefix sub s ||
  match s with
  | EmptyString => false
  | String _ r => contains sub r
  end.

(** [s.split(sep, 1)[0]]: the text before the first occurrence of
    [sep], or all of [s] when there is none. *)
Fixpoint split_head (sep s : string) : string :=
  if String.prefix sep s then EmptyString
  else match s with
       | EmptyString => EmptyString
       | String c r => String c (split_head sep r)
       end.

(** Truthiness of a [str]. *)
Definition truthy (s : string) : bool := negb (s =? "")%string.

(** Truthiness of [d.get(key)] for an optional string field. *)
Definition truthy_opt (o : option string) : bool :=
  match o with Some s => truthy s | None => false end.

Definition digit_val (c : ascii) : option Z :=
  let n := nat_of_ascii c in
  if (48 <=? n) && (n <=? 57) then Some (Z.of_nat (n - 48)) else None.

(** The most digits [int()] converts (the default limit of CPython since
    3.11, and 3.10.7); signs, underscores and white space do not count,
    leading zeros do. *)
Definition MAX_STR_DIGITS : nat := 4300.

(** Decimal digits, with single underscores allowed between digits;
    [count] is the number of digits read. *)
Fixpoint int_digits (acc : Z) (count : nat) (after_digit : bool) (s : string)
  : option Z :=
  match s with
  | EmptyString =>
      if after_digit && (count <=? MAX_STR_DIGITS) then Some acc else None
  | String c r =>
      match digit_val c with
      | Some d => int_digits (10 * acc + d) (S count) true r
      | None =>
          if (c =? "_")%char && after_digit then int_digits acc count false r
          else None
      end
  end.

(** [int(s)] for a [str] argument; [None] is [ValueError]. *)
Definition py_int (s : string) : option Z :=
  match int_rstrip (int_lstrip s) with
  | EmptyString => None
  | String c r =>
      if (c =? "-")%char then option_map Z.opp (int_digits 0 0 false r)
      else if (c =? "+")%char then int_digits 0 0 false r
      else int_digits 0 0 false (String c r)
  end.

Definition mem (x : string) (l : list string) : bool :=
  existsb (String.eqb x) l.

(** [s.add(x)] on a set kept as a duplicate-free list. *)
Definition set_add (x : string) (s : list string) : list string :=
  if mem x s then s else s ++ [x].

(** [s.update(xs)] *)
Definition set_update (s xs : list string) : list string :=
  fold_left (fun acc x => set_add x acc) xs s.

(** [set(xs)] *)
Definition set_of_list (xs : list string) : list string :=
  set_update [] xs.

(** One step of a stable insertion sort on the key [str.lower]. *)
Fixpoint insert_lower (x : string) (l : list string) : list string :=
  match l with
  | [] => [x]
  | y :: r =>
      if String.leb (lower x) (lower y) then x :: y :: r
      else y :: insert_lower x r
  end.

(** [sorted(xs, key=str.lower)]; stable, as Python's sort is. *)
Fixpoint sorted_lower (xs : list string) : list string :=
  match xs with
  | [] => []
  | x :: r => insert_lower x (sorted_lower r)
  end.

End PyStr.

(** ** Wire data *)

(** JSON values have the types the provider documents: a decoded body
    is an object, [id] and [name] are strings where present, the entries
    of [not_found] are [{"name": <string>}] objects or strings.

    A card object: only [id] and [name] are inspected; the remaining
    key/value pairs are carried along untouched.  [None] stands for an
    absent (or null) field. *)
Record card := mkCard {
  card_id : option string;
  card_name : option string;
  card_other : list (string * string)
}.

(** Truthiness of a card [dict]: it has at least one key. *)
Definition card_truthy (c : card) : bool :=
  match card_id c, card_name c, card_other c with
  | None, None, [] => false
  | _, _, _ => true
  end.

(** An entry of [not_found]: [{"name": s}] or a bare string. *)
Inductive nf_item :=
| NfDict (name : string)
| NfStr (s : string).

(** A decoded JSON body.  [data] and [not_found] default to the empty list
    when absent; [has_more] is the truthiness of the field. *)
Record body := mkBody {
  data : list card;
  not_found : list nf_item;
  has_more : bool;
  next_page : option string;
  details : option string;
  warning : option string
}.

(** What one call of [session.post] / [session.get] meets: a network-level
    failure (connection reset, timeout, DNS), or an HTTP response with its
    status, its [Retry-After] header and its body ([None] when the body
    does not decode as JSON). *)
Inductive response :=
| ConnFail
| Http (status : Z) (retry_after : option string) (json : option body).

Inductive request :=
| Post (url : string) (identifiers : list string)
| Get (url : string) (params : option (list (string * string))).

(** [time.sleep] arguments: [max(1, retry_after)] seconds, or
    [base ** attempt] seconds. *)
Inductive pause :=
| RetryAfter (secs : Z)
| Backoff (base : Q) (attempt : nat).

(** Lines written to [sys.stderr], by call site. *)
Inductive message :=
| MsgReadFailed
| MsgNoNames
| MsgReadNames (n : nat)
| MsgFetchingBatch (idx n : nat)
| MsgScryfallError (status : Z) (detail : string)
| MsgNetworkError (attempts : nat)
| MsgRetrying (n : nat)
| MsgNewlyUnresolved (l : list string)
| MsgStillUnresolved (l : list string)
| MsgAllResolved (l : list string)
| MsgTotalUnresolved (l : list string)
| MsgWrote (n requested missing : nat)
| MsgMissingNames (l : list string).

Inductive event :=
| Sent (r : request)
| Slept (p : pause)
| Stderr (m : message)
| Yielded (c : card)
| Wrote (cards : list card).

(** Exceptions.  [HTTPError] (from [raise_for_status]) and
    [JSONDecodeError] (from [resp.json()], as requests raises it since
    2.27) are subclasses of [requests.RequestException];
    [UnboundLocalError] is a subclass of [NameError].  [OverflowError]
    and [OSError] come from [time.sleep] and from [open]; neither is a
    [requests.RequestException] (which is itself a subclass of
    [OSError]).  [UnicodeDecodeError], a subclass of [ValueError], comes
    from reading an input file that is not UTF-8. *)
Inductive exn :=
| RequestException
| HTTPError (status : Z)
| JSONDecodeError
| ValueError
| RuntimeError (msg : string)
| UnboundLocalError (var : string)
| OverflowError
| OSError
| UnicodeDecodeError.

Definition is_RequestException (e : exn) : bool :=
  match e with
  | RequestException | HTTPError _ | JSONDecodeError => true
  | _ => false
  end.

Definition is_NameError (e : exn) : bool :=
  match e with
  | UnboundLocalError _ => true
  | _ => false
  end.

(** ** Python dictionaries keyed by strings *)

Module PyDict.

Definition dict (V : Type) : Type := list (string * V).

(** [d[k] = v]: a present key keeps its position and takes the new
    value, a new key goes last. *)
Fixpoint set {V} (k : string) (v : V) (d : dict V) : dict V :=
  match d with
  | [] => [(k, v)]
  | (k', v') :: r =>
      if (k' =? k)%string then (k', v) :: r else (k', v') :: set k v r
  end.

(** [d.get(k)] *)
Fixpoint get {V} (k : string) (d : dict V) : option V :=
  match d with
  | [] => None
  | (k', v') :: r => if (k' =? k)%string then Some v' else get k r
  end.

(** [d.keys()] *)
Definition keys {V} (d : dict V) : list string := map fst d.

End PyDict.

(** ** The effect monad *)

Module Net.

Record world := mkWorld {
  script : list response;
  trace : list event
}.

(** [Exit] is [sys.exit(code)], [Raise] an exception that propagates,
    [Stalled] a request made when the script has no response left, and
    [OutOfFuel] a [while] loop cut by the model's bound. *)
Inductive outcome (A : Type) :=
| Ret (a : A)
| Exit (code : Z)
| Raise (e : exn)
| Stalled
| OutOfFuel.
Arguments Ret {A} a.
Arguments Exit {A} code.
Arguments Raise {A} e.
Arguments Stalled {A}.
Arguments OutOfFuel {A}.

Definition M (A : Type) : Type := world -> outcome A * world.

Definition ret {A} (a : A) : M A := fun w => (Ret a, w).

Definition bind {A B} (m : M A) (k : A -> M B) : M B :=
  fun w =>
    match m w with
    | (Ret a, w') => k a w'
    | (Exit c, w') => (Exit c, w')
    | (Raise e, w') => (Raise e, w')
    | (Stalled, w') => (Stalled, w')
    | (OutOfFuel, w') => (OutOfFuel, w')
    end.

Definition raise {A} (e : exn) : M A := fun w => (Raise e, w).
Definition sys_exit {A} (code : Z) : M A := fun w => (Exit code, w).

Definition emit (e : event) : M unit :=
  fun w => (Ret tt, mkWorld (script w) (trace w ++ [e])).

Definition print_err (m : message) : M unit := emit (Stderr m).

(** The longest pause, in seconds, that CPython converts to its signed
    64-bit count of nanoseconds. *)
Definition PAUSE_MAX : Z := 9223372036.

(** The monotonic clock is not modelled; it is taken to read less than
    [CLOCK_MAX] seconds (some thirty years). *)
Definition CLOCK_MAX : Z := 1000000000.

(** The shortest pause that is taken to be refused. *)
Definition PAUSE_REFUSED : Z := Eval cbv in (PAUSE_MAX - CLOCK_MAX)%Z.

(** [time.sleep(secs)].  A pause above [PAUSE_MAX] raises
    [OverflowError].  Below, the kernel refuses with [OSError] (EINVAL) a
    deadline - the clock plus the pause - beyond [PAUSE_MAX]: a pause
    within [CLOCK_MAX] of [PAUSE_MAX] is taken to be refused, so that a
    pause the model takes is one the code takes.  The pauses of the
    retry loops, [base ** attempt] for a few attempts, are short. *)
Definition sleep (p : pause) : M unit :=
  match p with
  | RetryAfter secs =>
      if (PAUSE_MAX <? secs)%Z then raise OverflowError
      else if (PAUSE_REFUSED <=? secs)%Z then raise OSError
      else emit (Slept p)
  | Backoff _ _ => emit (Slept p)
  end.

(** One HTTP exchange: the request is logged, the next scripted response
    is consumed; a network-level failure raises [RequestException]. *)
Definition send (r : request) : M (Z * option string * option body) :=
  fun w =>
    match script w with
    | [] => (Stalled, mkWorld [] (trace w ++ [Sent r]))
    | ConnFail :: rest =>
        (Raise RequestException, mkWorld rest (trace w ++ [Sent r]))
    | Http st ra js :: rest =>
        (Ret (st, ra, js), mkWorld rest (trace w ++ [Sent r]))
    end.

(** [try: body except requests.RequestException as e: handler] *)
Definition try_except {A} (m : M A) (handler : exn -> M A) : M A :=
  fun w =>
    match m w with
    | (Raise e, w') =>
        if is_RequestException e then handler e w' else (Raise e, w')
    | r => r
    end.

(** [resp.json()] *)
Definition resp_json (js : option body) : M body :=
  match js with
  | Some b => ret b
  | None => raise JSONDecodeError
  end.

(** [resp.raise_for_status()] *)
Definition raise_for_status (status : Z) : M unit :=
  if ((400 <=? status) && (status <? 600))%Z then raise (HTTPError status)
  else ret tt.

(** [int(resp.headers.get("Retry-After", "1"))] *)
Definition retry_after_header (ra : option string) : M Z :=
  match PyStr.py_int (match ra with Some s => s | None => "1" end) with
  | Some n => ret n
  | None => raise ValueError
  end.

(** What an iteration of a retry loop hands to the loop: go on with the
    next iteration ([continue], or the end of the [except] clause), or
    leave with a value ([return] / [break]). *)
Inductive ctl (A : Type) :=
| Next
| Done (a : A).
Arguments Next {A}.
Arguments Done {A} a.

End Net.

Declare Scope net_scope.
Delimit Scope net_scope with net.
Notation "x <- c ;; k" := (Net.bind c (fun x => k))
  (at level 61, c at next level, right associativity) : net_scope.
Notation "c ;;; k" := (Net.bind c (fun _ => k))
  (at level 61, right associativity) : net_scope.
Local Open Scope net_scope.

(** ** notes/fetch_cards_by_name.py *)

Module FetchCardsByName.
Import PyStr Net.

Definition API_COLLECTION : string := "https://api.scryfall.com/cards/collection".
Definition BATCH_LIMIT : nat := 75.

(** [range(start, stop, step)] for [step > 0], by counting up. *)
Fixpoint range_from (fuel i stop step : nat) : list nat :=
  match fuel with
  | 0 => []
  | S f => if i <? stop then i :: range_from f (i + step) stop step else []
  end.

Definition py_range (start stop step : nat) : list nat :=
  range_from stop start stop step.

(** [chunked(seq, size)]: [seq[i : i + size]] for [i] in
    [range(0, len(seq), size)].  [size] is positive at both call sites
    ([range] raises on a zero step). *)
Definition chunked (seq : list string) (size : nat) : list (list string) :=
  map (fun i => firstn size (skipn i seq)) (py_range 0 (List.length seq) size).

Section FetchBatch.
Variable names : list string.
Variable retries : nat.
Variable backoff_base : Q.

(** One iteration of the [for attempt in range(retries + 1)] loop. *)
Definition fetch_batch_attempt (attempt : nat) : M (ctl body) :=
  try_except
    (resp <- send (Post API_COLLECTION names) ;;
     let '(status, ra, js) := resp in
     if (status =? 429)%Z then
       retry_after <- retry_after_header ra ;;
       sleep (RetryAfter (Z.max 1 retry_after)) ;;;
       ret Next
     else
       (if (status >=? 400)%Z then
          let err := match js with Some b => details b | None => None end in
          (if truthy_opt err
           then print_err (MsgScryfallError status
                             (match err with Some d => d | None => "" end))
           else ret tt) ;;;
          raise_for_status status
        else ret tt) ;;;
       b <- resp_json js ;;
       ret (Done b))
    (fun e =>
       if attempt =? retries then
         print_err (MsgNetworkError (retries + 1)) ;;;
         sys_exit 3%Z
       else
         sleep (Backoff backoff_base attempt) ;;;
         ret Next).

Fixpoint fetch_batch_for (attempts : list nat) : M body :=
  match attempts with
  | [] => raise (RuntimeError "Unreachable")
  | attempt :: rest =>
      c <- fetch_batch_attempt attempt ;;
      match c with
      | Next => fetch_batch_for rest
      | Done b => ret b
      end
  end.

Definition fetch_batch_with : M body :=
  fetch_batch_for (py_range 0 (retries + 1) 1).
End FetchBatch.

(** [fetch_batch(session, names)] with the default [retries = 4] and
    [backoff_base = 1.5]. *)
Definition fetch_batch (names : list string) : M body :=
  fetch_batch_with names 4 (3 # 2).

(** What opening and reading the input file gives: its lines, an
    [OSError], or, for bytes that are not UTF-8, a [UnicodeDecodeError]. *)
Inductive input_file :=
| Lines (lines : list string)
| Unreadable
| NotUtf8.

(** The body of [for line in fh]. *)
Definition read_names_step (st : list string * list string) (line : string)
  : list string * list string :=
  let '(names, seen) := st in
  let raw := strip line in
  if negb (truthy raw) || startswith "#" raw then st
  else if negb (mem raw seen) then (names ++ [raw], set_add raw seen)
  else st.

(** [read_names(path)]: [except OSError] catches the failure to open or
    read the file, not the failure to decode it. *)
Definition read_names (file : input_file) : M (list string) :=
  match file with
  | Lines lines => ret (fst (fold_left read_names_step lines ([], [])))
  | Unreadable => print_err MsgReadFailed ;;; sys_exit 2%Z
  | NotUtf8 => raise UnicodeDecodeError
  end.

(** [results[card_name] = card] for every card of a response that has a
    truthy [name]. *)
Definition merge_cards (results : PyDict.dict card) (cards : list card)
  : PyDict.dict card :=
  fold_left
    (fun res c =>
       match card_name c with
       | Some n => if truthy n then PyDict.set n c res else res
       | None => res
       end)
    cards results.

Definition nf_name (item : nf_item) : string :=
  match item with
  | NfDict n => n
  | NfStr s => s
  end.

(** The [front_face_retry] list built from [nf_names]. *)
Definition front_faces (nf_names : list string) : list string :=
  fold_left
    (fun acc original =>
       if contains " // " original then
         let front := strip (split_head " // " original) in
         if truthy front then acc ++ [front] else acc
       else acc)
    nf_names [].

(** [sorted(set(front_face_retry), key=str.lower)] *)
Definition retry_set_of (front_face_retry : list string) : list string :=
  sorted_lower (set_of_list front_face_retry).

(** [for sub in chunked(retry_set, BATCH_LIMIT): ...] *)
Fixpoint fetch_retry (subs : list (list string)) (results : PyDict.dict card)
  : M (PyDict.dict card) :=
  match subs with
  | [] => ret results
  | sub :: rest =>
      retry_data <- fetch_batch sub ;;
      fetch_retry rest (merge_cards results (data retry_data))
  end.

(** The names of [nf_names] that some key of [results] equals up to
    letter case. *)
Definition resolved_by_retry (results : PyDict.dict card)
           (nf_names : list string) : list string :=
  let results_lower := set_of_list (map lower (PyDict.keys results)) in
  fold_left
    (fun resolved original =>
       if existsb (fun r => (lower original =? r)%string) results_lower
       then set_add original resolved else resolved)
    nf_names [].

(** The body of the [for batch_idx, batch in enumerate(...)] loop. *)
Definition fetch_all_batch (verbose : bool) (batch_idx : nat)
           (batch : list string)
           (st : PyDict.dict card * list string)
  : M (PyDict.dict card * list string) :=
  let '(results, unresolved) := st in
  print_err (MsgFetchingBatch batch_idx (List.length batch)) ;;;
  data_ <- fetch_batch batch ;;
  let results := merge_cards results (data data_) in
  let nf := not_found data_ in
  match nf with
  | [] => ret (results, unresolved)
  | _ :: _ =>
      let nf_names := map nf_name nf in
      let front_face_retry := front_faces nf_names in
      rr <- match front_face_retry with
            | [] => ret (results, [])
            | _ :: _ =>
                let retry_set := retry_set_of front_face_retry in
                (if verbose then print_err (MsgRetrying (List.length retry_set))
                 else ret tt) ;;;
                results <- fetch_retry (chunked retry_set BATCH_LIMIT) results ;;
                ret (results, resolved_by_retry results nf_names)
            end ;;
      let '(results, resolved_this_batch) := rr in
      let still_missing :=
        filter (fun n => negb (mem n resolved_this_batch)) nf_names in
      match still_missing with
      | _ :: _ =>
          let newly_missing :=
            filter (fun n => negb (mem n unresolved)) still_missing in
          let unresolved := set_update unresolved still_missing in
          match newly_missing with
          | _ :: _ => print_err (MsgNewlyUnresolved newly_missing)
          | [] => print_err (MsgStillUnresolved still_missing)
          end ;;;
          ret (results, unresolved)
      | [] =>
          (if verbose then print_err (MsgAllResolved nf_names) else ret tt) ;;;
          ret (results, unresolved)
      end
  end.

Fixpoint fetch_all_loop (verbose : bool) (batch_idx : nat)
         (batches : list (list string))
         (st : PyDict.dict card * list string)
  : M (PyDict.dict card * list string) :=
  match batches with
  | [] => ret st
  | batch :: rest =>
      st' <- fetch_all_batch verbose batch_idx batch st ;;
      fetch_all_loop verbose (S batch_idx) rest st'
  end.

Definition fetch_all (names : list string) (verbose : bool)
  : M (PyDict.dict card * list string) :=
  st <- fetch_all_loop verbose 1 (chunked names BATCH_LIMIT)
        (([] : PyDict.dict card), []) ;;
  let '(results, unresolved) := st in
  let unresolved_sorted := sorted_lower unresolved in
  match unresolved_sorted with
  | _ :: _ => print_err (MsgTotalUnresolved unresolved_sorted)
  | [] => ret tt
  end ;;;
  ret (results, unresolved_sorted).

Inductive sort_mode := SortInput | SortAlpha.

(** [{k.lower(): v for k, v in cards.items()}] *)
Definition lower_map_of (cards : PyDict.dict card) : PyDict.dict card :=
  fold_left (fun m kv => PyDict.set (lower (fst kv)) (snd kv) m) cards [].

Definition resolve_input_name (lower_map : PyDict.dict card) (inp : string)
  : option card :=
  let lk := lower inp in
  match PyDict.get lk lower_map with
  | Some c => Some c
  | None =>
      if contains " // " lk then
        let front := split_head " // " lk in
        option_map snd
          (find (fun kv => startswith (front ++ " // ") (fst kv)) lower_map)
      else None
  end.

(** The loop variables [(ordered_cards, seen_ids, mapped_names)]. *)
Definition reassembly : Type := list card * list string * list string.

(** The body of [for original in input_sequence]. *)
Definition reassemble_step (lower_map : PyDict.dict card) (st : reassembly)
           (original : string) : reassembly :=
  let '(ordered_cards, seen_ids, mapped_names) := st in
  match resolve_input_name lower_map original with
  | Some c =>
      if card_truthy c then
        let mapped_names := set_add original mapped_names in
        match card_id c with
        | Some cid =>
            if truthy cid then
              if mem cid seen_ids then (ordered_cards, seen_ids, mapped_names)
              else (ordered_cards ++ [c], set_add cid seen_ids, mapped_names)
            else (ordered_cards ++ [c], seen_ids, mapped_names)
        | None => (ordered_cards ++ [c], seen_ids, mapped_names)
        end
      else st
  | None => st
  end.

Definition reassemble (lower_map : PyDict.dict card)
           (input_sequence : list string) : reassembly :=
  fold_left (reassemble_step lower_map) input_sequence ([], [], []).

(** The [combined_unresolved] loop: order-preserving de-duplication. *)
Definition combine_unresolved (l : list string) : list string :=
  fst (fold_left
         (fun (st : list string * list string) name =>
            let '(combined, seen_un) := st in
            if negb (mem name seen_un)
            then (combined ++ [name], set_add name seen_un)
            else st)
         l ([], [])).

(** The locals of [main] when it reaches its last line. *)
Record main_locals := mkLocals {
  names : list string;
  cards : PyDict.dict card;
  unresolved_names : list string;
  ordered_cards : list card;
  mapped_names : list string;
  ordering_unresolved : list string;
  combined_unresolved : list string
}.

(** [main] from [print(f"Read ...")] to its end, for the [names] read.
    [out] tells whether [write_raw_lines] can open [args.out] for
    writing; when it cannot, [open] raises an [OSError], which nothing
    catches.  Writing to the open file is taken to succeed. *)
Definition main_resolve (names : list string) (out : bool) (sort : sort_mode)
           (verbose : bool) : M main_locals :=
  print_err (MsgReadNames (List.length names)) ;;;
  fa <- fetch_all names verbose ;;
  let '(cards, unresolved_names) := fa in
  let lower_map := lower_map_of cards in
  let input_sequence :=
    match sort with
    | SortInput => names
    | SortAlpha => sorted_lower (PyDict.keys cards)
    end in
  let '(ordered_cards, _, mapped_names) := reassemble lower_map input_sequence in
  (if out then emit (Wrote ordered_cards) else raise OSError) ;;;
  let ordering_unresolved :=
    filter (fun n => negb (mem n mapped_names)) names in
  let missing_count := List.length ordering_unresolved in
  print_err (MsgWrote (List.length ordered_cards) (List.length names)
               missing_count) ;;;
  let combined_unresolved :=
    combine_unresolved (unresolved_names ++ ordering_unresolved) in
  match combined_unresolved with
  | _ :: _ => print_err (MsgMissingNames combined_unresolved)
  | [] => ret tt
  end ;;;
  ret (mkLocals names cards unresolved_names ordered_cards mapped_names
         ordering_unresolved combined_unresolved).

(** [main(argv)] once [parse_args] has returned (argparse ends the
    process itself, with status 2 when it rejects [argv] and with status
    0 after [-h]), for the parsed arguments: what reading [args.input]
    gives, whether [args.out] can be opened, [args.sort] and
    [args.verbose].  The return value is the exit status. *)
Definition main (file : input_file) (out : bool) (sort : sort_mode)
           (verbose : bool) : M Z :=
  names <- read_names file ;;
  match names with
  | [] => print_err MsgNoNames ;;; ret 0%Z
  | _ :: _ => main_resolve names out sort verbose ;;; ret 0%Z
  end.

End FetchCardsByName.

(** ** notes/scryfall.py *)

Module Scryfall.
Import PyStr Net.

Definition API_SEARCH : string := "https://api.scryfall.com/cards/search".

Section StreamCards.
Variable query : string.
Variable unique : string.

Definition params : list (string * string) :=
  [("q", query); ("unique", unique); ("order", "name")].

(** One iteration of [for attempt in range(5)] for the page at [url]. *)
Definition page_attempt (url : string) (attempt : nat) : M (ctl body) :=
  try_except
    (resp <- (if (url =? API_SEARCH)%string
              then send (Get url (Some params))
              else send (Get url None)) ;;
     let '(status, ra, js) := resp in
     if (status =? 429)%Z then
       retry <- retry_after_header ra ;;
       sleep (RetryAfter (Z.max 1 retry)) ;;;
       ret Next
     else
       (if (status >=? 400)%Z then
          let details_ :=
            match js with
            | Some b => if truthy_opt (details b) then details b else warning b
            | None => None
            end in
          if truthy_opt details_ then
            print_err (MsgScryfallError status
                         (match details_ with Some d => d | None => "" end)) ;;;
            raise_for_status status
          else raise_for_status status
        else ret tt) ;;;
       page <- resp_json js ;;
       ret (Done page))
    (fun e =>
       if attempt =? 4 then raise e
       else sleep (Backoff 2 attempt) ;;; ret Next).

(** The [for attempt in range(5)] loop; [page] is the value the
    variable [page] holds ([None] while it is unbound), and the result
    is its value after the loop. *)
Fixpoint page_for (attempts : list nat) (url : string) (page : option body)
  : M (option body) :=
  match attempts with
  | [] => ret page
  | attempt :: rest =>
      c <- page_attempt url attempt ;;
      match c with
      | Next => page_for rest url page
      | Done p => ret (Some p)
      end
  end.

Fixpoint yield_all (cs : list card) : M unit :=
  match cs with
  | [] => ret tt
  | c :: rest => emit (Yielded c) ;;; yield_all rest
  end.

(** [while url: ...], at most [fuel] iterations. *)
Fixpoint stream_loop (fuel : nat) (url : option string) (page : option body)
  : M unit :=
  match fuel with
  | 0 => fun w => (OutOfFuel, w)
  | S f =>
      match url with
      | Some u =>
          if truthy u then
            page' <- page_for (FetchCardsByName.py_range 0 5 1) u page ;;
            match page' with
            | None => raise (UnboundLocalError "page")
            | Some p =>
                yield_all (data p) ;;;
                stream_loop f (if has_more p then next_page p else None)
                  (Some p)
            end
          else ret tt
      | None => ret tt
      end
  end.

(** [stream_cards(query, unique)], run to exhaustion by its consumer.
    Every iteration of the [while] loop sends a request, so one more
    than the number of scripted responses bounds the iterations. *)
Definition stream_cards : M unit :=
  fun w => stream_loop (S (List.length (script w))) (Some API_SEARCH) None w.
End StreamCards.

End Scryfall.

(** ** notes/scryfall.py: the query [main] searches for *)

Module ScryfallMain.
Import PyStr.

(** [sep.join(parts)] *)
Fixpoint join (sep : string) (parts : list string) : string :=
  match parts with
  | [] => EmptyString
  | p :: rest =>
      match rest with
      | [] => p
      | _ :: _ => (p ++ sep ++ join sep rest)%string
      end
  end.

(** [" ".join(line.strip() for line in qfh if line.strip())] *)
Definition file_query (lines : list string) : string :=
  join " " (map strip (filter (fun line => truthy (strip line)) lines)).

(** The value of [args.query] after the [if args.query_file:] block of
    [main].  [query_file] is [None] when the option is absent or empty;
    else it is what opening and reading the file gives, [None] when that
    raises [OSError] and the lines of the file otherwise.  The result is
    [None] when [main] ends there with [sys.exit(2)]. *)
Definition select_query (query : string)
           (query_file : option (option (list string))) : option string :=
  match query_file with
  | None => Some query
  | Some None => None
  | Some (Some lines) =>
      let file_query := file_query lines in
      Some (if truthy file_query then file_query else query)
  end.

End ScryfallMain.

(** * Vocabulary of the properties *)

Import PyStr Net FetchCardsByName Scryfall.

(** ** Reading the trace *)

Definition requests_of (tr : list event) : list request :=
  flat_map (fun e => match e with Sent r => [r] | _ => [] end) tr.

Definition pauses_of (tr : list event) : list pause :=
  flat_map (fun e => match e with Slept p => [p] | _ => [] end) tr.

Definition yields_of (tr : list event) : list card :=
  flat_map (fun e => match e with Yielded c => [c] | _ => [] end) tr.

(** The cards written to the output file. *)
Definition written_of (tr : list event) : list (list card) :=
  flat_map (fun e => match e with Wrote cs => [cs] | _ => [] end) tr.

(** ** Responses *)

(** A 200 response carrying the decoded body [b]. *)
Definition ok200 (b : body) : response := Http 200 None (Some b).

(** A 429 response without a [Retry-After] header. *)
Definition rate_limit : response := Http 429 None None.

(** A 200 response that returns exactly the card [c]. *)
Definition one_card (c : card) : body := mkBody [c] [] false None None None.

(** A body with no card and no name not found. *)
Definition nothing_found : body := mkBody [] [] false None None None.

(** The text [int()] is applied to: the header, or ["1"] without one. *)
Definition retry_after_text (ra : option string) : string :=
  match ra with Some s => s | None => "1" end.

Definition parses (ra : option string) : bool :=
  match py_int (retry_after_text ra) with Some _ => true | None => false end.

(** A pause that [time.sleep] takes. *)
Definition sleeps (secs : Z) : bool := (secs <? PAUSE_REFUSED)%Z.

(** The pause [max(1, int(...))] of a 429 can be computed and is
    taken. *)
Definition pauses (ra : option string) : bool :=
  match py_int (retry_after_text ra) with
  | Some n => sleeps (Z.max 1 n)
  | None => false
  end.

(** A 429 response after whose pause the loop goes on. *)
Definition rate_limited (r : response) : bool :=
  match r with
  | Http st ra _ => (st =? 429)%Z && pauses ra
  | ConnFail => false
  end.

(** A response that gives the attempt no decoded page: a network-level
    failure, a 429 with its pause, a status from 400 to 599, or a body
    that is not JSON. *)
Definition no_page (r : response) : bool :=
  match r with
  | ConnFail => true
  | Http st ra js =>
      if (st =? 429)%Z then pauses ra
      else if ((400 <=? st) && (st <? 600))%Z then true
      else match js with None => true | Some _ => false end
  end.

(** Five responses after which the [for attempt in range(5)] loop is
    left without [break] and without an exception: none of the first four
    gives a page, and the fifth is a 429. *)
Definition falls_through (rs : list response) : bool :=
  match rs with
  | [r0; r1; r2; r3; r4] =>
      no_page r0 && no_page r1 && no_page r2 && no_page r3 && rate_limited r4
  | _ => false
  end.

(** The names the responses of a script report as not found. *)
Definition reported (script : list response) : list string :=
  flat_map
    (fun r =>
       match r with
       | Http _ _ (Some b) => map nf_name (not_found b)
       | _ => []
       end) script.

(** ** Pagination *)

(** The request [stream_cards] sends for [url]: the parameters go with
    the search endpoint only. *)
Definition page_request (query unique url : string) : request :=
  if (url =? API_SEARCH)%string then Get url (Some (params query unique))
  else Get url None.

(** [linked pages urls]: every page of [pages] but the last has
    [has_more] true and names the next URL, which is non-empty and is not
    the search endpoint itself; the last page has [has_more] false.
    [urls] lists the [next_page] values in order. *)
Inductive linked : list body -> list string -> Prop :=
| linked_last (p : body) :
    has_more p = false ->
    linked [p] []
| linked_more (p : body) (u : string) (ps : list body) (us : list string) :
    has_more p = true ->
    next_page p = Some u ->
    truthy u = true ->
    u <> API_SEARCH ->
    linked ps us ->
    linked (p :: ps) (u :: us).

(** The events of fetching [pages] one after the other from [url]. *)
Fixpoint page_events (query unique url : string) (pages : list body)
         (urls : list string)
  : list event :=
  match pages with
  | [] => []
  | p :: ps =>
      Sent (page_request query unique url) :: map Yielded (data p)
      ++ match urls with
         | u :: us => page_events query unique u ps us
         | [] => []
         end
  end.

(** ** Names, batches, front faces and sorting *)

(** A line of the input file that names a card. *)
Definition names_card (line : string) : bool :=
  truthy (strip line) && negb (startswith "#" (strip line)).

(** [seq[i : i + size]] *)
Definition slice (seq : list string) (size i : nat) : list string :=
  firstn size (skipn i seq).

(** Order of the keys [str.lower] gives. *)
Definition le_lower (a b : string) : Prop :=
  String.leb (lower a) (lower b) = true.

(** The front face queued for a not-found name, if any. *)
Definition front_face (original : string) : option string :=
  if contains " // " original then
    let front := strip (split_head " // " original) in
    if truthy front then Some front else None
  else None.

Definition queued (original : string) : list string :=
  match front_face original with Some f => [f] | None => [] end.

(** ** Reassembly *)

(** The truthy [id]s of a list of cards. *)
Definition card_ids (cs : list card) : list string :=
  flat_map
    (fun c =>
       match card_id c with
       | Some i => if truthy i then [i] else []
       | None => []
       end) cs.

(** [original] resolves to the (truthy) card [c]. *)
Definition resolves (lower_map : PyDict.dict card) (original : string)
           (c : card) : Prop :=
  resolve_input_name lower_map original = Some c /\ card_truthy c = true.

Definition cards_of (st : reassembly) : list card := fst (fst st).

Definition seen_of (st : reassembly) : list string := snd (fst st).

Definition mapped_of (st : reassembly) : list string := snd st.

(** The loop variables after the names [done] have been processed. *)
Record consistent (lower_map : PyDict.dict card) (done : list string)
       (st : reassembly) : Prop := {
  ids_distinct : NoDup (card_ids (cards_of st));
  seen_are_ids : forall i, In i (seen_of st) <-> In i (card_ids (cards_of st));
  mapped_are_resolved :
    forall n, In n (mapped_of st)
              <-> In n done /\ exists c, resolves lower_map n c;
  emitted_are_resolved :
    forall c, In c (cards_of st) ->
              exists n, In n done /\ resolves lower_map n c;
  resolved_are_emitted :
    forall n c, In n done -> resolves lower_map n c ->
                In c (cards_of st)
                \/ exists i, card_id c = Some i /\ truthy i = true
                             /\ In i (card_ids (cards_of st))
}.

(** ** Sample data *)

Definition island : card := mkCard (Some "id-island") (Some "Island") [].

Definition forest : card := mkCard (Some "id-forest") (Some "Forest") [].

Definition swamp : card := mkCard (Some "id-swamp") (Some "Swamp") [].

Definition page1 : body :=
  mkBody [island] [] true (Some "https://api.scryfall.com/cards/search?page=2")
    None None.

Definition page2 : body :=
  mkBody [forest] [] true (Some "https://api.scryfall.com/cards/search?page=3")
    None None.

Definition page3 : body := mkBody [swamp] [] false None None None.

(** A first page whose [next_page] is the search endpoint itself. *)
Definition page_back_to_search : body :=
  mkBody [island] [] true (Some API_SEARCH) None None.

(** A batch answered with two composite names not found. *)
Definition fire_ice_not_found : body :=
  mkBody [] [NfDict "Fire // Ice"; NfDict "fire // ice"] false None None None.

Definition delver : string := "Delver of Secrets // Insectile Aberration".

(** The collection lookup reports the composite name not found. *)
Definition delver_not_found : body :=
  mkBody [] [NfDict delver] false None None None.

(** The answer of the front-face retry: a card named as the composite. *)
Definition delver_found (c : card) : body :=
  mkBody [c] [] false None None None.

Definition delver_card : card := mkCard (Some "id-delver") (Some delver) [].

Definition slash_ice : card := mkCard (Some "id-ice") (Some " // Ice") [].

(** A composite name with a misspelt back face. *)
Definition fire_nice : string := "Fire // Nice".

Definition fire_ice : card := mkCard (Some "id-fire-ice") (Some "Fire // Ice") [].

(** The lookup does not find it; the retry for ["Fire"] returns the
    card, under its own name. *)
Definition fire_nice_script : list response :=
  [ok200 (mkBody [] [NfDict fire_nice] false None None None);
   ok200 (one_card fire_ice)].

Definition fire_nice_locals : main_locals :=
  mkLocals [fire_nice] [("Fire // Ice", fire_ice)] [fire_nice] [fire_ice]
    [fire_nice] [] [fire_nice].

Import ScryfallMain.

(** ** Outcomes, pauses and failing responses *)

(** A pause [fetch_batch] may take: at least one second after a 429, or
    [backoff_base ** attempt] for an attempt before the last. *)
Definition pause_ok (backoff_base : Q) (retries : nat) (p : pause) : Prop :=
  match p with
  | RetryAfter secs => (1 <= secs)%Z
  | Backoff b attempt => b = backoff_base /\ attempt < retries
  end.

(** A response that makes an attempt of [fetch_batch] end in its
    [except] clause: a network-level failure, a status from 400 to 599
    other than 429, or any other status but 429 with a body that is not
    JSON. *)
Definition fails (r : response) : bool :=
  match r with
  | ConnFail => true
  | Http st _ js =>
      negb (st =? 429)%Z
      && (((400 <=? st) && (st <? 600))%Z
          || match js with None => true | Some _ => false end)
  end.

(** A response whose body an attempt returns: not a 429, not a status
    from 400 to 599, and a JSON body. *)
Definition answers (r : response) (b : body) : Prop :=
  exists st ra,
    r = Http st ra (Some b)
    /\ st <> 429%Z /\ ~ (400 <= st < 600)%Z.

(** A response after which an attempt that is not the last goes on to the
    next one: a 429 with its pause, or a failure. *)
Definition passes (r : response) : Prop :=
  rate_limited r = true \/ fails r = true.

(** The exception of [time.sleep(secs)], if it raises one. *)
Definition sleep_error (secs : Z) : option exn :=
  if (PAUSE_MAX <? secs)%Z then Some OverflowError
  else if (PAUSE_REFUSED <=? secs)%Z then Some OSError
  else None.

(** A 429 response whose pause [time.sleep] refuses with [e]. *)
Definition refuses (r : response) (e : exn) : Prop :=
  exists ra js n,
    r = Http 429 ra js
    /\ py_int (retry_after_text ra) = Some n
    /\ sleep_error (Z.max 1 n) = Some e.

(** A 429 response whose pause can be computed, whether or not it is
    taken. *)
Definition throttled (r : response) : bool :=
  match r with
  | Http st ra _ => (st =? 429)%Z && parses ra
  | ConnFail => false
  end.

(** A response that gave no body: a 429 or a failure. *)
Definition gave_no_body (r : response) : Prop :=
  throttled r = true \/ fails r = true.

(** The number of requests a loop has made: one per response used up,
    and one more when it is left waiting for a response. *)
Definition requests_made {A : Type} (o : outcome A) (consumed : list response)
  : nat :=
  match o with
  | Stalled => S (List.length consumed)
  | _ => List.length consumed
  end.

(** ** Invariants of a run *)

(** [all_events Q m]: whatever the world, [m] only appends to the trace,
    and every event it appends satisfies [Q]. *)
Definition all_events {A : Type} (Q : event -> Prop) (m : M A) : Prop :=
  forall w, exists evs,
    trace (snd (m w)) = trace w ++ evs /\ Forall Q evs.

(** How a computation ends, whatever it returns. *)
Inductive ending :=
| Returned
| Exited (code : Z)
| Raised (e : exn)
| Waiting
| Unbounded.

Definition ending_of {A : Type} (o : outcome A) : ending :=
  match o with
  | Ret _ => Returned
  | Exit c => Exited c
  | Raise e => Raised e
  | Stalled => Waiting
  | OutOfFuel => Unbounded
  end.

(** [all_endings P m]: whatever the world, the ending of [m] satisfies
    [P]. *)
Definition all_endings {A : Type} (P : ending -> Prop) (m : M A) : Prop :=
  forall w, P (ending_of (fst (m w))).

(** [P], or an exception that [except requests.RequestException]
    catches. *)
Definition or_caught (P : ending -> Prop) (e : ending) : Prop :=
  P e \/ exists x, e = Raised x /\ is_RequestException x = true.

(** [consumes m]: whatever the world, [m] only takes responses from the
    front of the script. *)
Definition consumes {A : Type} (m : M A) : Prop :=
  forall w, exists consumed, script w = consumed ++ script (snd (m w)).

(** ** What a run of [fetch_cards_by_name.py] may do *)

(** A request for at most [BATCH_LIMIT] names at the collection
    endpoint. *)
Definition batch_request (r : request) : Prop :=
  exists ids,
    r = Post API_COLLECTION ids /\ 1 <= List.length ids <= BATCH_LIMIT.

(** The events of [fetch_all]: batch requests, the pauses of
    [fetch_batch] with its default arguments, and lines on [stderr]. *)
Definition fetch_event (e : event) : Prop :=
  match e with
  | Sent r => batch_request r
  | Slept p => pause_ok (3 # 2) 4 p
  | Stderr _ => True
  | Yielded _ => False
  | Wrote _ => False
  end.

(** The events of [main]: those of [fetch_all], and writing the output. *)
Definition main_event (e : event) : Prop :=
  match e with
  | Wrote _ => True
  | _ => fetch_event e
  end.



(** ** The cards the provider returns *)

(** The body [fetch_batch] takes from a response, if any. *)
Definition answer_of (r : response) : option body :=
  match r with
  | Http st _ (Some b) =>
      if ((st =? 429) || ((400 <=? st) && (st <? 600)))%Z then None
      else Some b
  | _ => None
  end.

(** The cards of the bodies [fetch_batch] takes from the responses of a
    script, in order. *)
Definition returned (script : list response) : list card :=
  flat_map
    (fun r => match answer_of r with Some b => data b | None => [] end)
    script.

(** [c] is named [n]. *)
Definition named (n : string) (c : card) : bool :=
  match card_name c with
  | Some m => (m =? n)%string
  | None => false
  end.

(** The last card of [pool] named [n]. *)
Definition last_named (n : string) (pool : list card) : option card :=
  find (named n) (rev pool).

(** ** Order *)

(** [subseq l1 l2]: [l1] is [l2] with some elements left out. *)
Inductive subseq {A : Type} : list A -> list A -> Prop :=
| subseq_nil : subseq [] []
| subseq_skip (x : A) (l1 l2 : list A) : subseq l1 l2 -> subseq l1 (x :: l2)
| subseq_take (x : A) (l1 l2 : list A) :
    subseq l1 l2 -> subseq (x :: l1) (x :: l2).

(** ** What a run of [stream_cards] may do *)

(** The exception of requests a failing response raises in an attempt. *)
Definition exn_of (r : response) : exn :=
  match r with
  | ConnFail => RequestException
  | Http st _ _ =>
      if ((400 <=? st) && (st <? 600))%Z then HTTPError st
      else JSONDecodeError
  end.

(** The events of [stream_cards]: page requests for a non-empty URL, the
    pauses of its retry loop, error lines on [stderr], and cards. *)
Definition stream_event (query unique : string) (e : event) : Prop :=
  match e with
  | Sent r => exists url, r = page_request query unique url /\ truthy url = true
  | Slept p => pause_ok 2 4 p
  | Stderr m => exists status detail, m = MsgScryfallError status detail
  | Yielded _ => True
  | Wrote _ => False
  end.

(** The ways [stream_cards] ends: exhausted, with an exception of
    requests, with the [ValueError] of [int()], with the [OverflowError]
    or [OSError] of [time.sleep], with the [UnboundLocalError] of [page],
    or waiting for a response. *)
Definition stream_ending (e : ending) : Prop :=
  match e with
  | Returned => True
  | Exited _ => False
  | Raised x =>
      is_RequestException x = true
      \/ x = ValueError \/ x = OverflowError \/ x = OSError
      \/ x = UnboundLocalError "page"
  | Waiting => True
  | Unbounded => False
  end.

(** The URL [stream_cards] goes on with after [p], if any. *)
Definition next_url (p : body) : option string :=
  match (if has_more p then next_page p else None) with
  | Some u => if truthy u then Some u else None
  | None => None
  end.

(** ** The primary requests of [fetch_all] *)

(** A line on [stderr] that announces a batch. *)
Definition announces (e : event) : bool :=
  match e with
  | Stderr (MsgFetchingBatch _ _) => true
  | _ => false
  end.

(** The batches announced, each with its number and its size. *)
Definition announced_of (evs : list event) : list (nat * nat) :=
  flat_map
    (fun e =>
       match e with
       | Stderr (MsgFetchingBatch idx n) => [(idx, n)]
       | _ => []
       end) evs.

(** The requests sent first after a batch is announced; [announced]
    tells whether an announcement still waits for its request. *)
Fixpoint primary_from (announced : bool) (evs : list event) : list request :=
  match evs with
  | [] => []
  | Sent r :: rest =>
      if announced then r :: primary_from false rest
      else primary_from false rest
  | e :: rest => primary_from (announced || announces e) rest
  end.

(** The primary requests of a run: for each batch that [fetch_all]
    announces, the request it sends first - not the repetitions of a
    request after a 429 or a failure, and not the front-face requests. *)
Definition primary_requests (evs : list event) : list request :=
  primary_from false evs.

(** * Lemmas and theorems *)

(** ** Reading the trace *)

Lemma requests_of_app (a b : list event) :
  requests_of (a ++ b) = requests_of a ++ requests_of b.
Proof. apply flat_map_app. Qed.

Lemma pauses_of_app (a b : list event) :
  pauses_of (a ++ b) = pauses_of a ++ pauses_of b.
Proof. apply flat_map_app. Qed.

Lemma yields_of_app (a b : list event) :
  yields_of (a ++ b) = yields_of a ++ yields_of b.
Proof. apply flat_map_app. Qed.

Lemma yields_of_map_Yielded (cs : list card) :
  yields_of (map Yielded cs) = cs.
Proof.
  unfold yields_of. induction cs as [|c cs IH]; cbn; [reflexivity|].
  now rewrite IH.
Qed.

Lemma requests_of_map_Yielded (cs : list card) :
  requests_of (map Yielded cs) = [].
Proof.
  unfold requests_of. induction cs as [|c cs IH]; cbn; auto.
Qed.

(** ** Sequencing *)

(** A sequence goes on with what its first part returns. *)
Lemma bind_Ret {A B : Type} (m : M A) (k : A -> M B) (w w1 : world) (a : A) :
  m w = (Ret a, w1) -> bind m k w = k a w1.
Proof. unfold bind. now intros ->. Qed.

(** A sequence that returns has returned from its first part. *)
Lemma bind_Ret_inv {A B : Type} (m : M A) (k : A -> M B) (w w2 : world) (b : B) :
  bind m k w = (Ret b, w2) ->
  exists a w1, m w = (Ret a, w1) /\ k a w1 = (Ret b, w2).
Proof.
  unfold bind. destruct (m w) as [[a| | | |] w1]; intros H;
    try discriminate. eauto.
Qed.

Lemma ret_inv {A : Type} (a b : A) (w w' : world) :
  ret a w = (Ret b, w') -> a = b /\ w = w'.
Proof. unfold ret. intros H. inversion H. auto. Qed.

(** Runs a model on a script whose leading responses are explicit. *)
Ltac run_script :=
  cbn [repeat app map]; cbv -[app];
  repeat rewrite <- app_assoc; try reflexivity.

(** Splits a goal on whether a pause is taken by [sleep]. *)
Ltac case_sleep :=
  repeat match goal with
    | |- context [(PAUSE_MAX <? ?x)%Z] =>
        destruct (PAUSE_MAX <? x)%Z eqn:?
    | |- context [(PAUSE_REFUSED <=? ?x)%Z] =>
        destruct (PAUSE_REFUSED <=? x)%Z eqn:?
    end.

(** ** [fetch_batch]: the retry budget *)

Section FetchBatchRuns.
Variable names : list string.
Variable rest : list response.
Variable tr : list event.

Lemma fetch_batch_first_try (ra : option string) (b : body) :
  fetch_batch names (mkWorld (Http 200 ra (Some b) :: rest) tr)
  = (Ret b, mkWorld rest (tr ++ [Sent (Post API_COLLECTION names)])).
Proof. reflexivity. Qed.

Lemma fetch_batch_four_failures (ra : option string) (b : body) :
  fetch_batch names
    (mkWorld (repeat ConnFail 4 ++ Http 200 ra (Some b) :: rest) tr)
  = (Ret b,
     mkWorld rest
       (tr ++ [Sent (Post API_COLLECTION names); Slept (Backoff (3 # 2) 0);
               Sent (Post API_COLLECTION names); Slept (Backoff (3 # 2) 1);
               Sent (Post API_COLLECTION names); Slept (Backoff (3 # 2) 2);
               Sent (Post API_COLLECTION names); Slept (Backoff (3 # 2) 3);
               Sent (Post API_COLLECTION names)])).
Proof.
  run_script.
Qed.

Lemma fetch_batch_five_failures :
  fetch_batch names (mkWorld (repeat ConnFail 5 ++ rest) tr)
  = (Exit 3%Z,
     mkWorld rest
       (tr ++ [Sent (Post API_COLLECTION names); Slept (Backoff (3 # 2) 0);
               Sent (Post API_COLLECTION names); Slept (Backoff (3 # 2) 1);
               Sent (Post API_COLLECTION names); Slept (Backoff (3 # 2) 2);
               Sent (Post API_COLLECTION names); Slept (Backoff (3 # 2) 3);
               Sent (Post API_COLLECTION names); Stderr (MsgNetworkError 5)])).
Proof.
  run_script.
Qed.

Lemma fetch_batch_five_rate_limits (r : response) :
  fetch_batch names (mkWorld (repeat rate_limit 5 ++ r :: rest) tr)
  = (Raise (RuntimeError "Unreachable"),
     mkWorld (r :: rest)
       (tr ++ [Sent (Post API_COLLECTION names); Slept (RetryAfter 1);
               Sent (Post API_COLLECTION names); Slept (RetryAfter 1);
               Sent (Post API_COLLECTION names); Slept (RetryAfter 1);
               Sent (Post API_COLLECTION names); Slept (RetryAfter 1);
               Sent (Post API_COLLECTION names); Slept (RetryAfter 1)])).
Proof.
  run_script.
Qed.

(** Up to four 429 responses before a 200: the body is returned, after
    one one-second pause per 429. *)
Lemma fetch_batch_few_rate_limits (k : nat) (b : body) :
  k <= 4 ->
  exists evs,
    fetch_batch names (mkWorld (repeat rate_limit k ++ ok200 b :: rest) tr)
    = (Ret b, mkWorld rest (tr ++ evs))
    /\ pauses_of evs = repeat (RetryAfter 1) k
    /\ requests_of evs = repeat (Post API_COLLECTION names) (S k).
Proof.
  intros Hk.
  destruct k as [|[|[|[|[|k]]]]]; [| | | | |lia];
    (eexists; split; [run_script|split; reflexivity]).
Qed.

Lemma fetch_batch_rate_limits_then_failure :
  fetch_batch names (mkWorld (repeat rate_limit 4 ++ ConnFail :: rest) tr)
  = (Exit 3%Z,
     mkWorld rest
       (tr ++ [Sent (Post API_COLLECTION names); Slept (RetryAfter 1);
               Sent (Post API_COLLECTION names); Slept (RetryAfter 1);
               Sent (Post API_COLLECTION names); Slept (RetryAfter 1);
               Sent (Post API_COLLECTION names); Slept (RetryAfter 1);
               Sent (Post API_COLLECTION names); Stderr (MsgNetworkError 5)])).
Proof.
  run_script.
Qed.
End FetchBatchRuns.

(** The exit status of [read_names] on an unreadable input file. *)
Lemma read_names_unreadable (w : world) :
  read_names Unreadable w
  = (Exit 2%Z, mkWorld (script w) (trace w ++ [Stderr MsgReadFailed])).
Proof. reflexivity. Qed.

(** [sys.exit(3)] inside [fetch_batch] is the exit status of the run. *)
Lemma main_exits_3 (out : bool) (sort : sort_mode) (verbose : bool)
      (rest : list response) (tr : list event) :
  fst (main (Lines ["Island"]) out sort verbose
         (mkWorld (repeat ConnFail 5 ++ rest) tr))
  = Exit 3%Z.
Proof. reflexivity. Qed.

(** ** [stream_cards]: single pages *)

Section StreamRuns.
Variables query unique : string.

Lemma page_attempt_decoded url attempt p rest tr :
  page_attempt query unique url attempt (mkWorld (ok200 p :: rest) tr)
  = (Ret (Done p), mkWorld rest (tr ++ [Sent (page_request query unique url)])).
Proof.
  unfold page_attempt, page_request, try_except, bind.
  destruct (url =? API_SEARCH)%string; reflexivity.
Qed.

Lemma page_for_decoded url attempt attempts page p rest tr :
  page_for query unique (attempt :: attempts) url page
    (mkWorld (ok200 p :: rest) tr)
  = (Ret (Some p), mkWorld rest (tr ++ [Sent (page_request query unique url)])).
Proof.
  cbn [page_for]. unfold bind at 1.
  rewrite page_attempt_decoded. reflexivity.
Qed.

Lemma page_for_range_decoded url page p rest tr :
  page_for query unique (py_range 0 5 1) url page
    (mkWorld (ok200 p :: rest) tr)
  = (Ret (Some p), mkWorld rest (tr ++ [Sent (page_request query unique url)])).
Proof. apply (page_for_decoded url 0 [1; 2; 3; 4]). Qed.

Lemma yield_all_trace cs w :
  yield_all cs w = (Ret tt, mkWorld (script w) (trace w ++ map Yielded cs)).
Proof.
  revert w. induction cs as [|c cs IH]; intros [s t]; cbn.
  - now rewrite app_nil_r.
  - unfold bind, emit. cbn. rewrite IH. cbn.
    now rewrite <- app_assoc.
Qed.

Lemma stream_cards_five_rate_limits (r : response) rest tr :
  stream_cards query unique (mkWorld (repeat rate_limit 5 ++ r :: rest) tr)
  = (Raise (UnboundLocalError "page"),
     mkWorld (r :: rest)
       (tr ++ [Sent (page_request query unique API_SEARCH); Slept (RetryAfter 1);
               Sent (page_request query unique API_SEARCH); Slept (RetryAfter 1);
               Sent (page_request query unique API_SEARCH); Slept (RetryAfter 1);
               Sent (page_request query unique API_SEARCH); Slept (RetryAfter 1);
               Sent (page_request query unique API_SEARCH); Slept (RetryAfter 1)])).
Proof.
  unfold stream_cards. cbn [script List.length repeat app].
  run_script.
Qed.
End StreamRuns.

(** C3.  With the default retry bound, four consecutive network-level
    failures followed by a success make [fetch_batch] return the decoded
    body on the fifth request, and five consecutive network-level failures
    end it with [sys.exit(3)], which is the exit status of the whole run
    and differs from the exit status 2 of [read_names] on an unreadable
    input file. *)
Theorem fetch_batch_retry_boundary :
  forall (names : list string) (b : body) (rest : list response)
         (tr : list event),
    let post := Sent (Post API_COLLECTION names) in
    fetch_batch names (mkWorld (repeat ConnFail 4 ++ ok200 b :: rest) tr)
    = (Ret b,
       mkWorld rest
         (tr ++ [post; Slept (Backoff (3 # 2) 0);
                 post; Slept (Backoff (3 # 2) 1);
                 post; Slept (Backoff (3 # 2) 2);
                 post; Slept (Backoff (3 # 2) 3);
                 post]))
    /\ fetch_batch names (mkWorld (repeat ConnFail 5 ++ rest) tr)
       = (Exit 3%Z,
          mkWorld rest
            (tr ++ [post; Slept (Backoff (3 # 2) 0);
                    post; Slept (Backoff (3 # 2) 1);
                    post; Slept (Backoff (3 # 2) 2);
                    post; Slept (Backoff (3 # 2) 3);
                    post; Stderr (MsgNetworkError 5)]))
    /\ (forall out sort verbose,
          fst (main (Lines ["Island"]) out sort verbose
                 (mkWorld (repeat ConnFail 5 ++ rest) tr))
          = Exit 3%Z)
    /\ fst (read_names Unreadable (mkWorld rest tr)) = Exit 2%Z
    /\ (3 <> 2)%Z.
Proof.
  intros names b rest tr post. subst post.
  split; [apply fetch_batch_four_failures|].
  split; [apply fetch_batch_five_failures|].
  split; [intros; apply main_exits_3|].
  split; [reflexivity | discriminate].
Qed.

(** C2.  What the code does on five consecutive 429 responses followed by
    a 200: every 429 uses up one iteration of the bounded attempt loop, so
    the 200 is never requested; [fetch_batch] reaches its
    [raise RuntimeError("Unreachable")] and [stream_cards] reads [page]
    unbound.  After four 429 responses a first network failure already
    ends [fetch_batch] with [sys.exit(3)]. *)
Theorem rate_limit_uses_up_attempts :
  forall (names : list string) (query unique : string) (b : body)
         (rest : list response) (tr : list event),
    (fst (fetch_batch names
            (mkWorld (repeat rate_limit 5 ++ ok200 b :: rest) tr))
     = Raise (RuntimeError "Unreachable")
     /\ script (snd (fetch_batch names
                       (mkWorld (repeat rate_limit 5 ++ ok200 b :: rest) tr)))
        = ok200 b :: rest)
    /\ (fst (stream_cards query unique
               (mkWorld (repeat rate_limit 5 ++ ok200 b :: rest) tr))
        = Raise (UnboundLocalError "page")
        /\ script (snd (stream_cards query unique
                          (mkWorld (repeat rate_limit 5 ++ ok200 b :: rest) tr)))
           = ok200 b :: rest)
    /\ fst (fetch_batch names
              (mkWorld (repeat rate_limit 4 ++ ConnFail :: rest) tr))
       = Exit 3%Z.
Proof.
  intros names query unique b rest tr.
  rewrite fetch_batch_five_rate_limits, stream_cards_five_rate_limits,
    fetch_batch_rate_limits_then_failure.
  cbn [fst snd script]. repeat split.
Qed.

(** ** The pause on a 429 response *)

Lemma sleep_taken (secs : Z) :
  sleeps secs = true -> sleep (RetryAfter secs) = emit (Slept (RetryAfter secs)).
Proof.
  unfold sleeps, sleep. intros H. apply Z.ltb_lt in H.
  destruct (PAUSE_MAX <? secs)%Z eqn:E1;
    [apply Z.ltb_lt in E1; unfold PAUSE_MAX, PAUSE_REFUSED in *; lia|].
  destruct (PAUSE_REFUSED <=? secs)%Z eqn:E2;
    [apply Z.leb_le in E2; lia | reflexivity].
Qed.

Section RateLimitPause.
Variables (names : list string) (retries : nat) (backoff_base : Q).
Variables (query unique : string).

Lemma fetch_batch_attempt_pause attempt ra js n rest tr :
  py_int (retry_after_text ra) = Some n ->
  sleeps (Z.max 1 n) = true ->
  fetch_batch_attempt names retries backoff_base attempt
    (mkWorld (Http 429 ra js :: rest) tr)
  = (Ret Next,
     mkWorld rest
       (tr ++ [Sent (Post API_COLLECTION names);
               Slept (RetryAfter (Z.max 1 n))])).
Proof.
  intros Hn Hs.
  unfold fetch_batch_attempt, try_except, bind, send, retry_after_header.
  cbn [script trace]. fold (retry_after_text ra). rewrite Hn.
  change (429 =? 429)%Z with true. cbv iota beta. unfold ret at 1.
  rewrite (sleep_taken _ Hs). unfold emit, ret. cbn [script trace].
  now rewrite <- app_assoc.
Qed.

Lemma fetch_batch_attempt_bad_header attempt ra js rest tr :
  py_int (retry_after_text ra) = None ->
  fetch_batch_attempt names retries backoff_base attempt
    (mkWorld (Http 429 ra js :: rest) tr)
  = (Raise ValueError,
     mkWorld rest (tr ++ [Sent (Post API_COLLECTION names)])).
Proof.
  intros Hn.
  unfold fetch_batch_attempt, try_except, bind, send, retry_after_header.
  cbn. fold (retry_after_text ra). rewrite Hn. reflexivity.
Qed.

Lemma page_attempt_pause url attempt ra js n rest tr :
  py_int (retry_after_text ra) = Some n ->
  sleeps (Z.max 1 n) = true ->
  page_attempt query unique url attempt
    (mkWorld (Http 429 ra js :: rest) tr)
  = (Ret Next,
     mkWorld rest
       (tr ++ [Sent (page_request query unique url);
               Slept (RetryAfter (Z.max 1 n))])).
Proof.
  intros Hn Hs.
  unfold page_attempt, page_request, try_except, bind, send,
    retry_after_header.
  destruct (url =? API_SEARCH)%string; cbn [script trace];
    fold (retry_after_text ra); rewrite Hn;
    change (429 =? 429)%Z with true; cbv iota beta; unfold ret at 1;
    rewrite (sleep_taken _ Hs); unfold emit, ret; cbn [script trace];
    now rewrite <- app_assoc.
Qed.

Lemma page_attempt_bad_header url attempt ra js rest tr :
  py_int (retry_after_text ra) = None ->
  page_attempt query unique url attempt
    (mkWorld (Http 429 ra js :: rest) tr)
  = (Raise ValueError,
     mkWorld rest (tr ++ [Sent (page_request query unique url)])).
Proof.
  intros Hn.
  unfold page_attempt, page_request, try_except, bind, send,
    retry_after_header.
  destruct (url =? API_SEARCH)%string; cbn;
    fold (retry_after_text ra); rewrite Hn; reflexivity.
Qed.
End RateLimitPause.

(** C7.  What the code does on a 429 response whose [Retry-After] header
    is not an integer string: [int()] raises [ValueError], which is not a
    [requests.RequestException]; no pause is taken and no further request
    is made, in [fetch_batch] and in [stream_cards] alike. *)
Theorem retry_after_not_an_integer_raises :
  forall (h : string),
    py_int h = None ->
    forall (names : list string) (query unique : string) (js : option body)
           (rest : list response) (tr : list event),
      fetch_batch names (mkWorld (Http 429 (Some h) js :: rest) tr)
      = (Raise ValueError,
         mkWorld rest (tr ++ [Sent (Post API_COLLECTION names)]))
      /\ stream_cards query unique (mkWorld (Http 429 (Some h) js :: rest) tr)
         = (Raise ValueError,
            mkWorld rest
              (tr ++ [Sent (Get API_SEARCH (Some (params query unique)))]))
      /\ is_RequestException ValueError = false.
Proof.
  intros h Hh names query unique js rest tr. repeat split.
  - unfold fetch_batch, fetch_batch_with. cbn [py_range range_from Nat.add
      Nat.ltb Nat.leb fetch_batch_for]. unfold bind at 1.
    now rewrite fetch_batch_attempt_bad_header.
  - unfold stream_cards. cbn [script List.length stream_loop truthy].
    cbn [py_range range_from Nat.add Nat.ltb Nat.leb page_for].
    change (truthy API_SEARCH) with true. cbn iota.
    unfold bind at 1. unfold bind at 1.
    now rewrite page_attempt_bad_header.
Qed.

Lemma retry_after_not_an_integer_raises_witness :
  py_int "Wed, 21 Oct 2015 07:28:00 GMT" = None
  /\ fetch_batch ["Island"]
       (mkWorld [Http 429 (Some "Wed, 21 Oct 2015 07:28:00 GMT") None;
                 ok200 (mkBody [] [] false None None None)] [])
     = (Raise ValueError,
        mkWorld [ok200 (mkBody [] [] false None None None)]
          [Sent (Post API_COLLECTION ["Island"])]).
Proof.
  split; [reflexivity|].
  apply (retry_after_not_an_integer_raises
           "Wed, 21 Oct 2015 07:28:00 GMT" eq_refl
           ["Island"] "q" "cards" None
           [ok200 (mkBody [] [] false None None None)] []).
Defined.

(** ** [stream_cards]: following the pagination links *)

Section Pagination.
Variables query unique : string.

Lemma stream_loop_linked pages urls :
  linked pages urls ->
  forall fuel url page rest tr,
    truthy url = true ->
    List.length pages < fuel ->
    stream_loop query unique fuel (Some url) page
      (mkWorld (map ok200 pages ++ rest) tr)
    = (Ret tt, mkWorld rest (tr ++ page_events query unique url pages urls)).
Proof.
  induction 1 as [p Hp | p u ps us Hm Hn Hu Hne Hl IH];
    intros fuel url page rest tr Hurl Hfuel;
    (destruct fuel as [|fuel]; [cbn in Hfuel; lia|]);
    cbn [stream_loop map app]; rewrite Hurl;
    cbn [py_range range_from Nat.ltb Nat.leb Nat.add];
    unfold bind at 1; rewrite page_for_decoded;
    unfold bind at 1; rewrite yield_all_trace; cbn [script trace].
  - rewrite Hp. cbn [stream_loop page_events].
    destruct fuel; [cbn in Hfuel; lia|].
    cbn. unfold ret. now rewrite <- app_assoc, app_nil_r.
  - rewrite Hm, Hn. rewrite IH by (cbn in Hfuel; auto; lia).
    cbn [page_events]. now rewrite <- !app_assoc.
Qed.

Lemma requests_of_page r cs tl :
  requests_of (Sent r :: map Yielded cs ++ tl) = r :: requests_of tl.
Proof.
  cbn. f_equal. induction cs as [|c cs IH]; cbn; auto.
Qed.

Lemma yields_of_page r cs tl :
  yields_of (Sent r :: map Yielded cs ++ tl) = cs ++ yields_of tl.
Proof.
  cbn. induction cs as [|c cs IH]; cbn; auto. now rewrite IH.
Qed.

Lemma page_events_requests pages urls :
  linked pages urls ->
  forall url,
    requests_of (page_events query unique url pages urls)
    = page_request query unique url :: map (fun u => Get u None) urls.
Proof.
  induction 1 as [p Hp | p u ps us Hm Hn Hu Hne Hl IH]; intros url;
    cbn [page_events]; rewrite requests_of_page.
  - reflexivity.
  - rewrite IH. cbn [map]. unfold page_request at 2.
    apply String.eqb_neq in Hne. now rewrite Hne.
Qed.

Lemma page_events_yields pages urls :
  linked pages urls ->
  forall url,
    yields_of (page_events query unique url pages urls) = List.concat (map data pages).
Proof.
  induction 1 as [p Hp | p u ps us Hm Hn Hu Hne Hl IH]; intros url;
    cbn [page_events]; rewrite yields_of_page; cbn [map List.concat].
  - reflexivity.
  - now rewrite IH.
Qed.
End Pagination.

(** C6 (as amended).  When the pages the provider returns are linked -
    [has_more] true with a non-empty [next_page] other than the search
    endpoint on every page but the last, [has_more] false on the last -
    [stream_cards] sends the first request to the search endpoint with the
    parameters, every later request to the [next_page] of the page before,
    verbatim and without parameters, yields the records of all pages in
    the order received, and stops after the last page: one request per
    page, and the responses that follow are left untouched. *)
Theorem stream_cards_follows_next_page :
  forall (query unique : string) (pages : list body) (urls : list string)
         (rest : list response) (tr : list event),
    linked pages urls ->
    let evs := page_events query unique API_SEARCH pages urls in
    stream_cards query unique (mkWorld (map ok200 pages ++ rest) tr)
    = (Ret tt, mkWorld rest (tr ++ evs))
    /\ requests_of evs
       = Get API_SEARCH (Some (params query unique))
         :: map (fun u => Get u None) urls
    /\ List.length (requests_of evs) = List.length pages
    /\ yields_of evs = List.concat (map data pages).
Proof.
  intros query unique pages urls rest tr Hl evs. subst evs.
  assert (Hlen : List.length urls = pred (List.length pages)).
  { clear rest tr. induction Hl as [p Hp | p u ps us Hm Hn Hu Hne Hl IH]; auto.
    cbn. rewrite IH. destruct Hl; reflexivity. }
  assert (Hpos : List.length pages <> 0) by (destruct Hl; discriminate).
  split; [|split; [|split]].
  - unfold stream_cards. apply stream_loop_linked; auto.
    cbn [script]. rewrite length_app, length_map. lia.
  - now rewrite page_events_requests.
  - rewrite page_events_requests by assumption.
    cbn [List.length]. rewrite length_map. lia.
  - now apply page_events_yields.
Qed.

Lemma three_pages_linked :
  linked [page1; page2; page3]
    ["https://api.scryfall.com/cards/search?page=2";
     "https://api.scryfall.com/cards/search?page=3"].
Proof.
  repeat (first [ apply linked_last; reflexivity
                | apply linked_more;
                  [reflexivity | reflexivity | reflexivity | discriminate |] ]).
Defined.

Lemma stream_cards_follows_next_page_witness :
  let evs :=
    page_events "t:land" "cards" API_SEARCH [page1; page2; page3]
      ["https://api.scryfall.com/cards/search?page=2";
       "https://api.scryfall.com/cards/search?page=3"] in
  stream_cards "t:land" "cards"
    (mkWorld (map ok200 [page1; page2; page3] ++ [ok200 page3]) [])
  = (Ret tt, mkWorld [ok200 page3] ([] ++ evs))
  /\ requests_of evs
     = Get API_SEARCH (Some (params "t:land" "cards"))
       :: map (fun u => Get u None)
            ["https://api.scryfall.com/cards/search?page=2";
             "https://api.scryfall.com/cards/search?page=3"]
  /\ List.length (requests_of evs) = List.length [page1; page2; page3]
  /\ yields_of evs = List.concat (map data [page1; page2; page3]).
Proof.
  exact (stream_cards_follows_next_page "t:land" "cards"
           [page1; page2; page3] _ [ok200 page3] [] three_pages_linked).
Defined.

(** C6, as stated, fails: when [next_page] is the URL of the search
    endpoint, the second request carries the initial parameters again. *)
Lemma stream_cards_reattaches_params :
  has_more page_back_to_search = true
  /\ next_page page_back_to_search = Some API_SEARCH
  /\ requests_of
       (trace (snd (stream_cards "t:land" "cards"
                      (mkWorld [ok200 page_back_to_search; ok200 page3] []))))
     = [Get API_SEARCH (Some (params "t:land" "cards"));
        Get API_SEARCH (Some (params "t:land" "cards"))]
  /\ Get API_SEARCH (Some (params "t:land" "cards")) <> Get API_SEARCH None.
Proof.
  repeat split; try reflexivity. discriminate.
Qed.

(** ** [stream_cards]: the attempt loop running out *)

Section FallThrough.
Variables query unique : string.

Lemma page_attempt_rate_limited url attempt r rest tr :
  rate_limited r = true ->
  exists evs,
    page_attempt query unique url attempt (mkWorld (r :: rest) tr)
    = (Ret Next, mkWorld rest (tr ++ evs))
    /\ yields_of evs = []
    /\ requests_of evs = [page_request query unique url].
Proof.
  destruct r as [|st ra js]; cbn [rate_limited]; [discriminate|].
  intros H. apply andb_true_iff in H. destruct H as [Hst Hp].
  apply Z.eqb_eq in Hst. subst st. unfold pauses in Hp.
  destruct (py_int (retry_after_text ra)) as [n|] eqn:Hn; [|discriminate].
  eexists. rewrite (page_attempt_pause _ _ _ _ _ _ n) by assumption.
  repeat split.
Qed.

Lemma page_attempt_no_page url attempt r rest tr :
  no_page r = true ->
  attempt <> 4 ->
  exists evs,
    page_attempt query unique url attempt (mkWorld (r :: rest) tr)
    = (Ret Next, mkWorld rest (tr ++ evs))
    /\ yields_of evs = []
    /\ requests_of evs = [page_request query unique url].
Proof.
  intros Hr Ha. apply Nat.eqb_neq in Ha.
  destruct r as [|st ra js]; cbn [no_page] in Hr.
  - exists [Sent (page_request query unique url); Slept (Backoff 2 attempt)].
    split; [|split; reflexivity].
    unfold page_attempt, page_request, try_except, bind, send.
    destruct (url =? API_SEARCH)%string; cbn; rewrite Ha; cbn;
      now rewrite <- app_assoc.
  - destruct (st =? 429)%Z eqn:Hst.
    + apply page_attempt_rate_limited. cbn. now rewrite Hst, Hr.
    + unfold page_attempt, page_request, try_except, bind, send,
        raise_for_status, resp_json.
      destruct (url =? API_SEARCH)%string; cbn; rewrite Hst;
        rewrite Z.geb_leb;
        destruct (400 <=? st)%Z eqn:H4; cbn in Hr |- *;
        destruct (st <? 600)%Z eqn:H6; cbn in Hr |- *;
        destruct js as [b|]; try discriminate; cbn;
        try destruct (truthy_opt (if truthy_opt (details b)
                                  then details b else warning b));
        cbn; rewrite ?H4, ?H6; cbn; rewrite ?Ha; cbn;
        rewrite <- ?app_assoc; cbn;
        eexists; (split; [reflexivity|split; reflexivity]).
Qed.
End FallThrough.

Section PageUnassigned.
Variables query unique : string.

(** After five such responses the loop ends with [page] as it was. *)
Lemma page_for_falls_through url page rs rest tr :
  falls_through rs = true ->
  exists evs,
    page_for query unique (py_range 0 5 1) url page (mkWorld (rs ++ rest) tr)
    = (Ret page, mkWorld rest (tr ++ evs))
    /\ yields_of evs = []
    /\ requests_of evs = repeat (page_request query unique url) 5.
Proof.
  intros H.
  destruct rs as [|r0 [|r1 [|r2 [|r3 [|r4 [|r5 rs]]]]]]; try discriminate.
  cbn [falls_through] in H.
  repeat (apply andb_true_iff in H; destruct H as [H ?]).
  cbn [py_range range_from Nat.ltb Nat.leb Nat.add app page_for].
  destruct (page_attempt_no_page query unique url 0 r0
              (r1 :: r2 :: r3 :: r4 :: rest) tr) as (e0 & E0 & Y0 & R0);
    [assumption | discriminate |].
  destruct (page_attempt_no_page query unique url 1 r1
              (r2 :: r3 :: r4 :: rest) (tr ++ e0)) as (e1 & E1 & Y1 & R1);
    [assumption | discriminate |].
  destruct (page_attempt_no_page query unique url 2 r2
              (r3 :: r4 :: rest) ((tr ++ e0) ++ e1)) as (e2 & E2 & Y2 & R2);
    [assumption | discriminate |].
  destruct (page_attempt_no_page query unique url 3 r3
              (r4 :: rest) (((tr ++ e0) ++ e1) ++ e2)) as (e3 & E3 & Y3 & R3);
    [assumption | discriminate |].
  destruct (page_attempt_rate_limited query unique url 4 r4
              rest ((((tr ++ e0) ++ e1) ++ e2) ++ e3)) as (e4 & E4 & Y4 & R4);
    [assumption |].
  exists (e0 ++ e1 ++ e2 ++ e3 ++ e4). split; [|split].
  - unfold bind at 1. rewrite E0.
    unfold bind at 1. rewrite E1.
    unfold bind at 1. rewrite E2.
    unfold bind at 1. rewrite E3.
    unfold bind at 1. rewrite E4.
    unfold ret. now rewrite <- !app_assoc.
  - rewrite !yields_of_app, Y0, Y1, Y2, Y3, Y4. reflexivity.
  - rewrite !requests_of_app, R0, R1, R2, R3, R4. reflexivity.
Qed.
End PageUnassigned.

(** C10.  When the five attempts for a page all end without a decoded
    page and without an exception leaving the loop - none of the first
    four responses gives a page and the fifth is a 429, as with five 429
    responses in a row, the pause of every 429 being one that
    [time.sleep] takes - [stream_cards] goes on with [page] as it was:
    on the first page it raises [UnboundLocalError] (a [NameError]) for
    [page]; after a page [p] it yields the records of [p] a second time
    and asks for the same [next_page] again. *)
Theorem stream_cards_page_left_unassigned :
  forall (query unique : string) (rs : list response),
    falls_through rs = true ->
    (forall rest tr,
        exists evs,
          stream_cards query unique (mkWorld (rs ++ rest) tr)
          = (Raise (UnboundLocalError "page"), mkWorld rest (tr ++ evs))
          /\ yields_of evs = []
          /\ is_NameError (UnboundLocalError "page") = true)
    /\ (forall p url p' rest tr,
           has_more p = true ->
           next_page p = Some url ->
           truthy url = true ->
           has_more p' = false ->
           exists evs,
             stream_cards query unique
               (mkWorld (ok200 p :: rs ++ ok200 p' :: rest) tr)
             = (Ret tt, mkWorld rest (tr ++ evs))
             /\ yields_of evs = data p ++ data p ++ data p'
             /\ requests_of evs
                = page_request query unique API_SEARCH
                  :: repeat (page_request query unique url) 6).
Proof.
  intros query unique rs Hrs. split.
  - intros rest tr.
    destruct (page_for_falls_through query unique API_SEARCH None rs rest tr Hrs)
      as (evs & E & Y & _).
    exists evs. split; [|split; [assumption | reflexivity]].
    unfold stream_cards. cbn [script stream_loop].
    change (truthy API_SEARCH) with true. cbn iota.
    unfold bind at 1. rewrite E. reflexivity.
  - intros p url p' rest tr Hm Hn Hu Hm'.
    destruct (page_for_falls_through query unique url (Some p) rs
                (ok200 p' :: rest)
                ((tr ++ [Sent (page_request query unique API_SEARCH)])
                   ++ map Yielded (data p)) Hrs)
      as (evs & E & Y & R).
    exists (Sent (page_request query unique API_SEARCH) :: map Yielded (data p)
            ++ evs ++ map Yielded (data p)
            ++ Sent (page_request query unique url) :: map Yielded (data p')
            ++ []).
    split; [|split].
    + unfold stream_cards.
      destruct rs as [|r0 [|r1 [|r2 [|r3 [|r4 [|r5 rs]]]]]]; try discriminate.
      cbn [script List.length app].
      cbn [stream_loop]. change (truthy API_SEARCH) with true. cbn iota.
      unfold bind at 1. rewrite page_for_range_decoded.
      unfold bind at 1. rewrite yield_all_trace. cbn [script trace].
      rewrite Hm, Hn. cbn [stream_loop]. rewrite Hu.
      unfold bind at 1. cbn [app] in E. rewrite E.
      unfold bind at 1. rewrite yield_all_trace. cbn [script trace].
      rewrite Hm, Hn. cbn [stream_loop]. rewrite Hu.
      unfold bind at 1. rewrite page_for_range_decoded.
      unfold bind at 1. rewrite yield_all_trace. cbn [script trace].
      rewrite Hm'. cbn [stream_loop]. unfold ret.
      rewrite <- !app_assoc. cbn [app]. now rewrite app_nil_r.
    + rewrite yields_of_page, !yields_of_app, Y, yields_of_page.
      rewrite yields_of_map_Yielded. cbn. now rewrite app_nil_r.
    + rewrite requests_of_page, !requests_of_app, R, requests_of_page.
      rewrite requests_of_map_Yielded. reflexivity.
Qed.

Lemma five_rate_limits_fall_through : falls_through (repeat rate_limit 5) = true.
Proof. reflexivity. Defined.

Lemma stream_cards_page_left_unassigned_witness :
  falls_through (repeat rate_limit 5) = true
  /\ (exists evs,
        stream_cards "t:land" "cards" (mkWorld (repeat rate_limit 5 ++ []) [])
        = (Raise (UnboundLocalError "page"), mkWorld [] ([] ++ evs))
        /\ yields_of evs = []
        /\ is_NameError (UnboundLocalError "page") = true)
  /\ (exists evs,
        stream_cards "t:land" "cards"
          (mkWorld (ok200 page1 :: repeat rate_limit 5 ++ ok200 page3 :: []) [])
        = (Ret tt, mkWorld [] ([] ++ evs))
        /\ yields_of evs = data page1 ++ data page1 ++ data page3
        /\ requests_of evs
           = page_request "t:land" "cards" API_SEARCH
             :: repeat (page_request "t:land" "cards"
                          "https://api.scryfall.com/cards/search?page=2") 6).
Proof.
  split; [reflexivity|]. split.
  - exact (proj1 (stream_cards_page_left_unassigned "t:land" "cards"
                    (repeat rate_limit 5) five_rate_limits_fall_through)
             [] []).
  - apply (proj2 (stream_cards_page_left_unassigned "t:land" "cards"
                    (repeat rate_limit 5) five_rate_limits_fall_through)
             page1 "https://api.scryfall.com/cards/search?page=2" page3 [] []);
      reflexivity.
Defined.

(** ** [chunked]: the batches *)

Section Chunked.
Variable seq : list string.
Variable size : nat.
Hypothesis size_pos : 0 < size.

Lemma chunked_from fuel i :
  List.length seq - i <= fuel ->
  let chunks := map (slice seq size) (range_from fuel i (List.length seq) size) in
  List.concat chunks = skipn i seq
  /\ Forall (fun c => 1 <= List.length c <= size) chunks
  /\ List.length chunks = (List.length seq - i + size - 1) / size.
Proof.
  set (n := List.length seq). revert i. induction fuel as [|fuel IH]; intros i Hfuel; cbn [range_from].
  - cbn. assert (Hi : n <= i) by lia. split; [|split].
    + symmetry. now apply skipn_all2.
    + constructor.
    + replace (n - i + size - 1) with (size - 1) by lia.
      symmetry. apply Nat.div_small. lia.
  - destruct (i <? n) eqn:Hlt.
    + apply Nat.ltb_lt in Hlt.
      destruct (IH (i + size)) as (Hc & Hf & Hl); [lia|].
      cbn [map List.concat List.length]. split; [|split].
      * rewrite Hc. unfold slice.
        replace (i + size) with (size + i) by lia.
        rewrite <- skipn_skipn. apply firstn_skipn.
      * constructor; [|exact Hf]. unfold slice.
        rewrite length_firstn, length_skipn. fold n. lia.
      * rewrite Hl.
        replace (n - i + size - 1) with ((n - i - 1) + 1 * size) by lia.
        rewrite Nat.div_add by lia.
        destruct (Nat.le_gt_cases (i + size) n) as [Hge | Hgt].
        -- replace (n - (i + size) + size - 1) with (n - i - 1) by lia. lia.
        -- replace (n - (i + size) + size - 1) with (size - 1) by lia.
           rewrite !Nat.div_small by lia. reflexivity.
    + apply Nat.ltb_ge in Hlt. cbn. split; [|split].
      * symmetry. now apply skipn_all2.
      * constructor.
      * replace (n - i + size - 1) with (size - 1) by lia.
        symmetry. apply Nat.div_small. lia.
Qed.

(** The chunks are non-empty, hold at most [size] names, follow each
    other in the order of [seq], and there are [ceil(len(seq) / size)] of
    them. *)
Lemma chunked_partition :
  List.concat (chunked seq size) = seq
  /\ Forall (fun c => 1 <= List.length c <= size) (chunked seq size)
  /\ List.length (chunked seq size) = (List.length seq + size - 1) / size.
Proof.
  destruct (chunked_from (List.length seq) 0) as (Hc & Hf & Hl); [lia|].
  unfold chunked, py_range.
  rewrite Nat.sub_0_r in Hl. auto.
Qed.
End Chunked.

Lemma chunked_exactly_75 (names : list string) :
  List.length names = 75 -> chunked names BATCH_LIMIT = [names].
Proof.
  intros H. unfold chunked, BATCH_LIMIT. rewrite H.
  change (py_range 0 75 75) with [0]. cbn [map].
  change (skipn 0 names) with names.
  rewrite firstn_all2 by lia. reflexivity.
Qed.

Lemma chunked_exactly_76 (names : list string) :
  List.length names = 76 ->
  chunked names BATCH_LIMIT = [firstn 75 names; skipn 75 names]
  /\ List.length (firstn 75 names) = 75
  /\ List.length (skipn 75 names) = 1.
Proof.
  intros H.
  assert (H1 : List.length (skipn 75 names) = 1)
    by (rewrite length_skipn, H; reflexivity).
  split; [|split; [rewrite length_firstn, H; reflexivity | exact H1]].
  unfold chunked, BATCH_LIMIT. rewrite H.
  change (py_range 0 76 75) with [0; 75]. cbn [map].
  change (skipn 0 names) with names.
  rewrite (firstn_all2 (n := 75) (skipn 75 names)) by (rewrite H1; lia).
  reflexivity.
Qed.

(** ** [fetch_all] when every name is found *)

Section AllFound.
Variable verbose : bool.

Lemma fetch_all_batch_found batch_idx batch results unresolved b rest tr :
  not_found b = [] ->
  fetch_all_batch verbose batch_idx batch (results, unresolved)
    (mkWorld (ok200 b :: rest) tr)
  = (Ret (merge_cards results (data b), unresolved),
     mkWorld rest
       (tr ++ [Stderr (MsgFetchingBatch batch_idx (List.length batch));
               Sent (Post API_COLLECTION batch)])).
Proof.
  intros Hnf. unfold fetch_all_batch, ok200.
  unfold bind at 1. cbn [print_err emit script trace].
  unfold bind at 1. rewrite fetch_batch_first_try, Hnf.
  unfold ret. now rewrite <- app_assoc.
Qed.

End AllFound.

(** ** Sets and case-insensitive sorting *)

Lemma mem_In (x : string) (l : list string) : mem x l = true <-> In x l.
Proof.
  unfold mem. rewrite existsb_exists. split.
  - intros (y & Hy & E). apply String.eqb_eq in E. now subst.
  - intros H. exists x. split; [assumption | apply String.eqb_refl].
Qed.

Lemma mem_false (x : string) (l : list string) : mem x l = false <-> ~ In x l.
Proof.
  rewrite <- mem_In. destruct (mem x l); split; congruence.
Qed.

Lemma filter_not_mem_nil (l : list string) :
  filter (fun n => negb (mem n [])) l = l.
Proof.
  unfold mem. induction l as [|x l IH]; [reflexivity|].
  cbn. f_equal. exact IH.
Qed.

Lemma set_add_In (x y : string) (s : list string) :
  In y (set_add x s) <-> y = x \/ In y s.
Proof.
  unfold set_add. destruct (mem x s) eqn:E.
  - apply mem_In in E. split; [auto|]. intros [->|H]; assumption.
  - rewrite in_app_iff. cbn. intuition congruence.
Qed.

Lemma set_add_NoDup (x : string) (s : list string) :
  NoDup s -> NoDup (set_add x s).
Proof.
  intros H. unfold set_add. destruct (mem x s) eqn:E; [assumption|].
  apply mem_false in E. apply NoDup_app; auto.
  - constructor; [intros []|constructor].
  - intros a Ha [<-|[]]. contradiction.
Qed.

Lemma set_update_In (xs s : list string) (y : string) :
  In y (set_update s xs) <-> In y s \/ In y xs.
Proof.
  unfold set_update. revert s.
  induction xs as [|x xs IH]; intros s; cbn [fold_left].
  - cbn. tauto.
  - rewrite IH, set_add_In. cbn. intuition congruence.
Qed.

Lemma set_update_NoDup (xs s : list string) :
  NoDup s -> NoDup (set_update s xs).
Proof.
  unfold set_update. revert s.
  induction xs as [|x xs IH]; intros s H; cbn [fold_left]; auto.
  apply IH. now apply set_add_NoDup.
Qed.

Lemma set_of_list_In (xs : list string) (y : string) :
  In y (set_of_list xs) <-> In y xs.
Proof. unfold set_of_list. rewrite set_update_In. cbn. tauto. Qed.

Lemma set_of_list_NoDup (xs : list string) : NoDup (set_of_list xs).
Proof. apply set_update_NoDup. constructor. Qed.

Lemma insert_lower_perm (x : string) (l : list string) :
  Permutation (insert_lower x l) (x :: l).
Proof.
  induction l as [|y l IH]; cbn; auto.
  destruct (String.leb (lower x) (lower y)); auto.
  rewrite IH. apply perm_swap.
Qed.

Lemma sorted_lower_perm (l : list string) : Permutation (sorted_lower l) l.
Proof.
  induction l as [|x l IH]; cbn; auto.
  rewrite insert_lower_perm. now constructor.
Qed.

Lemma insert_lower_sorted (x : string) (l : list string) :
  Sorted le_lower l -> Sorted le_lower (insert_lower x l).
Proof.
  induction 1 as [|y l Hs IH Hhd]; cbn.
  - repeat constructor.
  - destruct (String.leb (lower x) (lower y)) eqn:E.
    + repeat constructor; assumption.
    + constructor; [assumption|].
      assert (Hyx : le_lower y x).
      { destruct (String.leb_total (lower x) (lower y)); [congruence|assumption]. }
      destruct Hhd as [|z l Hyz]; cbn.
      * now constructor.
      * destruct (String.leb (lower x) (lower z)); now constructor.
Qed.

Lemma sorted_lower_sorted (l : list string) : Sorted le_lower (sorted_lower l).
Proof.
  induction l as [|x l IH]; cbn; [constructor|].
  now apply insert_lower_sorted.
Qed.

Lemma sorted_lower_In (l : list string) (y : string) :
  In y (sorted_lower l) <-> In y l.
Proof.
  split; apply Permutation_in;
    [apply sorted_lower_perm | symmetry; apply sorted_lower_perm].
Qed.

(** [retry_set]: the distinct candidates, sorted on their lower-case
    form. *)
Lemma retry_set_of_spec (candidates : list string) :
  NoDup (retry_set_of candidates)
  /\ (forall s, In s (retry_set_of candidates) <-> In s candidates)
  /\ Sorted le_lower (retry_set_of candidates).
Proof.
  unfold retry_set_of. split; [|split].
  - eapply Permutation_NoDup; [symmetry; apply sorted_lower_perm|].
    apply set_of_list_NoDup.
  - intros s. now rewrite sorted_lower_In, set_of_list_In.
  - apply sorted_lower_sorted.
Qed.

(** ** The front-face retry of [fetch_all] *)

Lemma front_faces_fold (nf_names acc : list string) :
  fold_left
    (fun acc original =>
       if contains " // " original then
         let front := strip (split_head " // " original) in
         if truthy front then acc ++ [front] else acc
       else acc) nf_names acc
  = acc ++ flat_map queued nf_names.
Proof.
  revert acc. induction nf_names as [|o l IH]; intros acc; cbn [fold_left flat_map].
  - now rewrite app_nil_r.
  - rewrite IH. unfold queued at 2, front_face.
    destruct (contains " // " o); cbn zeta;
      [destruct (truthy (strip (split_head " // " o)))|];
      cbn [app]; now rewrite <- ?app_assoc.
Qed.

Lemma front_faces_In (nf_names : list string) (f : string) :
  In f (front_faces nf_names)
  <-> exists original, In original nf_names /\ front_face original = Some f.
Proof.
  unfold front_faces. rewrite front_faces_fold. cbn [app].
  rewrite in_flat_map. unfold queued.
  split; intros (o & Ho & H); exists o; (split; [assumption|]).
  - destruct (front_face o); cbn in H; [|contradiction].
    destruct H as [<-|[]]. reflexivity.
  - rewrite H. now left.
Qed.

Section Retry.
Variable verbose : bool.

(** The retry sub-batches when every request is answered by a 200. *)
Lemma fetch_retry_answered subs :
  forall bodies results rest tr,
    List.length bodies = List.length subs ->
    exists results',
      fetch_retry subs results (mkWorld (map ok200 bodies ++ rest) tr)
      = (Ret results',
         mkWorld rest (tr ++ map (fun sub => Sent (Post API_COLLECTION sub)) subs)).
Proof.
  induction subs as [|sub subs IH]; intros [|b bodies] results rest tr Hlen;
    try discriminate.
  - exists results. cbn. unfold ret. now rewrite app_nil_r.
  - cbn [fetch_retry map app]. unfold bind at 1. unfold ok200 at 1.
    rewrite fetch_batch_first_try.
    destruct (IH bodies (merge_cards results (data b)) rest
                (tr ++ [Sent (Post API_COLLECTION sub)]))
      as (results' & E); [now inversion Hlen|].
    exists results'. rewrite E. now rewrite <- app_assoc.
Qed.

(** What a completed iteration of the batch loop has computed, when the
    first response to the batch is a 200: without a retry candidate every
    not-found name becomes unresolved; with one, the retry requests are
    made and the not-found names that [resolved_by_retry] does not list
    become unresolved. *)
Lemma fetch_all_batch_inv batch_idx batch results unresolved b rest tr
      results1 unresolved1 w1 :
  fetch_all_batch verbose batch_idx batch (results, unresolved)
    (mkWorld (ok200 b :: rest) tr)
  = (Ret (results1, unresolved1), w1) ->
  let nf_names := map nf_name (not_found b) in
  match front_faces nf_names with
  | [] =>
      results1 = merge_cards results (data b)
      /\ unresolved1 = set_update unresolved nf_names
  | _ :: _ =>
      (exists w w',
          fetch_retry
            (chunked (retry_set_of (front_faces nf_names)) BATCH_LIMIT)
            (merge_cards results (data b)) w
          = (Ret results1, w'))
      /\ unresolved1
         = set_update unresolved
             (filter (fun n => negb (mem n (resolved_by_retry results1 nf_names)))
                nf_names)
  end.
Proof.
  intros H nf_names. unfold fetch_all_batch in H.
  apply bind_Ret_inv in H as ([] & w0 & Hp & H).
  unfold print_err, emit in Hp. inversion Hp; subst w0; clear Hp.
  cbn [script trace] in H.
  apply bind_Ret_inv in H as (d & w2 & Hfb & H).
  unfold ok200 in Hfb. rewrite fetch_batch_first_try in Hfb.
  inversion Hfb; subst d w2; clear Hfb.
  fold nf_names in H.
  destruct (not_found b) as [|item nf] eqn:Hnf.
  - apply ret_inv in H as [H _]. inversion H; subst. subst nf_names.
    cbn. auto.
  - apply bind_Ret_inv in H as ([res rtb] & w3 & Hr & H).
    assert (Hu : unresolved1
                 = set_update unresolved
                     (filter (fun n => negb (mem n rtb)) nf_names)
                 /\ results1 = res).
    { destruct (filter (fun n => negb (mem n rtb)) nf_names).
      - apply bind_Ret_inv in H as ([] & w4 & _ & H).
        apply ret_inv in H as [H _]. inversion H; subst. auto.
      - apply bind_Ret_inv in H as ([] & w4 & _ & H).
        apply ret_inv in H as [H _]. inversion H; subst. auto. }
    destruct Hu as [-> ->]. clear H.
    destruct (front_faces nf_names) as [|f fs].
    + apply ret_inv in Hr as [Hr _]. inversion Hr; subst. split; [reflexivity|].
      f_equal. apply filter_not_mem_nil.
    + apply bind_Ret_inv in Hr as ([] & w4 & _ & Hr).
      apply bind_Ret_inv in Hr as (res' & w5 & Hr & Hret).
      apply ret_inv in Hret as [Hret _]. inversion Hret; subst.
      split; [eauto|reflexivity].
Qed.
End Retry.

Lemma requests_of_posts (subs : list (list string)) :
  requests_of (map (fun sub => Sent (Post API_COLLECTION sub)) subs)
  = map (Post API_COLLECTION) subs.
Proof.
  unfold requests_of. induction subs as [|sub subs IH]; cbn; congruence.
Qed.

(** The requests of one iteration of the batch loop whose responses are
    all 200: the batch, then the retry set cut by [chunked]. *)
Lemma fetch_all_batch_requests verbose batch_idx batch results unresolved b
      retry_bodies rest tr :
  let retry_set := retry_set_of (front_faces (map nf_name (not_found b))) in
  front_faces (map nf_name (not_found b)) <> [] ->
  List.length retry_bodies = List.length (chunked retry_set BATCH_LIMIT) ->
  exists st evs,
    fetch_all_batch verbose batch_idx batch (results, unresolved)
      (mkWorld (ok200 b :: map ok200 retry_bodies ++ rest) tr)
    = (Ret st, mkWorld rest (tr ++ evs))
    /\ requests_of evs
       = Post API_COLLECTION batch
         :: map (Post API_COLLECTION) (chunked retry_set BATCH_LIMIT).
Proof.
  intros retry_set Hne Hlen. subst retry_set.
  unfold fetch_all_batch.
  erewrite bind_Ret by reflexivity. cbn [script trace].
  erewrite bind_Ret by apply fetch_batch_first_try.
  destruct (not_found b) as [|item nf]; [now elim Hne|].
  set (nf_names := map nf_name (item :: nf)) in *.
  destruct (front_faces nf_names) as [|f fs] eqn:Hff; [now elim Hne|].
  set (subs := chunked (retry_set_of (f :: fs)) BATCH_LIMIT) in *.
  set (tr0 := (tr ++ [Stderr (MsgFetchingBatch batch_idx (List.length batch))])
              ++ [Sent (Post API_COLLECTION batch)]).
  assert (Hretry :
            exists res pre,
              ((if verbose
                then print_err (MsgRetrying (List.length (retry_set_of (f :: fs))))
                else ret tt) ;;;
               results0 <- fetch_retry subs (merge_cards results (data b)) ;;
               ret (results0, resolved_by_retry results0 nf_names))
                (mkWorld (map ok200 retry_bodies ++ rest) tr0)
              = (Ret (res, resolved_by_retry res nf_names),
                 mkWorld rest
                   ((tr0 ++ pre)
                      ++ map (fun sub => Sent (Post API_COLLECTION sub)) subs))
              /\ requests_of pre = []).
  { destruct verbose.
    - destruct (fetch_retry_answered subs retry_bodies
                  (merge_cards results (data b)) rest
                  (tr0 ++ [Stderr (MsgRetrying
                                     (List.length (retry_set_of (f :: fs))))])
                  Hlen) as (res & E).
      exists res, [Stderr (MsgRetrying (List.length (retry_set_of (f :: fs))))].
      split; [|reflexivity].
      erewrite bind_Ret by reflexivity. cbn [script trace].
      erewrite bind_Ret by exact E. reflexivity.
    - destruct (fetch_retry_answered subs retry_bodies
                  (merge_cards results (data b)) rest tr0 Hlen) as (res & E).
      exists res, []. split; [|reflexivity].
      erewrite bind_Ret by reflexivity.
      erewrite bind_Ret by exact E. now rewrite app_nil_r. }
  destruct Hretry as (res & pre & E & Hpre).
  erewrite bind_Ret by exact E. cbv beta iota.
  assert (Hreq : forall post,
             requests_of post = [] ->
             requests_of
               ([Stderr (MsgFetchingBatch batch_idx (List.length batch));
                 Sent (Post API_COLLECTION batch)] ++ pre
                ++ map (fun sub => Sent (Post API_COLLECTION sub)) subs ++ post)
             = Post API_COLLECTION batch :: map (Post API_COLLECTION) subs).
  { intros post Hpost.
    rewrite !requests_of_app, Hpre, Hpost, requests_of_posts.
    cbn. now rewrite app_nil_r. }
  subst tr0.
  destruct (filter (fun n => negb (mem n (resolved_by_retry res nf_names)))
              nf_names) as [|m ms].
  - destruct verbose.
    + erewrite bind_Ret by reflexivity. cbn [script trace]. unfold ret.
      eexists; eexists. split.
      * rewrite <- !app_assoc. reflexivity.
      * apply (Hreq [Stderr (MsgAllResolved nf_names)]). reflexivity.
    + erewrite bind_Ret by reflexivity. unfold ret.
      eexists; eexists. split.
      * rewrite <- !app_assoc. rewrite <- (app_nil_r (map _ subs)).
        reflexivity.
      * apply (Hreq []). reflexivity.
  - destruct (filter (fun n => negb (mem n unresolved)) (m :: ms)) as [|k ks].
    + erewrite bind_Ret by reflexivity. cbn [script trace]. unfold ret.
      eexists; eexists. split.
      * rewrite <- !app_assoc. reflexivity.
      * apply (Hreq [Stderr (MsgStillUnresolved (m :: ms))]). reflexivity.
    + erewrite bind_Ret by reflexivity. cbn [script trace]. unfold ret.
      eexists; eexists. split.
      * rewrite <- !app_assoc. reflexivity.
      * apply (Hreq [Stderr (MsgNewlyUnresolved (k :: ks))]). reflexivity.
Qed.

(** C5 (as amended).  The front-face retry candidates of a batch are
    de-duplicated as exact strings (letter case distinguishes them) and
    then sorted on their lower-case form; the result is cut by [chunked]
    into groups of at most 75 and each group is requested from the
    collection endpoint through [fetch_batch], after the request for the
    batch itself.  The order in which candidates that differ only in
    letter case are sent is the order in which the set is iterated; it
    is left open. *)
Theorem retry_candidates_distinct_then_sorted :
  forall (nf_names : list string),
    let candidates := front_faces nf_names in
    let retry_set := retry_set_of candidates in
    NoDup retry_set
    /\ (forall s, In s retry_set <-> In s candidates)
    /\ Sorted le_lower retry_set
    /\ (forall verbose batch_idx batch results unresolved b retry_bodies rest tr,
           map nf_name (not_found b) = nf_names ->
           candidates <> [] ->
           List.length retry_bodies
           = List.length (chunked retry_set BATCH_LIMIT) ->
           exists order st evs,
             Permutation order retry_set
             /\ Sorted le_lower order
             /\ fetch_all_batch verbose batch_idx batch (results, unresolved)
                  (mkWorld (ok200 b :: map ok200 retry_bodies ++ rest) tr)
                = (Ret st, mkWorld rest (tr ++ evs))
             /\ requests_of evs
                = Post API_COLLECTION batch
                  :: map (Post API_COLLECTION) (chunked order BATCH_LIMIT)).
Proof.
  intros nf_names candidates retry_set.
  destruct (retry_set_of_spec candidates) as (Hnd & Hin & Hs).
  split; [exact Hnd | split; [exact Hin | split; [exact Hs|]]].
  intros verbose batch_idx batch results unresolved b retry_bodies rest tr
         Hb Hne Hlen.
  subst retry_set candidates nf_names.
  destruct (fetch_all_batch_requests verbose batch_idx batch results
              unresolved b retry_bodies rest tr Hne Hlen)
    as (st & evs & Hrun & Hreq).
  exists (retry_set_of (front_faces (map nf_name (not_found b)))), st, evs.
  repeat split; auto.
Qed.

Lemma retry_candidates_distinct_then_sorted_witness :
  exists order st evs,
    Permutation order
      (retry_set_of (front_faces ["Fire // Ice"; "fire // ice"]))
    /\ Sorted le_lower order
    /\ fetch_all_batch false 1 ["Fire // Ice"; "fire // ice"] ([], [])
         (mkWorld (ok200 fire_ice_not_found :: map ok200 [nothing_found] ++ [])
            [])
       = (Ret st, mkWorld [] ([] ++ evs))
    /\ requests_of evs
       = Post API_COLLECTION ["Fire // Ice"; "fire // ice"]
         :: map (Post API_COLLECTION) (chunked order BATCH_LIMIT).
Proof.
  apply (proj2 (proj2 (proj2 (retry_candidates_distinct_then_sorted
                                ["Fire // Ice"; "fire // ice"])))
           false 1 ["Fire // Ice"; "fire // ice"] [] [] fire_ice_not_found
           [nothing_found] [] []).
  - reflexivity.
  - discriminate.
  - reflexivity.
Defined.

(** C5, as stated, fails: two candidates that differ only in letter case
    are both kept, and both are sent in the retry request. *)
Lemma retry_keeps_case_variants :
  front_faces ["Fire // Ice"; "fire // ice"] = ["Fire"; "fire"]
  /\ lower "Fire" = lower "fire"
  /\ List.length (retry_set_of ["Fire"; "fire"]) = 2
  /\ In "Fire" (retry_set_of ["Fire"; "fire"])
  /\ In "fire" (retry_set_of ["Fire"; "fire"])
  /\ exists ids,
      requests_of
        (trace (snd (fetch_all ["Fire // Ice"; "fire // ice"] false
                       (mkWorld [ok200 fire_ice_not_found; ok200 nothing_found]
                          []))))
      = [Post API_COLLECTION ["Fire // Ice"; "fire // ice"];
         Post API_COLLECTION ids]
      /\ List.length ids = 2.
Proof.
  split; [reflexivity|]. split; [reflexivity|]. split; [reflexivity|].
  split; [cbv; auto|]. split; [cbv; auto|].
  eexists. split; reflexivity.
Qed.

(** ** Names resolved by the retry *)

Lemma conditional_set_add_In (P : string -> bool) (l acc : list string)
      (o : string) :
  In o (fold_left (fun r x => if P x then set_add x r else r) l acc)
  <-> In o acc \/ (In o l /\ P o = true).
Proof.
  revert acc. induction l as [|x l IH]; intros acc; cbn [fold_left In].
  - tauto.
  - rewrite IH. destruct (P x) eqn:E.
    + rewrite set_add_In. split.
      * intros [[->|H]|[H1 H2]]; auto.
      * intros [H|[[<-|H1] H2]]; auto.
    + split.
      * intros [H|[H1 H2]]; auto.
      * intros [H|[[<-|H1] H2]]; auto. congruence.
Qed.

Lemma resolved_by_retry_In (results : PyDict.dict card)
      (nf_names : list string) (original : string) :
  In original (resolved_by_retry results nf_names)
  <-> In original nf_names
      /\ exists k, In k (PyDict.keys results) /\ lower k = lower original.
Proof.
  unfold resolved_by_retry. rewrite conditional_set_add_In.
  cbn [In]. rewrite existsb_exists.
  split.
  - intros [[]|[H (r & Hr & E)]]. split; [assumption|].
    apply String.eqb_eq in E. subst r.
    apply set_of_list_In, in_map_iff in Hr. destruct Hr as (k & Hk & Hin).
    eauto.
  - intros [H (k & Hk & E)]. right. split; [assumption|].
    exists (lower original). split; [|apply String.eqb_refl].
    apply set_of_list_In, in_map_iff. eauto.
Qed.

(** C4.  In a batch answered by a 200, a not-found name that
    contains [" // "] and whose front face (the text before the first
    separator, stripped) is not empty ends up in the unresolved set
    exactly when it was there before or no key of the mapping, as it is
    after the retry requests, equals the whole name up to letter case.
    For the input [[delver]], reported not found and then returned by the
    front-face retry under the composite name, the mapping has that key
    and nothing is unresolved. *)
Theorem composite_resolved_by_retry :
  (forall verbose batch_idx batch results unresolved b rest tr
          results1 unresolved1 w1 original,
      fetch_all_batch verbose batch_idx batch (results, unresolved)
        (mkWorld (ok200 b :: rest) tr)
      = (Ret (results1, unresolved1), w1) ->
      In original (map nf_name (not_found b)) ->
      contains " // " original = true ->
      truthy (strip (split_head " // " original)) = true ->
      (In original unresolved1
       <-> In original unresolved
           \/ ~ exists k,
                 In k (PyDict.keys results1) /\ lower k = lower original))
  /\ (forall verbose c,
         card_name c = Some delver ->
         fst (fetch_all [delver] verbose
                (mkWorld [ok200 delver_not_found; ok200 (delver_found c)] []))
         = Ret ([(delver, c)], [])).
Proof.
  split.
  - intros verbose batch_idx batch results unresolved b rest tr
           results1 unresolved1 w1 original Hrun Hin Hsep Hfront.
    apply fetch_all_batch_inv in Hrun. cbv zeta in Hrun.
    assert (Hq : In (strip (split_head " // " original))
                   (front_faces (map nf_name (not_found b)))).
    { apply front_faces_In. exists original. split; [assumption|].
      unfold front_face. now rewrite Hsep, Hfront. }
    destruct (front_faces (map nf_name (not_found b))) as [|f fs];
      [destruct Hq|].
    destruct Hrun as [_ ->].
    rewrite set_update_In, filter_In, negb_true_iff, mem_false,
      resolved_by_retry_In.
    tauto.
  - intros verbose [id name other] Hname. cbn in Hname. subst name.
    destruct verbose; reflexivity.
Qed.

Lemma composite_resolved_by_retry_witness :
  (In delver []
   <-> In delver []
       \/ ~ exists k,
             In k (PyDict.keys [(delver, delver_card)])
             /\ lower k = lower delver)
  /\ fst (fetch_all [delver] false
            (mkWorld [ok200 delver_not_found; ok200 (delver_found delver_card)]
               []))
     = Ret ([(delver, delver_card)], []).
Proof.
  split.
  - apply (proj1 composite_resolved_by_retry false 1 [delver] [] []
             delver_not_found [ok200 (delver_found delver_card)] []
             [(delver, delver_card)] []
             (snd (fetch_all_batch false 1 [delver] ([], [])
                     (mkWorld [ok200 delver_not_found;
                               ok200 (delver_found delver_card)] [])))
             delver).
    + vm_compute. reflexivity.
    + cbn. auto.
    + reflexivity.
    + reflexivity.
  - apply (proj2 composite_resolved_by_retry false delver_card). reflexivity.
Defined.

(** A not-found name that begins with the separator has no front face:
    no retry is made, the comparison with the keys is skipped, and the
    name is unresolved although a key equals it up to letter case. *)
Lemma composite_without_front_face_unresolved :
  contains " // " " // ice" = true
  /\ lower " // Ice" = lower " // ice"
  /\ fst (fetch_all [" // ice"] false
            (mkWorld
               [ok200 (mkBody [slash_ice] [NfDict " // ice"] false None None None)]
               []))
     = Ret ([(" // Ice", slash_ice)], [" // ice"]).
Proof.
  split; [reflexivity|]. split; reflexivity.
Qed.

(** ** Reassembly in output order *)

Section Reassembly.
Variable lower_map : PyDict.dict card.

Lemma card_ids_app (a b : list card) :
  card_ids (a ++ b) = card_ids a ++ card_ids b.
Proof. apply flat_map_app. Qed.

Lemma card_ids_In (cs : list card) (i : string) :
  In i (card_ids cs)
  <-> exists c, In c cs /\ card_id c = Some i /\ truthy i = true.
Proof.
  unfold card_ids. rewrite in_flat_map. split.
  - intros (c & Hc & H). exists c. split; [assumption|].
    destruct (card_id c) as [j|]; [|destruct H].
    destruct (truthy j) eqn:E; [|destruct H].
    destruct H as [<-|[]]. auto.
  - intros (c & Hc & Hid & Ht). exists c. split; [assumption|].
    rewrite Hid, Ht. now left.
Qed.

Lemma consistent_nil : consistent lower_map [] ([], [], []).
Proof.
  constructor; cbn.
  - constructor.
  - tauto.
  - intros n. split; [intros []|intros [[] _]].
  - intros c [].
  - intros n c [].
Qed.

(** The step either leaves the cards alone or appends the resolved one. *)
Lemma reassemble_step_cards st original :
  cards_of (reassemble_step lower_map st original) = cards_of st
  \/ exists c, resolves lower_map original c
               /\ cards_of (reassemble_step lower_map st original)
                  = cards_of st ++ [c].
Proof.
  destruct st as [[ordered seen] mapped]. unfold reassemble_step, resolves.
  destruct (resolve_input_name lower_map original) as [c|]; [|now left].
  destruct (card_truthy c) eqn:Ht; [|now left].
  destruct (card_id c) as [i|]; [destruct (truthy i); [destruct (mem i seen)|]|];
    cbn; eauto.
Qed.

Lemma reassemble_step_consistent done st original :
  consistent lower_map done st ->
  consistent lower_map (done ++ [original]) (reassemble_step lower_map st original).
Proof.
  destruct st as [[ordered seen] mapped]. intros [Hnd Hseen Hmap Hsound Hcompl].
  cbn [cards_of seen_of mapped_of fst snd] in *.
  assert (Hkeep : resolve_input_name lower_map original = None
                  \/ (exists c, resolve_input_name lower_map original = Some c
                                /\ card_truthy c = false) ->
                  consistent lower_map (done ++ [original]) (ordered, seen, mapped)).
  { intros Hno. constructor; cbn [cards_of seen_of mapped_of fst snd]; auto.
    - intros n. rewrite Hmap, in_app_iff. cbn [In]. split.
      + intros [H1 H2]. auto.
      + intros [[H1|[<-|[]]] Hex]; [auto|].
        destruct Hex as (c & Hr & Ht).
        destruct Hno as [Hno|(c' & Hno & Hf)]; congruence.
    - intros c Hc. destruct (Hsound c Hc) as (n & Hn & Hr).
      exists n. rewrite in_app_iff. auto.
    - intros n c Hn Hr. apply in_app_iff in Hn.
      destruct Hn as [Hn|[<-|[]]]; [now apply (Hcompl n c)|].
      destruct Hr as [Hr Ht].
      destruct Hno as [Hno|(c' & Hno & Hf)]; congruence. }
  unfold reassemble_step.
  destruct (resolve_input_name lower_map original) as [c|] eqn:Hres; [|auto].
  destruct (card_truthy c) eqn:Ht; [|eauto].
  clear Hkeep.
  assert (Hmapped : forall n,
             In n (set_add original mapped)
             <-> In n (done ++ [original]) /\ exists c, resolves lower_map n c).
  { intros n. rewrite set_add_In, Hmap, in_app_iff. cbn [In]. split.
    - intros [->|[H1 H2]]; [|auto]. split; [auto|]. exists c. now split.
    - intros [[H1|[<-|[]]] H2]; auto. }
  assert (Hdone : forall n c', In n (done ++ [original]) ->
                               resolves lower_map n c' ->
                               In n done \/ (n = original /\ c' = c)).
  { intros n c' Hn [Hr _]. apply in_app_iff in Hn.
    destruct Hn as [Hn|[<-|[]]]; auto. right. split; congruence. }
  destruct (card_id c) as [i|] eqn:Hid;
    [destruct (truthy i) eqn:Hti; [destruct (mem i seen) eqn:Hm|]|].
  - (* the id was emitted before: the card is dropped *)
    apply mem_In, Hseen in Hm.
    constructor; cbn [cards_of seen_of mapped_of fst snd]; auto.
    + intros c' Hc'. destruct (Hsound c' Hc') as (n & Hn & Hr).
      exists n. rewrite in_app_iff. auto.
    + intros n c' Hn Hr. destruct (Hdone n c' Hn Hr) as [Hd|[-> ->]]; eauto.
  - (* a new id *)
    apply mem_false in Hm.
    assert (Hids : card_ids (ordered ++ [c]) = card_ids ordered ++ [i]).
    { rewrite card_ids_app. cbn. now rewrite Hid, Hti. }
    constructor; cbn [cards_of seen_of mapped_of fst snd]; auto.
    + rewrite Hids. apply NoDup_app; auto.
      * constructor; [intros []|constructor].
      * intros a Ha [<-|[]]. apply Hm, Hseen, Ha.
    + intros j. rewrite Hids, set_add_In, in_app_iff, Hseen. cbn [In].
      intuition congruence.
    + intros c' Hc'. apply in_app_iff in Hc'. destruct Hc' as [Hc'|[<-|[]]].
      * destruct (Hsound c' Hc') as (n & Hn & Hr).
        exists n. rewrite in_app_iff. auto.
      * exists original. rewrite in_app_iff. cbn. split; [auto|now split].
    + intros n c' Hn Hr. rewrite Hids.
      destruct (Hdone n c' Hn Hr) as [Hd|[-> ->]].
      * destruct (Hcompl n c' Hd Hr) as [H|(j & H1 & H2 & H3)].
        -- left. apply in_app_iff. auto.
        -- right. exists j. rewrite in_app_iff. auto.
      * left. apply in_app_iff. cbn. auto.
  - (* an id that is the empty string *)
    assert (Hids : card_ids (ordered ++ [c]) = card_ids ordered).
    { rewrite card_ids_app. cbn. now rewrite Hid, Hti, app_nil_r. }
    constructor; cbn [cards_of seen_of mapped_of fst snd]; auto;
      rewrite ?Hids; auto.
    + intros c' Hc'. apply in_app_iff in Hc'. destruct Hc' as [Hc'|[<-|[]]].
      * destruct (Hsound c' Hc') as (n & Hn & Hr).
        exists n. rewrite in_app_iff. auto.
      * exists original. rewrite in_app_iff. cbn. split; [auto|now split].
    + intros n c' Hn Hr.
      destruct (Hdone n c' Hn Hr) as [Hd|[-> ->]].
      * destruct (Hcompl n c' Hd Hr) as [H|H]; auto.
        left. apply in_app_iff. auto.
      * left. apply in_app_iff. cbn. auto.
  - (* no id *)
    assert (Hids : card_ids (ordered ++ [c]) = card_ids ordered).
    { rewrite card_ids_app. cbn. now rewrite Hid, app_nil_r. }
    constructor; cbn [cards_of seen_of mapped_of fst snd]; auto;
      rewrite ?Hids; auto.
    + intros c' Hc'. apply in_app_iff in Hc'. destruct Hc' as [Hc'|[<-|[]]].
      * destruct (Hsound c' Hc') as (n & Hn & Hr).
        exists n. rewrite in_app_iff. auto.
      * exists original. rewrite in_app_iff. cbn. split; [auto|now split].
    + intros n c' Hn Hr.
      destruct (Hdone n c' Hn Hr) as [Hd|[-> ->]].
      * destruct (Hcompl n c' Hd Hr) as [H|H]; auto.
        left. apply in_app_iff. auto.
      * left. apply in_app_iff. cbn. auto.
Qed.
End Reassembly.

Section ReassemblyRuns.
Variable lower_map : PyDict.dict card.

Lemma reassemble_fold_consistent l :
  forall done st,
    consistent lower_map done st ->
    consistent lower_map (done ++ l)
      (fold_left (reassemble_step lower_map) l st).
Proof.
  induction l as [|n l IH]; intros done st H; cbn [fold_left].
  - now rewrite app_nil_r.
  - replace (done ++ n :: l) with ((done ++ [n]) ++ l)
      by now rewrite <- app_assoc.
    apply IH. now apply reassemble_step_consistent.
Qed.

Lemma reassemble_fold_extends l :
  forall st,
    exists ext,
      cards_of (fold_left (reassemble_step lower_map) l st)
      = cards_of st ++ ext.
Proof.
  induction l as [|n l IH]; intros st; cbn [fold_left].
  - exists []. now rewrite app_nil_r.
  - destruct (IH (reassemble_step lower_map st n)) as (ext & E).
    destruct (reassemble_step_cards lower_map st n) as [H|(c & _ & H)];
      rewrite E, H.
    + now exists ext.
    + exists ([c] ++ ext). now rewrite <- app_assoc.
Qed.

Lemma reassemble_consistent input_sequence :
  consistent lower_map input_sequence (reassemble lower_map input_sequence).
Proof.
  apply (reassemble_fold_consistent input_sequence [] ([], [], [])).
  apply consistent_nil.
Qed.

(** The card of the first name that resolves to a given id is the one
    emitted. *)
Lemma reassemble_first_wins l1 n l2 c i :
  resolves lower_map n c ->
  card_id c = Some i ->
  truthy i = true ->
  (forall n' c', In n' l1 -> resolves lower_map n' c' -> card_id c' <> Some i) ->
  In c (cards_of (reassemble lower_map (l1 ++ n :: l2))).
Proof.
  intros [Hres Ht] Hid Hti Hfirst.
  unfold reassemble. rewrite fold_left_app. cbn [fold_left].
  pose proof (reassemble_consistent l1) as Hc. unfold reassemble in Hc.
  set (st1 := fold_left (reassemble_step lower_map) l1 ([], [], [])) in *.
  assert (Hnew : ~ In i (seen_of st1)).
  { intros Hin. apply (seen_are_ids _ _ _ Hc), card_ids_In in Hin.
    destruct Hin as (c' & Hc' & Hid' & _).
    destruct (emitted_are_resolved _ _ _ Hc c' Hc') as (n' & Hn' & Hr').
    exact (Hfirst n' c' Hn' Hr' Hid'). }
  assert (Hstep : cards_of (reassemble_step lower_map st1 n)
                  = cards_of st1 ++ [c]).
  { destruct st1 as [[ordered seen] mapped]. unfold reassemble_step.
    cbn [seen_of fst snd] in Hnew. apply mem_false in Hnew.
    now rewrite Hres, Ht, Hid, Hti, Hnew. }
  destruct (reassemble_fold_extends l2 (reassemble_step lower_map st1 n))
    as (ext & E).
  rewrite E, Hstep, !in_app_iff. cbn. auto.
Qed.
End ReassemblyRuns.

(** An input file that names the same card on two lines. *)
Lemma main_same_name_twice line c nm sort verbose rest tr :
  let raw := strip line in
  truthy raw = true ->
  startswith "#" raw = false ->
  card_name c = Some nm ->
  truthy nm = true ->
  lower nm = lower raw ->
  exists evs,
    main (Lines [line; line]) true sort verbose
      (mkWorld (ok200 (one_card c) :: rest) tr)
    = (Ret 0%Z, mkWorld rest (tr ++ evs))
    /\ requests_of evs = [Post API_COLLECTION [raw]]
    /\ written_of evs = [[c]].
Proof.
  intros raw Hraw Hc Hname Hnm Hlow.
  assert (Hread : forall w, read_names (Lines [line; line]) w = (Ret [raw], w)).
  { intros w. unfold read_names, read_names_step. cbn [fold_left].
    fold raw. rewrite Hraw, Hc. cbn [negb orb mem existsb set_add app].
    rewrite String.eqb_refl. reflexivity. }
  clearbody raw.
  assert (Hfetch :
            forall tr0,
              fetch_all [raw] verbose (mkWorld (ok200 (one_card c) :: rest) tr0)
              = (Ret ([(nm, c)], []),
                 mkWorld rest
                   (tr0 ++ [Stderr (MsgFetchingBatch 1 1);
                            Sent (Post API_COLLECTION [raw])]))).
  { intros tr0. unfold fetch_all.
    change (chunked [raw] BATCH_LIMIT) with [[raw]]. cbn [fetch_all_loop].
    erewrite bind_Ret;
      [|erewrite bind_Ret by (apply fetch_all_batch_found; reflexivity);
        reflexivity].
    cbn [one_card data merge_cards fold_left]. rewrite Hname, Hnm.
    reflexivity. }
  assert (Htruthy : card_truthy c = true).
  { unfold card_truthy. rewrite Hname. now destruct (card_id c). }
  assert (Hlm : lower_map_of [(nm, c)] = [(lower nm, c)]) by reflexivity.
  assert (Hre : forall n, lower n = lower nm ->
                          cards_of (reassemble [(lower nm, c)] [n]) = [c]
                          /\ mapped_of (reassemble [(lower nm, c)] [n]) = [n]).
  { intros n Hn. unfold reassemble, reassemble_step, resolve_input_name.
    cbn [fold_left PyDict.get]. rewrite Hn, String.eqb_refl, Htruthy.
    destruct (card_id c) as [i|]; [destruct (truthy i)|]; split; reflexivity. }
  assert (Hsorted : sorted_lower (PyDict.keys [(nm, c)]) = [nm]) by reflexivity.
  unfold main. erewrite bind_Ret by apply Hread. cbv iota beta.
  unfold main_resolve. unfold bind at 1.
  erewrite bind_Ret by reflexivity. cbn [script trace].
  erewrite bind_Ret by apply Hfetch. cbv iota beta. rewrite Hlm, Hsorted.
  set (input_sequence := match sort with SortInput => [raw] | SortAlpha => [nm] end).
  assert (Hin : exists n, input_sequence = [n] /\ lower n = lower nm).
  { destruct sort; [exists raw | exists nm]; auto. }
  destruct Hin as (n & -> & Hn). destruct (Hre n Hn) as [Hcards Hmapped].
  destruct (reassemble [(lower nm, c)] [n]) as [[oc seen] mp].
  cbn [cards_of mapped_of fst snd] in Hcards, Hmapped. subst oc mp.
  cbn [mem existsb orb filter].
  destruct (raw =? n)%string; cbn [negb app];
    unfold bind, emit, print_err, ret; cbn;
    (eexists; split; [rewrite <- !app_assoc; reflexivity | split; reflexivity]).
Qed.

(** ** The names read *)

Lemma read_names_fold (lines : list string) :
  forall names_ seen,
    NoDup names_ ->
    (forall n, In n seen <-> In n names_) ->
    let st := fold_left read_names_step lines (names_, seen) in
    NoDup (fst st)
    /\ (forall n, In n (snd st) <-> In n (fst st))
    /\ (forall n, In n (fst st)
                  <-> In n names_
                      \/ exists line, In line lines /\ names_card line = true
                                      /\ n = strip line).
Proof.
  induction lines as [|line lines IH]; intros names_ seen Hnd Hseen;
    cbn [fold_left].
  - cbn. split; [assumption|]. split; [assumption|].
    intros n. split; [auto|]. intros [H|(l & [] & _)]. exact H.
  - assert (Hstep : NoDup (fst (read_names_step (names_, seen) line))
                    /\ (forall n, In n (snd (read_names_step (names_, seen) line))
                                  <-> In n (fst (read_names_step (names_, seen) line)))
                    /\ (forall n, In n (fst (read_names_step (names_, seen) line))
                                  <-> In n names_
                                      \/ (names_card line = true /\ n = strip line))).
    { unfold read_names_step, names_card.
      destruct (truthy (strip line)); cbn [negb orb andb fst snd];
        [|split; [assumption|split; [assumption|]]; intros n;
          split; [auto|intros [H|[H _]]; [exact H|discriminate]]].
      destruct (startswith "#" (strip line)); cbn [negb fst snd];
        [split; [assumption|split; [assumption|]]; intros n;
         split; [auto|intros [H|[H _]]; [exact H|discriminate]]|].
      destruct (mem (strip line) seen) eqn:Em; cbn [negb fst snd].
      - apply mem_In, Hseen in Em.
        split; [assumption|split; [assumption|]]. intros n.
        split; [auto|intros [H|[_ ->]]; assumption].
      - apply mem_false in Em. rewrite Hseen in Em.
        split; [|split].
        + apply NoDup_app; auto.
          * constructor; [intros []|constructor].
          * intros a Ha [<-|[]]. contradiction.
        + intros n. rewrite set_add_In, in_app_iff, Hseen. cbn. intuition.
        + intros n. rewrite in_app_iff. cbn. intuition. }
    destruct (read_names_step (names_, seen) line) as [names1 seen1].
    cbn [fst snd] in Hstep. destruct Hstep as (H1 & H2 & H3).
    destruct (IH names1 seen1 H1 H2) as (I1 & I2 & I3).
    split; [exact I1|]. split; [exact I2|].
    intros n. rewrite I3, H3. cbn [In]. split.
    + intros [[H|[Hc ->]]|(l & Hl & Hc & ->)]; eauto 6.
    + intros [H|(l & [<-|Hl] & Hc & ->)]; eauto 6.
Qed.

(** [read_names] returns the distinct stripped lines that are neither
    blank nor comments, and changes nothing. *)
Lemma read_names_deduplicates (lines : list string) (w : world) :
  exists names_,
    read_names (Lines lines) w = (Ret names_, w)
    /\ NoDup names_
    /\ forall n, In n names_
                 <-> exists line, In line lines /\ names_card line = true
                                  /\ n = strip line.
Proof.
  destruct (read_names_fold lines [] []) as (H1 & _ & H3);
    [constructor | tauto |].
  eexists. split; [reflexivity|]. split; [exact H1|].
  intros n. rewrite H3. cbn. tauto.
Qed.

(** ** The final report of [main] *)

Lemma combine_unresolved_fold (l : list string) :
  forall acc,
    fold_left
      (fun (st : list string * list string) name =>
         let '(combined, seen_un) := st in
         if negb (mem name seen_un)
         then (combined ++ [name], set_add name seen_un)
         else st)
      l (acc, acc)
    = (set_update acc l, set_update acc l).
Proof.
  unfold set_update.
  induction l as [|x l IH]; intros acc; cbn [fold_left]; [reflexivity|].
  unfold set_add. destruct (mem x acc); cbn [negb]; apply IH.
Qed.

(** The loop keeps the first occurrence of every name. *)
Lemma combine_unresolved_spec (l : list string) :
  NoDup (combine_unresolved l)
  /\ forall n, In n (combine_unresolved l) <-> In n l.
Proof.
  unfold combine_unresolved. rewrite combine_unresolved_fold. cbn [fst].
  split; [apply set_of_list_NoDup | apply set_of_list_In].
Qed.

(** What [main] has computed when it reaches its last line. *)
Lemma main_resolve_inv names_ out sort verbose w loc w' :
  main_resolve names_ out sort verbose w = (Ret loc, w') ->
  exists w1 w2,
    fetch_all names_ verbose w1 = (Ret (cards loc, unresolved_names loc), w2)
    /\ script w1 = script w
    /\ names loc = names_
    /\ mapped_names loc
       = mapped_of
           (reassemble (lower_map_of (cards loc))
              match sort with
              | SortInput => names_
              | SortAlpha => sorted_lower (PyDict.keys (cards loc))
              end)
    /\ ordering_unresolved loc
       = filter (fun n => negb (mem n (mapped_names loc))) names_
    /\ combined_unresolved loc
       = combine_unresolved (unresolved_names loc ++ ordering_unresolved loc).
Proof.
  intros H. unfold main_resolve in H.
  apply bind_Ret_inv in H as ([] & w1 & Hp & H).
  apply bind_Ret_inv in H as ([cs un] & w2 & Hf & H).
  exists w1, w2.
  assert (Hs : script w1 = script w).
  { unfold print_err, emit in Hp. inversion Hp. reflexivity. }
  destruct (reassemble (lower_map_of cs)
              match sort with
              | SortInput => names_
              | SortAlpha => sorted_lower (PyDict.keys cs)
              end) as [[oc seen] mp] eqn:Er.
  apply bind_Ret_inv in H as ([] & w3 & _ & H).
  apply bind_Ret_inv in H as ([] & w4 & _ & H).
  apply bind_Ret_inv in H as ([] & w5 & _ & H).
  apply ret_inv in H as [<- _]. cbn [cards unresolved_names names mapped_names
                                      ordering_unresolved combined_unresolved].
  rewrite Er. cbn [mapped_of snd]. repeat split; assumption.
Qed.

(** ** Where unresolved names come from *)

Lemma reported_app (a b : list response) :
  reported (a ++ b) = reported a ++ reported b.
Proof. apply flat_map_app. Qed.

Section Provenance.
Variables (retries : nat) (backoff_base : Q).

(** An attempt that hands control back has used up one response, and a
    body it returns is the body of that response. *)
Lemma fetch_batch_attempt_consumes names_ attempt w c w' :
  fetch_batch_attempt names_ retries backoff_base attempt w = (Ret c, w') ->
  exists r,
    script w = r :: script w'
    /\ forall b, c = Done b -> exists st ra, r = Http st ra (Some b).
Proof.
  destruct w as [s tr].
  unfold fetch_batch_attempt, try_except, bind, send, retry_after_header,
    resp_json, raise_for_status, print_err, sleep, emit, ret, raise, sys_exit.
  cbn [script trace].
  destruct s as [|[|st ra js] rest]; cbn; [discriminate| |].
  - destruct (attempt =? retries); cbn; intros H; inversion H; subst.
    eexists; split; [reflexivity|]. discriminate.
  - destruct (st =? 429)%Z.
    + destruct (py_int match ra with Some s => s | None => "1" end); cbn;
        case_sleep; cbn; intros H; inversion H; subst.
      eexists; split; [reflexivity|]. discriminate.
    + destruct (st >=? 400)%Z;
        [destruct (truthy_opt match js with Some b => details b | None => None end);
         cbn; destruct ((400 <=? st)%Z && (st <? 600)%Z)|];
        cbn; destruct js as [b|]; cbn;
        try (destruct (attempt =? retries); cbn);
        intros H; inversion H; subst;
        (eexists; split; [reflexivity|]);
        intros b' Hb'; inversion Hb'; subst; eauto.
Qed.

Lemma fetch_batch_for_consumes names_ attempts :
  forall w b w',
    fetch_batch_for names_ retries backoff_base attempts w = (Ret b, w') ->
    exists consumed st ra,
      script w = consumed ++ script w'
      /\ In (Http st ra (Some b)) consumed.
Proof.
  induction attempts as [|a attempts IH]; intros w b w' H; cbn in H.
  - discriminate.
  - apply bind_Ret_inv in H as (c & w1 & Ha & H).
    apply fetch_batch_attempt_consumes in Ha as (r & Hs & Hb).
    destruct c as [|b0].
    + apply IH in H as (consumed & st & ra & Hs' & Hin).
      exists (r :: consumed), st, ra. rewrite Hs, Hs'. cbn. auto.
    + apply ret_inv in H as [-> ->].
      destruct (Hb b eq_refl) as (st & ra & ->).
      exists [Http st ra (Some b)], st, ra. rewrite Hs. cbn. auto.
Qed.
End Provenance.

Lemma fetch_batch_consumes names_ w b w' :
  fetch_batch names_ w = (Ret b, w') ->
  exists consumed,
    script w = consumed ++ script w'
    /\ incl (map nf_name (not_found b)) (reported consumed).
Proof.
  intros H. apply fetch_batch_for_consumes in H as (consumed & st & ra & Hs & Hin).
  exists consumed. split; [assumption|].
  intros n Hn. unfold reported. apply in_flat_map.
  exists (Http st ra (Some b)). auto.
Qed.

Lemma fetch_retry_consumes subs :
  forall results w results' w',
    fetch_retry subs results w = (Ret results', w') ->
    exists consumed, script w = consumed ++ script w'.
Proof.
  induction subs as [|sub subs IH]; intros results w results' w' H; cbn in H.
  - apply ret_inv in H as [_ ->]. now exists [].
  - apply bind_Ret_inv in H as (b & w1 & Hb & H).
    apply fetch_batch_consumes in Hb as (c1 & Hs1 & _).
    apply IH in H as (c2 & Hs2).
    exists (c1 ++ c2). now rewrite Hs1, Hs2, app_assoc.
Qed.

Lemma print_err_script m w a w' :
  print_err m w = (Ret a, w') -> script w' = script w.
Proof. unfold print_err, emit. intros H. inversion H. reflexivity. Qed.

Lemma optional_print_script (v : bool) m w a w' :
  (if v then print_err m else ret tt) w = (Ret a, w') -> script w' = script w.
Proof.
  destruct v; [apply print_err_script|].
  intros H. apply ret_inv in H as [_ ->]. reflexivity.
Qed.

(** A completed iteration of the batch loop adds to the unresolved set
    only names that a response it consumed reports as not found. *)
Lemma fetch_all_batch_unresolved verbose batch_idx batch results unresolved w
      results1 unresolved1 w1 :
  fetch_all_batch verbose batch_idx batch (results, unresolved) w
  = (Ret (results1, unresolved1), w1) ->
  exists consumed,
    script w = consumed ++ script w1
    /\ incl unresolved1 (unresolved ++ reported consumed).
Proof.
  intros H. unfold fetch_all_batch in H.
  apply bind_Ret_inv in H as ([] & w0 & Hp & H).
  apply print_err_script in Hp.
  apply bind_Ret_inv in H as (d & w2 & Hfb & H).
  apply fetch_batch_consumes in Hfb as (c1 & Hs1 & Hnf).
  rewrite Hp in Hs1.
  destruct (not_found d) as [|item nf] eqn:Enf.
  - apply ret_inv in H as [H ->]. inversion H; subst.
    exists c1. split; [assumption|]. apply incl_appl, incl_refl.
  - set (nf_names := map nf_name (item :: nf)) in *.
    apply bind_Ret_inv in H as ([res rtb] & w3 & Hr & H).
    assert (Hs2 : exists c2, script w2 = c2 ++ script w3).
    { destruct (front_faces nf_names) as [|f fs].
      - apply ret_inv in Hr as [_ ->]. now exists [].
      - apply bind_Ret_inv in Hr as ([] & w4 & Hv & Hr).
        apply optional_print_script in Hv.
        apply bind_Ret_inv in Hr as (res' & w5 & Hr & Hret).
        apply ret_inv in Hret as [_ ->].
        apply fetch_retry_consumes in Hr as (c2 & Hc2).
        exists c2. now rewrite <- Hv. }
    destruct Hs2 as (c2 & Hs2).
    assert (Ht : script w1 = script w3
                 /\ incl unresolved1
                      (unresolved ++ filter (fun n => negb (mem n rtb)) nf_names)).
    { destruct (filter (fun n => negb (mem n rtb)) nf_names) as [|m ms].
      - apply bind_Ret_inv in H as ([] & w4 & Hv & H).
        apply optional_print_script in Hv.
        apply ret_inv in H as [H <-]. inversion H; subst.
        split; [assumption|]. apply incl_appl, incl_refl.
      - apply bind_Ret_inv in H as ([] & w4 & Hv & H).
        assert (Hv' : script w4 = script w3).
        { destruct (filter (fun n => negb (mem n unresolved)) (m :: ms));
            now apply print_err_script in Hv. }
        apply ret_inv in H as [H <-].
        apply pair_equal_spec in H as [_ <-].
        split; [assumption|].
        intros n Hn. apply set_update_In in Hn. apply in_app_iff. exact Hn. }
    destruct Ht as [Hs3 Hincl].
    exists (c1 ++ c2). split.
    + now rewrite Hs1, Hs2, Hs3, app_assoc.
    + intros n Hn. apply Hincl, in_app_iff in Hn.
      rewrite reported_app, !in_app_iff.
      destruct Hn as [Hn|Hn]; [auto|].
      apply filter_In in Hn. destruct Hn as [Hn _]. right. left.
      apply Hnf. exact Hn.
Qed.

Lemma fetch_all_loop_unresolved verbose batches :
  forall batch_idx results unresolved w results1 unresolved1 w1,
    fetch_all_loop verbose batch_idx batches (results, unresolved) w
    = (Ret (results1, unresolved1), w1) ->
    exists consumed,
      script w = consumed ++ script w1
      /\ incl unresolved1 (unresolved ++ reported consumed).
Proof.
  induction batches as [|batch batches IH];
    intros batch_idx results unresolved w results1 unresolved1 w1 H;
    cbn [fetch_all_loop] in H.
  - apply ret_inv in H as [H ->]. inversion H; subst.
    exists []. split; [reflexivity|]. apply incl_appl, incl_refl.
  - apply bind_Ret_inv in H as ([res un] & w2 & Hb & H).
    apply fetch_all_batch_unresolved in Hb as (c1 & Hs1 & Hi1).
    apply IH in H as (c2 & Hs2 & Hi2).
    exists (c1 ++ c2). split; [now rewrite Hs1, Hs2, app_assoc|].
    intros n Hn. apply Hi2, in_app_iff in Hn.
    rewrite reported_app, !in_app_iff.
    destruct Hn as [Hn|Hn]; [|auto].
    apply Hi1, in_app_iff in Hn. tauto.
Qed.

(** Every name [fetch_all] returns as unresolved was reported as not
    found by some response of the script. *)
Lemma fetch_all_unresolved names_ verbose w cards_ unresolved_ w1 :
  fetch_all names_ verbose w = (Ret (cards_, unresolved_), w1) ->
  incl unresolved_ (reported (script w)).
Proof.
  intros H. unfold fetch_all in H.
  apply bind_Ret_inv in H as ([res un] & w2 & Hl & H).
  apply fetch_all_loop_unresolved in Hl as (consumed & Hs & Hi).
  apply bind_Ret_inv in H as ([] & w3 & _ & H).
  apply ret_inv in H as [H _]. inversion H; subst.
  intros n Hn. apply sorted_lower_In, Hi in Hn. cbn in Hn.
  rewrite Hs, reported_app. apply in_app_iff. auto.
Qed.

(** C1 (as amended).  When [main] completes, every input name is either
    in [mapped_names] or in [ordering_unresolved], never in both and
    never in neither, and [ordering_unresolved] holds input names only.
    The reported list [combined_unresolved] is the duplicate-free union
    of the unresolved names of [fetch_all] and [ordering_unresolved], so
    every input name is mapped or reported; every unresolved name of
    [fetch_all] is a name some response reported as not found.  In input
    order the mapped names are input names, and if the provider reports
    only input names as not found, the mapped and the reported names
    together are exactly the input names.  (A name can be both mapped
    and reported.) *)
Theorem input_names_classified :
  forall (names_ : list string) (out : bool) (sort : sort_mode)
         (verbose : bool) (w w' : world) (loc : main_locals),
    main_resolve names_ out sort verbose w = (Ret loc, w') ->
    (forall n, In n names_ ->
               (In n (mapped_names loc) <-> ~ In n (ordering_unresolved loc)))
    /\ incl (ordering_unresolved loc) names_
    /\ NoDup (combined_unresolved loc)
    /\ (forall n, In n (combined_unresolved loc)
                  <-> In n (unresolved_names loc)
                      \/ In n (ordering_unresolved loc))
    /\ (forall n, In n names_ ->
                  In n (mapped_names loc) \/ In n (combined_unresolved loc))
    /\ incl (unresolved_names loc) (reported (script w))
    /\ (sort = SortInput -> incl (mapped_names loc) names_)
    /\ (sort = SortInput ->
        incl (reported (script w)) names_ ->
        forall n, In n names_
                  <-> In n (mapped_names loc) \/ In n (combined_unresolved loc)).
Proof.
  intros names_ out sort verbose w w' loc H.
  apply main_resolve_inv in H
    as (w1 & w2 & Hfetch & Hscript & _ & Hmapped & Hord & Hcomb).
  assert (H1 : forall n, In n names_ ->
                         (In n (mapped_names loc)
                          <-> ~ In n (ordering_unresolved loc))).
  { intros n Hn. rewrite Hord, filter_In, negb_true_iff, mem_false.
    destruct (mem n (mapped_names loc)) eqn:E.
    - apply mem_In in E. tauto.
    - apply mem_false in E. tauto. }
  assert (H2 : incl (ordering_unresolved loc) names_).
  { intros n Hn. rewrite Hord in Hn. now apply filter_In in Hn. }
  destruct (combine_unresolved_spec
              (unresolved_names loc ++ ordering_unresolved loc)) as [H3 H4].
  rewrite <- Hcomb in H3, H4.
  assert (H4' : forall n, In n (combined_unresolved loc)
                          <-> In n (unresolved_names loc)
                              \/ In n (ordering_unresolved loc)).
  { intros n. rewrite H4. apply in_app_iff. }
  assert (H5 : forall n, In n names_ ->
                         In n (mapped_names loc)
                         \/ In n (combined_unresolved loc)).
  { intros n Hn. destruct (mem n (mapped_names loc)) eqn:E.
    - apply mem_In in E. auto.
    - right. apply H4'. right. rewrite Hord, filter_In, E. auto. }
  assert (H6 : incl (unresolved_names loc) (reported (script w))).
  { rewrite <- Hscript. eapply fetch_all_unresolved. exact Hfetch. }
  assert (H7 : sort = SortInput -> incl (mapped_names loc) names_).
  { intros -> n Hn. rewrite Hmapped in Hn.
    pose proof (reassemble_consistent (lower_map_of (cards loc)) names_) as Hc.
    now apply (mapped_are_resolved _ _ _ Hc) in Hn. }
  repeat (split; [assumption|]).
  intros Hs Hecho n. split; [apply H5|].
  intros [Hn|Hn]; [now apply H7|].
  apply H4' in Hn. destruct Hn as [Hn|Hn]; [|now apply H2].
  apply Hecho, H6, Hn.
Qed.

Lemma fire_nice_run :
  main_resolve [fire_nice] true SortInput false (mkWorld fire_nice_script [])
  = (Ret fire_nice_locals,
     snd (main_resolve [fire_nice] true SortInput false
            (mkWorld fire_nice_script []))).
Proof. vm_compute. reflexivity. Defined.

Lemma input_names_classified_witness :
  (In fire_nice (mapped_names fire_nice_locals)
   <-> ~ In fire_nice (ordering_unresolved fire_nice_locals))
  /\ (In fire_nice (mapped_names fire_nice_locals)
      \/ In fire_nice (combined_unresolved fire_nice_locals))
  /\ incl (mapped_names fire_nice_locals) [fire_nice]
  /\ (forall n, In n [fire_nice]
                <-> In n (mapped_names fire_nice_locals)
                    \/ In n (combined_unresolved fire_nice_locals)).
Proof.
  destruct (input_names_classified [fire_nice] true SortInput false
              (mkWorld fire_nice_script []) _ fire_nice_locals fire_nice_run)
    as (H1 & _ & _ & _ & H5 & _ & H7 & H8).
  split; [apply H1; cbn; auto|].
  split; [apply H5; cbn; auto|].
  split; [apply H7; reflexivity|].
  apply H8.
  - reflexivity.
  - intros n [<-|[]]. now left.
Defined.

(** C1, as stated, fails: the name is written to the output through the
    front-face match of the reassembly, and is reported as missing as
    well. *)
Lemma mapped_and_reported_unresolved :
  fst (main_resolve [fire_nice] true SortInput false (mkWorld fire_nice_script []))
  = Ret fire_nice_locals
  /\ In fire_nice (mapped_names fire_nice_locals)
  /\ In fire_nice (combined_unresolved fire_nice_locals)
  /\ ordered_cards fire_nice_locals = [fire_ice].
Proof.
  split; [reflexivity|]. cbn. auto.
Qed.

(** ** [stream_cards] always ends *)

Section StreamTotal.
Variables query unique : string.

(** An attempt never runs out of fuel, and one that hands control back
    has used up one response. *)
Lemma page_attempt_consumes url attempt w o w' :
  page_attempt query unique url attempt w = (o, w') ->
  o <> OutOfFuel
  /\ forall c, o = Ret c -> exists r, script w = r :: script w'.
Proof.
  destruct w as [s tr].
  unfold page_attempt, try_except, bind, send, retry_after_header,
    resp_json, raise_for_status, print_err, sleep, emit, ret, raise.
  cbn [script trace].
  destruct (url =? API_SEARCH)%string;
    (destruct s as [|[|st ra js] rest]; cbn;
     [intros H; inversion H; subst; split; [discriminate|discriminate]
     |destruct (attempt =? 4); cbn; intros H; inversion H; subst;
      (split; [discriminate|]); intros c Hc; inversion Hc; subst; eauto
     |]);
    (destruct (st =? 429)%Z;
     [destruct (py_int match ra with Some s => s | None => "1" end); cbn;
      case_sleep; cbn;
      intros H; inversion H; subst; (split; [discriminate|]);
      intros c Hc; inversion Hc; subst; eauto
     |destruct (st >=? 400)%Z;
      [destruct (truthy_opt
                   match js with
                   | Some b => if truthy_opt (details b) then details b
                               else warning b
                   | None => None
                   end);
       cbn; destruct ((400 <=? st)%Z && (st <? 600)%Z)|];
      cbn; destruct js as [b|]; cbn;
      try (destruct (attempt =? 4); cbn);
      intros H; inversion H; subst; (split; [discriminate|]);
      intros c Hc; inversion Hc; subst; eauto]).
Qed.

Lemma page_for_consumes attempts :
  forall url page w o w',
    page_for query unique attempts url page w = (o, w') ->
    o <> OutOfFuel
    /\ (forall p, o = Ret p ->
                  List.length (script w') + Nat.min 1 (List.length attempts)
                  <= List.length (script w)).
Proof.
  induction attempts as [|a attempts IH]; intros url page w o w' H;
    cbn [page_for] in H.
  - unfold ret in H. inversion H; subst. split; [discriminate|].
    intros p _. cbn. lia.
  - unfold bind in H.
    destruct (page_attempt query unique url a w) as [o1 w1] eqn:Ea.
    apply page_attempt_consumes in Ea as [Hne Hcons].
    destruct o1 as [c| | | |]; try (inversion H; subst; split;
                                    [discriminate|intros p Hp; discriminate]).
    + destruct (Hcons c eq_refl) as (r & Hs).
      destruct c as [|p0].
      * apply IH in H as [Ho Hlen]. split; [assumption|].
        intros p Hp. specialize (Hlen p Hp). rewrite Hs. cbn. lia.
      * unfold ret in H. inversion H; subst. split; [discriminate|].
        intros p _. rewrite Hs. cbn. lia.
    + now elim Hne.
Qed.

Lemma stream_loop_total fuel :
  forall url page w,
    List.length (script w) < fuel ->
    fst (stream_loop query unique fuel url page w) <> OutOfFuel.
Proof.
  induction fuel as [|fuel IH]; intros url page w Hfuel; [lia|].
  cbn [stream_loop].
  destruct url as [u|]; [|discriminate].
  destruct (truthy u); [|discriminate].
  unfold bind at 1.
  destruct (page_for query unique (py_range 0 5 1) u page w) as [o w1] eqn:Ep.
  apply page_for_consumes in Ep as [Hne Hlen].
  destruct o as [[p|]| | | |]; cbn; try discriminate; [|now elim Hne].
  specialize (Hlen (Some p) eq_refl). cbn in Hlen.
  unfold bind at 1. rewrite yield_all_trace.
  apply IH. cbn [script]. lia.
Qed.

(** The bound on the [while] loop is never what ends a run. *)
Lemma stream_cards_total w :
  fst (stream_cards query unique w) <> OutOfFuel.
Proof. unfold stream_cards. apply stream_loop_total. lia. Qed.
End StreamTotal.

(** * Further properties *)

(** ** [fetch_batch] on any script *)

(** Closes a goal on the pauses of an explicit list of events. *)
Ltac pauses_ok :=
  repeat (apply Forall_cons; [cbn; try lia; try (split; [reflexivity|lia])|]);
  apply Forall_nil.

Section FetchBatchAny.
Variables (names_ : list string) (retries : nat) (backoff_base : Q).

(** One attempt, whatever the next response is. *)
Lemma fetch_batch_attempt_any attempt w o w' :
  attempt <= retries ->
  fetch_batch_attempt names_ retries backoff_base attempt w = (o, w') ->
  exists evs,
    trace w' = trace w ++ evs
    /\ requests_of evs = [Post API_COLLECTION names_]
    /\ Forall (pause_ok backoff_base retries) (pauses_of evs)
    /\ match o with
       | Ret Next =>
           exists r, script w = r :: script w'
                     /\ (rate_limited r = true
                         \/ (fails r = true /\ attempt <> retries))
       | Ret (Done b) =>
           exists r, script w = r :: script w' /\ answers r b
       | Exit c =>
           c = 3%Z /\ attempt = retries
           /\ exists r, script w = r :: script w' /\ fails r = true
       | Raise e =>
           exists r,
             script w = r :: script w'
             /\ ((e = ValueError
                  /\ exists st ra js, r = Http st ra js
                                      /\ st = 429%Z /\ parses ra = false)
                 \/ refuses r e)
       | Stalled => script w = [] /\ script w' = []
       | OutOfFuel => False
       end.
Proof.
  intros Hle. destruct w as [s tr].
  unfold fetch_batch_attempt, try_except, bind, send, retry_after_header,
    resp_json, raise_for_status, print_err, sleep, emit, ret, raise, sys_exit.
  cbn [script trace].
  destruct s as [|[|st ra js] rest]; cbn.
  - intros H; inversion H; subst. eexists. repeat split; constructor.
  - destruct (attempt =? retries) eqn:Ea; cbn; intros H; inversion H; subst;
      rewrite <- ?app_assoc; eexists;
      (split; [reflexivity|]); (split; [reflexivity|]); cbn.
    + split; [constructor|]. apply Nat.eqb_eq in Ea. eauto 6.
    + apply Nat.eqb_neq in Ea.
      split; [pauses_ok|]. eauto 6.
  - assert (Hrt : retry_after_text ra
                  = match ra with Some s => s | None => "1" end) by reflexivity.
    destruct (st =? 429)%Z eqn:Hst.
    + apply Z.eqb_eq in Hst. subst st. rewrite <- Hrt.
      assert (Hp : parses ra
                   = match py_int (retry_after_text ra) with
                     | Some _ => true
                     | None => false
                     end) by reflexivity.
      destruct (py_int (retry_after_text ra)) as [n|] eqn:Hn; cbn;
        [destruct (sleep_error (Z.max 1 n)) as [x|] eqn:Hx;
         unfold sleep_error in Hx; case_sleep; try discriminate;
         cbn|];
        intros H; inversion H; subst; rewrite <- ?app_assoc; eexists;
        (split; [reflexivity|]); (split; [reflexivity|]);
        (split; [cbn [pauses_of flat_map app];
                 first [apply Forall_nil | pauses_ok]|]);
        (eexists; split; [reflexivity|]).
      * right. exists ra, js, n. repeat split; auto.
        unfold sleep_error. now rewrite Heqb.
      * right. exists ra, js, n. repeat split; auto.
        unfold sleep_error. now rewrite Heqb, Heqb0.
      * left. cbn. unfold pauses, sleeps. rewrite Hn.
        apply Z.ltb_lt. apply Z.leb_gt in Heqb0. exact Heqb0.
      * left. split; [reflexivity|].
        exists 429%Z, ra, js. now repeat split.
    + assert (Hne : st <> 429%Z) by now apply Z.eqb_neq.
      rewrite Z.geb_leb.
      destruct (400 <=? st)%Z eqn:H4; cbn [andb].
      * destruct (st <? 600)%Z eqn:H6.
        -- (* an error status: [raise_for_status] raises *)
           assert (Hf : fails (Http st ra js) = true)
             by (unfold fails; now rewrite Hst, H4, H6).
           destruct (truthy_opt match js with Some b => details b | None => None end);
             cbn; destruct (attempt =? retries) eqn:Ea; cbn;
             intros H; inversion H; subst; rewrite <- ?app_assoc; eexists;
             (split; [reflexivity|]); (split; [reflexivity|]);
             (split; [try (apply Nat.eqb_neq in Ea); pauses_ok|]);
             first [ apply Nat.eqb_eq in Ea; eauto 8
                   | apply Nat.eqb_neq in Ea; eauto 8 ].
        -- (* a status of 600 or more *)
           assert (Hnot : ~ (400 <= st < 600)%Z)
             by (apply Z.ltb_ge in H6; lia).
           assert (Hf : js = None -> fails (Http st ra js) = true)
             by (intros ->; unfold fails; now rewrite Hst, H4, H6).
           destruct (truthy_opt match js with Some b => details b | None => None end);
             cbn; destruct js as [b|]; cbn;
             try (destruct (attempt =? retries) eqn:Ea; cbn);
             intros H; inversion H; subst; rewrite <- ?app_assoc; eexists;
             (split; [reflexivity|]); (split; [reflexivity|]);
             (split; [try (apply Nat.eqb_neq in Ea); pauses_ok|]);
             first [ eexists; split; [reflexivity|]; exists st, ra; now repeat split
                   | apply Nat.eqb_eq in Ea; eauto 8
                   | apply Nat.eqb_neq in Ea; eauto 8 ].
      * (* a status below 400 *)
        assert (Hnot : ~ (400 <= st < 600)%Z)
          by (apply Z.leb_gt in H4; lia).
        assert (Hf : js = None -> fails (Http st ra js) = true)
          by (intros ->; unfold fails; now rewrite Hst, H4).
        cbn; destruct js as [b|]; cbn;
          try (destruct (attempt =? retries) eqn:Ea; cbn);
          intros H; inversion H; subst; rewrite <- ?app_assoc; eexists;
          (split; [reflexivity|]); (split; [reflexivity|]);
          (split; [try (apply Nat.eqb_neq in Ea); pauses_ok|]);
          first [ eexists; split; [reflexivity|]; exists st, ra; now repeat split
                | apply Nat.eqb_eq in Ea; eauto 8
                | apply Nat.eqb_neq in Ea; eauto 8 ].
Qed.

(** The attempts [i], [i + 1], ..., [retries]: the trace grows by one
    identical request per response used up, the pauses are as
    [fetch_batch] computes them, and the way the loop ends is told by the
    responses it used up. *)
Lemma fetch_batch_for_any n :
  forall i w o w',
    i + n = retries + 1 ->
    fetch_batch_for names_ retries backoff_base (seq i n) w = (o, w') ->
    exists evs consumed,
      trace w' = trace w ++ evs
      /\ script w = consumed ++ script w'
      /\ requests_of evs
         = repeat (Post API_COLLECTION names_) (requests_made o consumed)
      /\ requests_made o consumed <= n
      /\ Forall (pause_ok backoff_base retries) (pauses_of evs)
      /\ match o with
         | Ret b =>
             exists pre r, consumed = pre ++ [r]
                           /\ Forall passes pre /\ answers r b
         | Exit c =>
             c = 3%Z /\ List.length consumed = n
             /\ exists pre r, consumed = pre ++ [r]
                              /\ Forall passes pre /\ fails r = true
         | Raise e =>
             (exists pre r,
                 consumed = pre ++ [r]
                 /\ Forall passes pre
                 /\ ((e = ValueError
                      /\ exists st ra js, r = Http st ra js
                                          /\ st = 429%Z /\ parses ra = false)
                     \/ refuses r e))
             \/ (e = RuntimeError "Unreachable"
                 /\ List.length consumed = n /\ Forall passes consumed)
         | Stalled => script w' = [] /\ Forall passes consumed
         | OutOfFuel => False
         end.
Proof.
  induction n as [|n IH]; intros i w o w' Hi H; cbn [seq fetch_batch_for] in H.
  - unfold raise in H. inversion H; subst.
    exists [], []. rewrite app_nil_r. cbn. repeat split; auto.
  - unfold bind in H.
    destruct (fetch_batch_attempt names_ retries backoff_base i w)
      as [o1 w1] eqn:Ea.
    apply fetch_batch_attempt_any in Ea as (evs1 & Ht1 & Hr1 & Hp1 & Ho1);
      [|lia].
    destruct o1 as [[|b]| c | e | |].
    + (* on to the next attempt *)
      destruct Ho1 as (r & Hs1 & Hpass).
      assert (Hr : passes r) by (unfold passes; tauto).
      apply IH in H as (evs2 & consumed2 & Ht2 & Hs2 & Hr2 & Hn2 & Hp2 & Ho2);
        [|lia].
      exists (evs1 ++ evs2), (r :: consumed2).
      split; [now rewrite Ht2, Ht1, app_assoc|].
      split; [now rewrite Hs1, Hs2|].
      split; [rewrite requests_of_app, Hr1, Hr2; now destruct o|].
      split; [destruct o; cbn in *; lia|].
      split; [rewrite pauses_of_app; now apply Forall_app|].
      destruct o as [b| c | e | |].
      * destruct Ho2 as (pre & r' & -> & Hpre & Ha).
        exists (r :: pre), r'. repeat split; auto.
      * destruct Ho2 as (-> & Hlen & pre & r' & -> & Hpre & Hf).
        split; [reflexivity|]. split; [cbn; now rewrite Hlen|].
        exists (r :: pre), r'. repeat split; auto.
      * destruct Ho2 as [(pre & r' & -> & Hpre & Hcase)
                        |(-> & Hlen & Hall)].
        -- left. exists (r :: pre), r'. repeat split; auto.
        -- right. repeat split; [cbn; now rewrite Hlen | now constructor].
      * destruct Ho2 as [Hend Hall]. split; [assumption | now constructor].
      * destruct Ho2.
    + (* a body is returned *)
      destruct Ho1 as (r & Hs1 & Ha).
      unfold ret in H. inversion H; subst.
      exists evs1, [r]. cbn [requests_made List.length repeat].
      repeat split; auto; try lia.
      exists [], r. repeat split; auto.
    + destruct Ho1 as (-> & Hlast & r & Hs1 & Hf).
      inversion H; subst.
      exists evs1, [r]. cbn [requests_made List.length repeat].
      repeat split; auto; try lia.
      exists [], r. repeat split; auto.
    + destruct Ho1 as (r & Hs1 & Hcase).
      inversion H; subst.
      exists evs1, [r]. cbn [requests_made List.length repeat].
      repeat split; auto; try lia.
      left. exists [], r. repeat split; auto.
    + destruct Ho1 as [Hs1 Hs1'].
      inversion H; subst.
      exists evs1, []. cbn [requests_made List.length repeat].
      rewrite Hs1, Hs1'. repeat split; auto; try lia.
    + destruct Ho1.
Qed.
End FetchBatchAny.

(** ** Invariants of a run, by the structure of the program *)

Section Invariants.
Context {A B : Type}.
Variable Q : event -> Prop.
Variable P : ending -> Prop.

Lemma all_events_ret (a : A) : all_events Q (ret a).
Proof. intros w. exists []. now rewrite app_nil_r. Qed.

Lemma all_events_raise (e : exn) : all_events Q (@raise A e).
Proof. intros w. exists []. now rewrite app_nil_r. Qed.

Lemma all_events_sys_exit (c : Z) : all_events Q (@sys_exit A c).
Proof. intros w. exists []. now rewrite app_nil_r. Qed.

Lemma all_events_bind (m : M A) (k : A -> M B) :
  all_events Q m -> (forall a, all_events Q (k a)) -> all_events Q (bind m k).
Proof.
  intros Hm Hk w. unfold bind.
  destruct (Hm w) as (evs1 & Ht1 & Hq1).
  destruct (m w) as [[a| | | |] w1]; cbn [snd] in *; eauto.
  destruct (Hk a w1) as (evs2 & Ht2 & Hq2).
  exists (evs1 ++ evs2). split.
  - now rewrite Ht2, Ht1, app_assoc.
  - now apply Forall_app.
Qed.

Lemma all_events_try (m : M A) (h : exn -> M A) :
  all_events Q m -> (forall e, all_events Q (h e)) ->
  all_events Q (try_except m h).
Proof.
  intros Hm Hh w. unfold try_except.
  destruct (Hm w) as (evs1 & Ht1 & Hq1).
  destruct (m w) as [[a| |e| |] w1]; cbn [snd] in *; eauto.
  destruct (is_RequestException e); cbn [snd]; eauto.
  destruct (Hh e w1) as (evs2 & Ht2 & Hq2).
  exists (evs1 ++ evs2). split.
  - now rewrite Ht2, Ht1, app_assoc.
  - now apply Forall_app.
Qed.

Lemma all_endings_ret (a : A) : P Returned -> all_endings P (ret a).
Proof. intros H w. exact H. Qed.

Lemma all_endings_raise (e : exn) : P (Raised e) -> all_endings P (@raise A e).
Proof. intros H w. exact H. Qed.

Lemma all_endings_sys_exit (c : Z) :
  P (Exited c) -> all_endings P (@sys_exit A c).
Proof. intros H w. exact H. Qed.

Lemma all_endings_bind (m : M A) (k : A -> M B) :
  all_endings P m -> (forall a, all_endings P (k a)) ->
  all_endings P (bind m k).
Proof.
  intros Hm Hk w. unfold bind. specialize (Hm w).
  destruct (m w) as [[a| | | |] w1]; cbn [fst] in *; auto.
  apply Hk.
Qed.

Lemma all_endings_try (m : M A) (h : exn -> M A) :
  all_endings (or_caught P) m -> (forall e, all_endings P (h e)) ->
  all_endings P (try_except m h).
Proof.
  intros Hm Hh w. unfold try_except. specialize (Hm w).
  destruct (m w) as [[a| |e| |] w1]; cbn [fst ending_of] in *;
    try (destruct Hm as [Hm|(x & Hx & _)]; [exact Hm|discriminate]).
  destruct (is_RequestException e) eqn:Ee.
  - apply Hh.
  - destruct Hm as [Hm|(x & Hx & Hc)]; [exact Hm|].
    inversion Hx; subst. congruence.
Qed.

Lemma consumes_ret (a : A) : consumes (ret a).
Proof. intros w. now exists []. Qed.

Lemma consumes_raise (e : exn) : consumes (@raise A e).
Proof. intros w. now exists []. Qed.

Lemma consumes_sys_exit (c : Z) : consumes (@sys_exit A c).
Proof. intros w. now exists []. Qed.

Lemma consumes_bind (m : M A) (k : A -> M B) :
  consumes m -> (forall a, consumes (k a)) -> consumes (bind m k).
Proof.
  intros Hm Hk w. unfold bind. destruct (Hm w) as (c1 & Hs1).
  destruct (m w) as [[a| | | |] w1]; cbn [snd] in *; eauto.
  destruct (Hk a w1) as (c2 & Hs2).
  exists (c1 ++ c2). now rewrite Hs1, Hs2, app_assoc.
Qed.

Lemma consumes_try (m : M A) (h : exn -> M A) :
  consumes m -> (forall e, consumes (h e)) -> consumes (try_except m h).
Proof.
  intros Hm Hh w. unfold try_except. destruct (Hm w) as (c1 & Hs1).
  destruct (m w) as [[a| |e| |] w1]; cbn [snd] in *; eauto.
  destruct (is_RequestException e); cbn [snd]; eauto.
  destruct (Hh e w1) as (c2 & Hs2).
  exists (c1 ++ c2). now rewrite Hs1, Hs2, app_assoc.
Qed.
End Invariants.

Lemma all_events_emit (Q : event -> Prop) (e : event) :
  Q e -> all_events Q (emit e).
Proof. intros H w. exists [e]. split; [reflexivity|]. now constructor. Qed.

Lemma all_events_send (Q : event -> Prop) (r : request) :
  Q (Sent r) -> all_events Q (send r).
Proof.
  intros H w. exists [Sent r]. split; [|now constructor].
  unfold send. destruct (script w) as [|[|st ra js] rest]; reflexivity.
Qed.

Lemma all_endings_emit (P : ending -> Prop) (e : event) :
  P Returned -> all_endings P (emit e).
Proof. intros H w. exact H. Qed.

Lemma all_endings_send (P : ending -> Prop) (r : request) :
  P Returned -> P Waiting -> P (Raised RequestException) ->
  all_endings P (send r).
Proof.
  intros H1 H2 H3 w. unfold send.
  destruct (script w) as [|[|st ra js] rest]; assumption.
Qed.

Lemma consumes_emit (e : event) : consumes (emit e).
Proof. intros w. now exists []. Qed.

Lemma consumes_send (r : request) : consumes (send r).
Proof.
  intros w. unfold send.
  destruct (script w) as [|[|st ra js] rest] eqn:E; cbn [snd script].
  - now exists [].
  - now exists [ConnFail].
  - now exists [Http st ra js].
Qed.

Lemma all_events_weaken {A : Type} (Q Q' : event -> Prop) (m : M A) :
  (forall e, Q e -> Q' e) -> all_events Q m -> all_events Q' m.
Proof.
  intros Hq Hm w. destruct (Hm w) as (evs & Ht & Hall).
  exists evs. split; [assumption|]. eapply Forall_impl; eauto.
Qed.

Lemma all_endings_weaken {A : Type} (P P' : ending -> Prop) (m : M A) :
  (forall e, P e -> P' e) -> all_endings P m -> all_endings P' m.
Proof. intros Hp Hm w. apply Hp, Hm. Qed.

(** Takes a goal on a computation apart along its structure. *)
Ltac by_structure :=
  unfold retry_after_header, resp_json, raise_for_status, print_err, sleep;
  cbv beta iota;
  repeat first
    [ apply all_events_ret | apply all_events_raise | apply all_events_sys_exit
    | apply all_events_emit | apply all_events_send
    | apply all_events_bind | apply all_events_try
    | apply all_endings_ret | apply all_endings_raise
    | apply all_endings_sys_exit | apply all_endings_emit
    | apply all_endings_send
    | apply all_endings_bind | apply all_endings_try
    | apply consumes_ret | apply consumes_raise | apply consumes_sys_exit
    | apply consumes_emit | apply consumes_send
    | apply consumes_bind | apply consumes_try
    | progress intros
    | match goal with
      | |- all_events _ (match ?x with _ => _ end) => destruct x eqn:?
      | |- all_endings _ (match ?x with _ => _ end) => destruct x eqn:?
      | |- consumes (match ?x with _ => _ end) => destruct x eqn:?
      end ].

(** ** The events, endings and script use of [fetch_batch] *)

Section FetchBatchInvariants.
Variables (names_ : list string) (retries : nat) (backoff_base : Q).
Variable Q : event -> Prop.
Hypothesis Q_sent : Q (Sent (Post API_COLLECTION names_)).
Hypothesis Q_retry_after : forall secs, (1 <= secs)%Z -> Q (Slept (RetryAfter secs)).
Hypothesis Q_backoff :
  forall attempt, attempt < retries -> Q (Slept (Backoff backoff_base attempt)).
Hypothesis Q_stderr : forall m, Q (Stderr m).

Lemma fetch_batch_attempt_events attempt :
  attempt <= retries ->
  all_events Q (fetch_batch_attempt names_ retries backoff_base attempt).
Proof.
  intros Hle. unfold fetch_batch_attempt. by_structure; auto.
  - apply Q_retry_after. lia.
  - apply Q_backoff.
    match goal with H : (_ =? _) = false |- _ => apply Nat.eqb_neq in H end.
    lia.
Qed.

Lemma fetch_batch_for_events n :
  forall i, i + n = retries + 1 ->
            all_events Q (fetch_batch_for names_ retries backoff_base (seq i n)).
Proof.
  induction n as [|n IH]; intros i Hi; cbn [seq fetch_batch_for].
  - apply all_events_raise.
  - apply all_events_bind; [apply fetch_batch_attempt_events; lia|].
    intros [|b]; [apply IH; lia | apply all_events_ret].
Qed.



Lemma fetch_batch_attempt_script attempt :
  consumes (fetch_batch_attempt names_ retries backoff_base attempt).
Proof. unfold fetch_batch_attempt. by_structure. Qed.

Lemma fetch_batch_for_script attempts :
  consumes (fetch_batch_for names_ retries backoff_base attempts).
Proof.
  induction attempts as [|a attempts IH]; cbn [fetch_batch_for].
  - apply consumes_raise.
  - apply consumes_bind; [apply fetch_batch_attempt_script|].
    intros [|b]; [exact IH | apply consumes_ret].
Qed.
End FetchBatchInvariants.

(** ** The events, endings and script use of [fetch_all] and [main] *)

Lemma fetch_batch_events (names_ : list string) :
  1 <= List.length names_ <= BATCH_LIMIT ->
  all_events fetch_event (fetch_batch names_).
Proof.
  intros Hlen. unfold fetch_batch, fetch_batch_with.
  change (py_range 0 (4 + 1) 1) with (seq 0 5).
  apply (fetch_batch_for_events names_ 4 (3 # 2) fetch_event); cbn; auto.
  exists names_. auto.
Qed.


Lemma fetch_batch_script (names_ : list string) : consumes (fetch_batch names_).
Proof. apply fetch_batch_for_script. Qed.

Lemma chunked_batch_limit (names_ : list string) :
  Forall (fun c => 1 <= List.length c <= BATCH_LIMIT) (chunked names_ BATCH_LIMIT).
Proof. apply chunked_partition. unfold BATCH_LIMIT. lia. Qed.

Section FetchAllInvariants.
Variable verbose : bool.

Lemma fetch_retry_events subs :
  Forall (fun c => 1 <= List.length c <= BATCH_LIMIT) subs ->
  forall results, all_events fetch_event (fetch_retry subs results).
Proof.
  induction 1 as [|sub subs Hsub Hsubs IH]; intros results; cbn [fetch_retry].
  - apply all_events_ret.
  - apply all_events_bind; [now apply fetch_batch_events|]. intros b. apply IH.
Qed.


Lemma fetch_retry_script subs :
  forall results, consumes (fetch_retry subs results).
Proof.
  induction subs as [|sub subs IH]; intros results; cbn [fetch_retry].
  - apply consumes_ret.
  - apply consumes_bind; [apply fetch_batch_script|]. intros b. apply IH.
Qed.

Lemma fetch_all_batch_events batch_idx batch st :
  1 <= List.length batch <= BATCH_LIMIT ->
  all_events fetch_event (fetch_all_batch verbose batch_idx batch st).
Proof.
  intros Hlen. destruct st as [results unresolved]. unfold fetch_all_batch.
  apply all_events_bind; [now apply all_events_emit|]. intros _.
  apply all_events_bind; [now apply fetch_batch_events|]. intros b.
  destruct (not_found b); [apply all_events_ret|].
  apply all_events_bind.
  - destruct (front_faces _); [apply all_events_ret|].
    apply all_events_bind;
      [destruct verbose; [now apply all_events_emit | apply all_events_ret]|].
    intros _. apply all_events_bind; [|intros; apply all_events_ret].
    apply fetch_retry_events, chunked_batch_limit.
  - intros [res rtb]. by_structure; cbn; auto.
Qed.


Lemma fetch_all_batch_script batch_idx batch st :
  consumes (fetch_all_batch verbose batch_idx batch st).
Proof.
  destruct st as [results unresolved]. unfold fetch_all_batch.
  apply consumes_bind; [apply consumes_emit|]. intros _.
  apply consumes_bind; [apply fetch_batch_script|]. intros b.
  destruct (not_found b); [apply consumes_ret|].
  apply consumes_bind.
  - destruct (front_faces _); [apply consumes_ret|].
    apply consumes_bind;
      [destruct verbose; [apply consumes_emit | apply consumes_ret]|].
    intros _. apply consumes_bind; [|intros; apply consumes_ret].
    apply fetch_retry_script.
  - intros [res rtb]. by_structure.
Qed.

Lemma fetch_all_loop_events batches :
  Forall (fun c => 1 <= List.length c <= BATCH_LIMIT) batches ->
  forall batch_idx st,
    all_events fetch_event (fetch_all_loop verbose batch_idx batches st).
Proof.
  induction 1 as [|batch batches Hb Hbs IH]; intros batch_idx st;
    cbn [fetch_all_loop].
  - apply all_events_ret.
  - apply all_events_bind; [now apply fetch_all_batch_events|].
    intros st'. apply IH.
Qed.


Lemma fetch_all_loop_script batches :
  forall batch_idx st, consumes (fetch_all_loop verbose batch_idx batches st).
Proof.
  induction batches as [|batch batches IH]; intros batch_idx st;
    cbn [fetch_all_loop].
  - apply consumes_ret.
  - apply consumes_bind; [apply fetch_all_batch_script|].
    intros st'. apply IH.
Qed.

Lemma fetch_all_events names_ :
  all_events fetch_event (fetch_all names_ verbose).
Proof.
  unfold fetch_all. apply all_events_bind.
  - apply fetch_all_loop_events, chunked_batch_limit.
  - intros [results unresolved]. by_structure; cbn; auto.
Qed.


Lemma fetch_all_script names_ : consumes (fetch_all names_ verbose).
Proof.
  unfold fetch_all. apply consumes_bind.
  - apply fetch_all_loop_script.
  - intros [results unresolved]. by_structure.
Qed.
End FetchAllInvariants.

Lemma fetch_event_main_event (e : event) : fetch_event e -> main_event e.
Proof. destruct e; cbn; auto. Qed.

Lemma main_resolve_events names_ out sort verbose :
  all_events main_event (main_resolve names_ out sort verbose).
Proof.
  unfold main_resolve.
  apply all_events_bind; [now apply all_events_emit|]. intros _.
  apply all_events_bind.
  - eapply all_events_weaken; [apply fetch_event_main_event|].
    apply fetch_all_events.
  - intros [cards_ unresolved_]. by_structure; cbn; auto.
Qed.


Lemma main_resolve_script names_ out sort verbose :
  consumes (main_resolve names_ out sort verbose).
Proof.
  unfold main_resolve.
  apply consumes_bind; [apply consumes_emit|]. intros _.
  apply consumes_bind; [apply fetch_all_script|].
  intros [cards_ unresolved_]. by_structure.
Qed.

(** ** Properties of [fetch_batch] *)

(** X1.  Whatever the provider answers, [fetch_batch] sends one and the
    same request - the names of the batch, to the collection endpoint -
    once per response it uses up, at least once and at most five times;
    it takes the responses from the front of the script in order. *)
Theorem fetch_batch_at_most_five_requests :
  forall (names_ : list string) (w : world),
    exists evs consumed,
      trace (snd (fetch_batch names_ w)) = trace w ++ evs
      /\ script w = consumed ++ script (snd (fetch_batch names_ w))
      /\ requests_of evs
         = repeat (Post API_COLLECTION names_)
             (requests_made (fst (fetch_batch names_ w)) consumed)
      /\ 1 <= requests_made (fst (fetch_batch names_ w)) consumed <= 5.
Proof.
  intros names_ w.
  destruct (fetch_batch names_ w) as [o w'] eqn:E.
  unfold fetch_batch, fetch_batch_with in E.
  change (py_range 0 (4 + 1) 1) with (seq 0 5) in E.
  apply fetch_batch_for_any in E
    as (evs & consumed & Ht & Hs & Hr & Hn & _ & Ho); [|reflexivity].
  exists evs, consumed. cbn [fst snd]. repeat split; auto.
  destruct o as [b| c | e | |]; cbn [requests_made].
  - destruct Ho as (pre & r & -> & _). rewrite length_app. cbn. lia.
  - destruct Ho as (_ & -> & _). lia.
  - destruct Ho as [(pre & r & -> & _)|(_ & -> & _)];
      [rewrite length_app; cbn|]; lia.
  - lia.
  - destruct Ho.
Qed.

Lemma pauses_parses (ra : option string) : pauses ra = true -> parses ra = true.
Proof.
  unfold pauses, parses. destruct (py_int (retry_after_text ra)); auto.
Qed.

Lemma passes_gave_no_body (r : response) : passes r -> gave_no_body r.
Proof.
  unfold passes, gave_no_body, rate_limited, throttled.
  intros [H|H]; [left|now right].
  destruct r as [|st ra js]; [discriminate|].
  apply andb_true_iff in H as [Hst H].
  rewrite Hst. now rewrite (pauses_parses _ H).
Qed.

Lemma Forall_gave_no_body (rs : list response) :
  Forall passes rs -> Forall gave_no_body rs.
Proof. apply Forall_impl, passes_gave_no_body. Qed.

(** X2.  How [fetch_batch] ends is told by the responses it used up.  A
    body it returns is the JSON body of the last one, whose status is
    neither 429 nor from 400 to 599, and all responses before were 429s
    with an integer [Retry-After] or failures.  It exits only with
    status 3, only on the fifth response, a failure.  It raises
    [ValueError] on a 429 whose [Retry-After] is not an integer, the
    [OverflowError] or [OSError] of [time.sleep] on a 429 whose
    [Retry-After] is a number of seconds it refuses, and its own
    [RuntimeError] after five responses, and nothing else; no exception
    of requests leaves it. *)
Theorem fetch_batch_ending_explained :
  forall (names_ : list string) (w : world),
    exists consumed,
      script w = consumed ++ script (snd (fetch_batch names_ w))
      /\ match fst (fetch_batch names_ w) with
         | Ret b =>
             exists pre r, consumed = pre ++ [r]
                           /\ Forall gave_no_body pre /\ answers r b
         | Exit c =>
             c = 3%Z /\ List.length consumed = 5
             /\ exists pre r, consumed = pre ++ [r]
                              /\ Forall gave_no_body pre /\ fails r = true
         | Raise e =>
             (exists pre r,
                 consumed = pre ++ [r]
                 /\ Forall gave_no_body pre
                 /\ ((e = ValueError
                      /\ exists st ra js,
                          r = Http st ra js /\ st = 429%Z
                          /\ parses ra = false)
                     \/ refuses r e))
             \/ (e = RuntimeError "Unreachable"
                 /\ List.length consumed = 5
                 /\ Forall gave_no_body consumed)
         | Stalled =>
             script (snd (fetch_batch names_ w)) = []
             /\ Forall gave_no_body consumed
         | OutOfFuel => False
         end.
Proof.
  intros names_ w.
  destruct (fetch_batch names_ w) as [o w'] eqn:E.
  unfold fetch_batch, fetch_batch_with in E.
  change (py_range 0 (4 + 1) 1) with (seq 0 5) in E.
  apply fetch_batch_for_any in E
    as (evs & consumed & _ & Hs & _ & _ & _ & Ho); [|reflexivity].
  exists consumed. cbn [fst snd]. split; [exact Hs|].
  destruct o as [b| c | e | |]; auto.
  - destruct Ho as (pre & r & -> & Hp & Ha).
    exists pre, r. auto using Forall_gave_no_body.
  - destruct Ho as (-> & Hl & pre & r & -> & Hp & Hf).
    repeat split; auto. exists pre, r. auto using Forall_gave_no_body.
  - destruct Ho as [(pre & r & -> & Hp & Hr)|(-> & Hl & Hp)].
    + left. exists pre, r. auto using Forall_gave_no_body.
    + right. auto using Forall_gave_no_body.
  - destruct Ho as (Hn & Hp). auto using Forall_gave_no_body.
Qed.

(** A response cannot both send the loop on and answer it. *)
Lemma passes_not_answers (r : response) (b : body) :
  passes r -> answers r b -> False.
Proof.
  intros [Hp|Hp] (st & ra & -> & Hne & Herr); cbn in Hp.
  - apply andb_true_iff in Hp as [Hst _]. apply Z.eqb_eq in Hst. contradiction.
  - apply andb_true_iff in Hp as [_ Hp]. apply orb_true_iff in Hp as [Hp|Hp];
      [|discriminate].
    apply andb_true_iff in Hp as [H4 H6].
    apply Z.leb_le in H4. apply Z.ltb_lt in H6. lia.
Qed.

Lemma passes_parses (st : Z) (ra : option string) (js : option body) :
  passes (Http st ra js) -> st = 429%Z -> parses ra = true.
Proof.
  intros [Hp|Hp] ->; cbn in Hp.
  - now apply pauses_parses.
  - discriminate.
Qed.

Lemma sleeps_no_error (secs : Z) : sleeps secs = true -> sleep_error secs = None.
Proof.
  unfold sleeps, sleep_error. intros H. apply Z.ltb_lt in H.
  assert (PAUSE_REFUSED <= PAUSE_MAX)%Z by (vm_compute; discriminate).
  destruct (PAUSE_MAX <? secs)%Z eqn:E1; [apply Z.ltb_lt in E1; lia|].
  destruct (PAUSE_REFUSED <=? secs)%Z eqn:E2; [apply Z.leb_le in E2; lia|].
  reflexivity.
Qed.

Lemma passes_not_refuses (r : response) (e : exn) :
  passes r -> refuses r e -> False.
Proof.
  intros [Hp|Hp] (ra & js & n & -> & Hn & He); cbn in Hp.
  - unfold pauses in Hp. rewrite Hn in Hp.
    rewrite (sleeps_no_error _ Hp) in He. discriminate.
  - discriminate.
Qed.

Section FetchBatchForward.
Variables (names_ : list string) (retries : nat) (backoff_base : Q).

Lemma fetch_batch_attempt_forward attempt r rest tr :
  attempt <= retries ->
  exists evs,
    requests_of evs = [Post API_COLLECTION names_]
    /\ ((rate_limited r = true \/ (fails r = true /\ attempt <> retries) ->
         fetch_batch_attempt names_ retries backoff_base attempt
           (mkWorld (r :: rest) tr)
         = (Ret Next, mkWorld rest (tr ++ evs)))
        /\ (forall b, answers r b ->
                      fetch_batch_attempt names_ retries backoff_base attempt
                        (mkWorld (r :: rest) tr)
                      = (Ret (Done b), mkWorld rest (tr ++ evs)))
        /\ (fails r = true -> attempt = retries ->
            fetch_batch_attempt names_ retries backoff_base attempt
              (mkWorld (r :: rest) tr)
            = (Exit 3%Z, mkWorld rest (tr ++ evs)))).
Proof.
  intros Hle.
  destruct (fetch_batch_attempt names_ retries backoff_base attempt
              (mkWorld (r :: rest) tr)) as [o [s1 t1]] eqn:E.
  pose proof E as E'.
  apply fetch_batch_attempt_any in E' as (evs & Ht & Hr & _ & Ho); [|exact Hle].
  cbn [script trace] in Ht, Ho. subst t1.
  exists evs. split; [exact Hr|].
  assert (Hs : forall r', r :: rest = r' :: s1 -> r' = r /\ s1 = rest)
    by (intros r' H; inversion H; auto).
  split; [|split].
  - intros Hpass.
    assert (Hp : passes r) by (unfold passes; tauto).
    destruct o as [[|b]| c | e | |].
    + destruct Ho as (r' & Hr' & _). apply Hs in Hr' as [_ ->]. reflexivity.
    + destruct Ho as (r' & Hr' & Ha). apply Hs in Hr' as [-> _].
      destruct (passes_not_answers _ _ Hp Ha).
    + destruct Ho as (_ & Hlast & r' & Hr' & Hf). apply Hs in Hr' as [-> _].
      destruct Hpass as [Hrl|[_ Hnl]]; [|contradiction].
      destruct r as [|st ra js]; [discriminate|]. cbn in Hrl, Hf.
      apply andb_true_iff in Hrl as [Hst _]. rewrite Hst in Hf. discriminate.
    + destruct Ho as (r' & Hr' & [(_ & st & ra & js & -> & Hst & Hpa)|Hre]);
        apply Hs in Hr' as [<- _].
      * rewrite (passes_parses _ _ _ Hp Hst) in Hpa. discriminate.
      * destruct (passes_not_refuses _ _ Hp Hre).
    + destruct Ho as [Ho _]. discriminate.
    + destruct Ho.
  - intros b Ha.
    destruct o as [[|b']| c | e | |].
    + destruct Ho as (r' & Hr' & Hpass). apply Hs in Hr' as [-> _].
      assert (Hp : passes r) by (unfold passes; tauto).
      destruct (passes_not_answers _ _ Hp Ha).
    + destruct Ho as (r' & Hr' & Ha'). apply Hs in Hr' as [-> ->].
      destruct Ha as (st & ra & -> & _), Ha' as (st' & ra' & Heq & _).
      inversion Heq; subst. reflexivity.
    + destruct Ho as (_ & _ & r' & Hr' & Hf). apply Hs in Hr' as [-> _].
      assert (Hp : passes r) by (unfold passes; tauto).
      destruct (passes_not_answers _ _ Hp Ha).
    + destruct Ho as (r' & Hr' & [(_ & st & ra & js & -> & Hst & _)|Hre]);
        apply Hs in Hr' as [<- _].
      * destruct Ha as (st' & ra' & Heq & Hne & _). inversion Heq; subst.
        contradiction.
      * destruct Hre as (ra & js & n & -> & _).
        destruct Ha as (st' & ra' & Heq & Hne & _). inversion Heq; subst.
        contradiction.
    + destruct Ho as [Ho _]. discriminate.
    + destruct Ho.
  - intros Hf Hlast.
    assert (Hp : passes r) by (unfold passes; tauto).
    destruct o as [[|b']| c | e | |].
    + destruct Ho as (r' & Hr' & [Hrl|[_ Hnl]]); [|contradiction].
      apply Hs in Hr' as [-> _].
      destruct r as [|st ra js]; [discriminate|]. cbn in Hrl, Hf.
      apply andb_true_iff in Hrl as [Hst _]. rewrite Hst in Hf. discriminate.
    + destruct Ho as (r' & Hr' & Ha). apply Hs in Hr' as [-> _].
      destruct (passes_not_answers _ _ Hp Ha).
    + destruct Ho as (-> & _ & r' & Hr' & _). apply Hs in Hr' as [_ ->].
      reflexivity.
    + destruct Ho as (r' & Hr' & [(_ & st & ra & js & -> & Hst & Hpa)|Hre]);
        apply Hs in Hr' as [<- _].
      * rewrite (passes_parses _ _ _ Hp Hst) in Hpa. discriminate.
      * destruct (passes_not_refuses _ _ Hp Hre).
    + destruct Ho as [Ho _]. discriminate.
    + destruct Ho.
Qed.

(** The attempts [i], ..., [retries] on responses that send the loop on,
    followed by one more response [r]. *)
Lemma fetch_batch_for_forward pre :
  forall i n r rest tr,
    i + n = retries + 1 ->
    Forall passes pre ->
    List.length pre < n ->
    exists evs,
      requests_of evs
      = repeat (Post API_COLLECTION names_) (S (List.length pre))
      /\ (forall b, answers r b ->
                    fetch_batch_for names_ retries backoff_base (seq i n)
                      (mkWorld (pre ++ r :: rest) tr)
                    = (Ret b, mkWorld rest (tr ++ evs)))
      /\ (S (List.length pre) = n -> fails r = true ->
          fetch_batch_for names_ retries backoff_base (seq i n)
            (mkWorld (pre ++ r :: rest) tr)
          = (Exit 3%Z, mkWorld rest (tr ++ evs)))
      /\ (S (List.length pre) = n -> rate_limited r = true ->
          fetch_batch_for names_ retries backoff_base (seq i n)
            (mkWorld (pre ++ r :: rest) tr)
          = (Raise (RuntimeError "Unreachable"), mkWorld rest (tr ++ evs))).
Proof.
  induction pre as [|p pre IH]; intros i n r rest tr Hi Hall Hlen;
    (destruct n as [|n]; [cbn in Hlen; lia|]); cbn [seq fetch_batch_for app].
  - destruct (fetch_batch_attempt_forward i r rest tr) as (evs & Hr & Hn & Ha & He);
      [lia|].
    exists evs. split; [exact Hr|]. split; [|split].
    + intros b Hb. unfold bind. now rewrite (Ha b Hb).
    + intros Hlast Hf. unfold bind. rewrite He; auto. cbn in Hlast. lia.
    + intros Hlast Hrl. unfold bind. rewrite Hn by auto.
      cbn in Hlast. assert (n = 0) as -> by lia. reflexivity.
  - apply Forall_cons_iff in Hall as [Hp Hall]. cbn [List.length] in *.
    destruct (fetch_batch_attempt_forward i p (pre ++ r :: rest) tr)
      as (evs1 & Hr1 & Hn1 & _); [lia|].
    destruct (IH (S i) n r rest (tr ++ evs1)) as (evs2 & Hr2 & Ha2 & He2 & Hu2);
      [lia | assumption | lia |].
    assert (Hgo : fetch_batch_attempt names_ retries backoff_base i
                    (mkWorld (p :: pre ++ r :: rest) tr)
                  = (Ret Next, mkWorld (pre ++ r :: rest) (tr ++ evs1))).
    { apply Hn1. destruct Hp as [Hp|Hp]; [now left|right]. split; [assumption|lia]. }
    exists (evs1 ++ evs2).
    split; [rewrite requests_of_app, Hr1, Hr2; reflexivity|].
    rewrite app_assoc.
    split; [|split].
    + intros b Hb. unfold bind at 1. rewrite Hgo. now apply Ha2.
    + intros Hlast Hf. unfold bind at 1. rewrite Hgo. apply He2; [lia|assumption].
    + intros Hlast Hrl. unfold bind at 1. rewrite Hgo. apply Hu2; [lia|assumption].
Qed.
End FetchBatchForward.

(** X3.  [fetch_batch] returns the first body the provider gives: after
    at most four responses that are 429s or failures, in any mix, a
    response with a JSON body and a status that is neither 429 nor from
    400 to 599 ends the call with that body, one request having been sent
    per response. *)
Theorem fetch_batch_returns_first_answer :
  forall (names_ : list string) (pre : list response) (r : response)
         (b : body) (rest : list response) (tr : list event),
    Forall passes pre ->
    List.length pre <= 4 ->
    answers r b ->
    exists evs,
      fetch_batch names_ (mkWorld (pre ++ r :: rest) tr)
      = (Ret b, mkWorld rest (tr ++ evs))
      /\ requests_of evs
         = repeat (Post API_COLLECTION names_) (S (List.length pre)).
Proof.
  intros names_ pre r b rest tr Hall Hlen Ha.
  destruct (fetch_batch_for_forward names_ 4 (3 # 2) pre 0 5 r rest tr)
    as (evs & Hr & Hret & _); [reflexivity | assumption | lia |].
  exists evs. split; [|exact Hr]. now apply Hret.
Qed.

Lemma fetch_batch_returns_first_answer_witness :
  exists evs,
    fetch_batch ["Island"]
      (mkWorld ([ConnFail; rate_limit; Http 503 None None]
                ++ ok200 (one_card island) :: [ConnFail]) [])
    = (Ret (one_card island), mkWorld [ConnFail] ([] ++ evs))
    /\ requests_of evs
       = repeat (Post API_COLLECTION ["Island"])
           (S (List.length [ConnFail; rate_limit; Http 503 None None])).
Proof.
  apply (fetch_batch_returns_first_answer ["Island"]
           [ConnFail; rate_limit; Http 503 None None]
           (ok200 (one_card island)) (one_card island) [ConnFail] []).
  - repeat (apply Forall_cons; [vm_compute; auto|]). apply Forall_nil.
  - cbn. lia.
  - exists 200%Z, None. repeat split; lia.
Defined.

(** X4.  The fifth response decides when the first four were 429s or
    failures: on a failure [fetch_batch] ends the process with status 3,
    on a 429 - although no failure used up the last attempt - it raises
    its [RuntimeError]; either way five requests have been sent and the
    five responses used up. *)
Theorem fetch_batch_fifth_response_decides :
  forall (names_ : list string) (pre : list response) (r : response)
         (rest : list response) (tr : list event),
    Forall passes pre ->
    List.length pre = 4 ->
    passes r ->
    exists evs,
      fetch_batch names_ (mkWorld (pre ++ r :: rest) tr)
      = (if fails r then Exit 3%Z else Raise (RuntimeError "Unreachable"),
         mkWorld rest (tr ++ evs))
      /\ requests_of evs = repeat (Post API_COLLECTION names_) 5.
Proof.
  intros names_ pre r rest tr Hall Hlen Hp.
  destruct (fetch_batch_for_forward names_ 4 (3 # 2) pre 0 5 r rest tr)
    as (evs & Hr & _ & Hexit & Hraise); [reflexivity | assumption | lia |].
  exists evs. rewrite Hlen in Hr. split; [|exact Hr].
  destruct (fails r) eqn:Hf.
  - apply Hexit; [lia | reflexivity].
  - apply Hraise; [lia|]. destruct Hp as [Hp|Hp]; [assumption | congruence].
Qed.

Lemma fetch_batch_fifth_response_decides_witness :
  exists evs,
    fetch_batch ["Island"]
      (mkWorld ([rate_limit; ConnFail; Http 500 None None; rate_limit]
                ++ rate_limit :: [ok200 (one_card island)]) [])
    = (if fails rate_limit then Exit 3%Z
       else Raise (RuntimeError "Unreachable"),
       mkWorld [ok200 (one_card island)] ([] ++ evs))
    /\ requests_of evs = repeat (Post API_COLLECTION ["Island"]) 5.
Proof.
  apply (fetch_batch_fifth_response_decides ["Island"]
           [rate_limit; ConnFail; Http 500 None None; rate_limit]
           rate_limit [ok200 (one_card island)] []).
  - repeat (apply Forall_cons; [vm_compute; auto|]). apply Forall_nil.
  - reflexivity.
  - left. reflexivity.
Defined.

(** ** Properties of [main] *)

Lemma read_names_events (Q : event -> Prop) (file : input_file) :
  (forall m, Q (Stderr m)) -> all_events Q (read_names file).
Proof. intros HQ. destruct file; cbn [read_names]; by_structure; auto. Qed.

Lemma main_events file out sort verbose :
  all_events main_event (main file out sort verbose).
Proof.
  unfold main. apply all_events_bind.
  - apply read_names_events. now cbn.
  - intros [|n names_].
    + by_structure. now cbn.
    + apply all_events_bind; [apply main_resolve_events|].
      intros _. apply all_events_ret.
Qed.

(** What a list of events of [main] holds, by kind. *)
Lemma main_event_kinds (evs : list event) :
  Forall main_event evs ->
  Forall batch_request (requests_of evs)
  /\ Forall (pause_ok (3 # 2) 4) (pauses_of evs)
  /\ yields_of evs = [].
Proof.
  induction 1 as [|e evs He _ (IHr & IHp & IHy)]; [now repeat split|].
  destruct e; cbn in *; repeat split; auto; contradiction.
Qed.

Lemma fetch_event_not_written (evs : list event) :
  Forall fetch_event evs -> written_of evs = [].
Proof.
  induction 1 as [|e evs He _ IH]; [reflexivity|].
  destruct e; cbn in *; auto; contradiction.
Qed.

Lemma written_of_app (a b : list event) :
  written_of (a ++ b) = written_of a ++ written_of b.
Proof. apply flat_map_app. Qed.

(** X5.  Whatever the input file and whatever the provider answers,
    every request of [main] is a POST to the collection endpoint carrying
    between 1 and 75 names, every pause after a 429 lasts at least one
    second, every other pause is [1.5 ** attempt] for an attempt from 0
    to 3, and nothing is yielded. *)
Theorem main_requests_and_pauses :
  forall (file : input_file) (out : bool) (sort : sort_mode)
         (verbose : bool)
         (w : world),
    exists evs,
      trace (snd (main file out sort verbose w)) = trace w ++ evs
      /\ Forall batch_request (requests_of evs)
      /\ Forall (pause_ok (3 # 2) 4) (pauses_of evs)
      /\ yields_of evs = [].
Proof.
  intros file out sort verbose w.
  destruct (main_events file out sort verbose w) as (evs & Ht & Hall).
  exists evs. split; [exact Ht|]. now apply main_event_kinds.
Qed.


(** The end of [main], once [fetch_all] has returned: the output is
    written, then come lines on [stderr] only. *)
Lemma main_resolve_outcome names_ out sort verbose w :
  exists evs,
    trace (snd (main_resolve names_ out sort verbose w)) = trace w ++ evs
    /\ match fst (main_resolve names_ out sort verbose w) with
       | Ret loc =>
           exists before after,
             evs = before ++ Wrote (ordered_cards loc) :: after
             /\ Forall fetch_event before
             /\ Forall (fun e => exists m, e = Stderr m) after
       | _ => Forall fetch_event evs
       end.
Proof.
  destruct (main_resolve names_ out sort verbose w) as [o w'] eqn:E. cbn [fst snd].
  unfold main_resolve in E. unfold bind at 1, print_err at 1, emit in E.
  cbn [script trace] in E.
  set (first := Stderr (MsgReadNames (List.length names_))) in *.
  set (w0 := mkWorld (script w) (trace w ++ [first])) in *.
  destruct (fetch_all_events verbose names_ w0) as (evs & Ht & Hall).
  unfold w0 at 2 in Ht. cbn [trace] in Ht. rewrite <- app_assoc in Ht.
  assert (Hfirst : Forall fetch_event ([first] ++ evs))
    by (constructor; [exact I | assumption]).
  unfold bind at 1 in E.
  destruct (fetch_all names_ verbose w0) as [[[cards_ unresolved_]|c|e| |] w1];
    cbn [fst snd] in *;
    try (inversion E; subst; exists ([first] ++ evs); now split).
  destruct (reassemble _ _) as [[oc seen] mapped].
  destruct out.
  - unfold bind, emit, print_err, emit, ret in E. cbn [script trace] in E.
    destruct (combine_unresolved _) as [|u us]; inversion E; subst;
      cbn [trace ordered_cards]; rewrite Ht, <- !app_assoc;
      eexists; (split; [reflexivity|]);
      exists ([first] ++ evs); eexists; (split; [reflexivity|]);
      (split; [assumption|]); repeat (constructor; eauto).
  - unfold bind, raise in E. inversion E; subst.
    exists ([first] ++ evs). now split.
Qed.


(** X8.  An input file without a line that names a card - only blank
    lines and comments - makes [main] say so and return 0 without any
    request, whatever the script holds. *)
Theorem main_without_names :
  forall (lines : list string) (out : bool) (sort : sort_mode)
         (verbose : bool) (w : world),
    Forall (fun line => names_card line = false) lines ->
    main (Lines lines) out sort verbose w
    = (Ret 0%Z, mkWorld (script w) (trace w ++ [Stderr MsgNoNames])).
Proof.
  intros lines out sort verbose w Hall.
  destruct (read_names_deduplicates lines w) as (names_ & Hread & _ & Hin).
  unfold main. rewrite (bind_Ret _ _ _ _ _ Hread).
  destruct names_ as [|n names_]; [reflexivity|].
  destruct (proj1 (Hin n) (or_introl eq_refl)) as (line & Hl & Hc & _).
  rewrite Forall_forall in Hall. rewrite (Hall line Hl) in Hc. discriminate.
Qed.

Lemma main_without_names_witness :
  Forall (fun line => names_card line = false) [""; "  "; "# basic lands"]
  /\ main (Lines [""; "  "; "# basic lands"]) true SortInput false
       (mkWorld [ConnFail] [])
     = (Ret 0%Z, mkWorld [ConnFail] ([] ++ [Stderr MsgNoNames])).
Proof.
  split.
  - repeat constructor.
  - apply (main_without_names [""; "  "; "# basic lands"] true SortInput false
             (mkWorld [ConnFail] [])).
    repeat constructor.
Defined.

(** ** Properties of [read_names] *)

Lemma lstrip_no_leading_space (s : string) :
  match lstrip s with
  | EmptyString => True
  | String c _ => is_space c = false
  end.
Proof.
  induction s as [|c r IH]; cbn [lstrip]; [exact I|].
  destruct (is_space c) eqn:Hc; [exact IH | exact Hc].
Qed.

Lemma rstrip_idempotent (s : string) : rstrip (rstrip s) = rstrip s.
Proof.
  induction s as [|c r IH]; [reflexivity|]. cbn [rstrip].
  destruct (rstrip r) as [|c' r'] eqn:Er.
  - destruct (is_space c) eqn:Hc; [reflexivity|]. cbn [rstrip]. now rewrite Hc.
  - cbn [rstrip] in *. now rewrite IH.
Qed.

Lemma rstrip_keeps_head (c : ascii) (r : string) :
  is_space c = false -> exists r', rstrip (String c r) = String c r'.
Proof.
  intros Hc. cbn [rstrip]. destruct (rstrip r); rewrite ?Hc; eauto.
Qed.

Lemma strip_idempotent (s : string) : strip (strip s) = strip s.
Proof.
  unfold strip. pose proof (lstrip_no_leading_space s) as Hl.
  destruct (lstrip s) as [|c r]; [reflexivity|].
  destruct (rstrip_keeps_head c r Hl) as (r' & Hr).
  rewrite Hr. cbn [lstrip]. rewrite Hl, <- Hr. apply rstrip_idempotent.
Qed.

Lemma mem_ext (x : string) (a b : list string) :
  (forall n, In n a <-> In n b) -> mem x a = mem x b.
Proof.
  intros H. destruct (mem x b) eqn:Hb.
  - apply mem_In. apply H. now apply mem_In.
  - apply mem_false. intros Hin. apply H in Hin.
    apply mem_false in Hb. contradiction.
Qed.

(** On stripped, distinct names that are not yet known, the loop of
    [read_names] appends every one. *)
Lemma read_names_fold_clean (l : list string) :
  forall names_ seen,
    (forall n, In n seen <-> In n names_) ->
    NoDup (names_ ++ l) ->
    Forall (fun n => strip n = n /\ names_card n = true) l ->
    fst (fold_left read_names_step l (names_, seen)) = names_ ++ l.
Proof.
  induction l as [|n l IH]; intros names_ seen Hseen Hnd Hall; cbn [fold_left].
  - now rewrite app_nil_r.
  - apply Forall_cons_iff in Hall as [[Hs Hc] Hall].
    unfold names_card in Hc. rewrite Hs in Hc.
    apply andb_true_iff in Hc as [Ht Hh]. apply negb_true_iff in Hh.
    assert (Hnew : mem n seen = false).
    { apply mem_false. intros Hin. apply Hseen in Hin.
      apply NoDup_remove_2 in Hnd. apply Hnd. apply in_app_iff. auto. }
    unfold read_names_step at 2. rewrite Hs, Ht, Hh, Hnew. cbn [negb orb].
    rewrite IH; [now rewrite <- app_assoc | | now rewrite <- app_assoc | assumption].
    intros m. rewrite set_add_In, in_app_iff, Hseen. cbn. intuition.
Qed.

(** X9.  [read_names] gives back a list it has produced: reading a file
    whose lines are the names read from another file yields these very
    names, in the same order. *)
Theorem read_names_fixed_point :
  forall (lines : list string) (w : world),
    exists names_,
      read_names (Lines lines) w = (Ret names_, w)
      /\ read_names (Lines names_) w = (Ret names_, w).
Proof.
  intros lines w.
  destruct (read_names_deduplicates lines w) as (names_ & Hread & Hnd & Hin).
  exists names_. split; [exact Hread|].
  cbn [read_names]. unfold ret. f_equal. f_equal.
  apply (read_names_fold_clean names_ [] []); [tauto | exact Hnd |].
  apply Forall_forall. intros n Hn.
  apply Hin in Hn as (line & _ & Hc & ->).
  split; [apply strip_idempotent|].
  unfold names_card in *. now rewrite strip_idempotent.
Qed.

(** X10.  One more line at the end of the file adds its stripped text at
    the end of the names when it names a card not read before, and
    changes nothing otherwise: the names come in the order of their first
    occurrence, and the set [seen] holds exactly the names. *)
Theorem read_names_one_more_line :
  forall (lines : list string) (line : string) (w : world),
    exists names_,
      read_names (Lines lines) w = (Ret names_, w)
      /\ read_names (Lines (lines ++ [line])) w
         = (Ret (names_
                 ++ if names_card line && negb (mem (strip line) names_)
                    then [strip line] else []), w).
Proof.
  intros lines line w. cbn [read_names]. unfold ret.
  eexists. split; [reflexivity|]. f_equal. f_equal.
  rewrite fold_left_app. cbn [fold_left].
  pose proof (read_names_fold lines [] [] (NoDup_nil _)
                (fun n => conj (fun H => H) (fun H => H))) as (_ & Hseen & _).
  destruct (fold_left read_names_step lines ([], [])) as [names_ seen].
  cbn [fst snd] in *. unfold read_names_step, names_card.
  rewrite (mem_ext _ _ _ Hseen).
  destruct (truthy (strip line)); cbn [negb orb andb];
    [|now rewrite app_nil_r].
  destruct (startswith "#" (strip line)); cbn [negb orb andb];
    [now rewrite app_nil_r|].
  destruct (mem (strip line) names_); cbn [negb fst];
    [now rewrite app_nil_r | reflexivity].
Qed.

(** ** The mapping [fetch_all] returns *)

Lemma answers_answer_of (r : response) (b : body) :
  answers r b <-> answer_of r = Some b.
Proof.
  split.
  - intros (st & ra & -> & Hne & Herr). cbn.
    apply Z.eqb_neq in Hne. rewrite Hne. cbn [orb].
    destruct ((400 <=? st)%Z && (st <? 600)%Z) eqn:E; [|reflexivity].
    apply andb_true_iff in E as [H4 H6].
    apply Z.leb_le in H4. apply Z.ltb_lt in H6. lia.
  - destruct r as [|st ra [b'|]]; cbn; try discriminate.
    destruct (st =? 429)%Z eqn:Hst; cbn [orb]; [discriminate|].
    destruct ((400 <=? st)%Z && (st <? 600)%Z) eqn:E; [discriminate|].
    intros H. inversion H; subst. exists st, ra.
    split; [reflexivity|]. split; [now apply Z.eqb_neq|].
    apply andb_false_iff in E as [E|E];
      [apply Z.leb_gt in E | apply Z.ltb_ge in E]; lia.
Qed.

Lemma passes_answer_of (r : response) : passes r -> answer_of r = None.
Proof.
  intros Hp. destruct (answer_of r) as [b|] eqn:E; [|reflexivity].
  apply answers_answer_of in E. destruct (passes_not_answers _ _ Hp E).
Qed.

Lemma returned_app (a b : list response) :
  returned (a ++ b) = returned a ++ returned b.
Proof. apply flat_map_app. Qed.

Lemma returned_passes (pre : list response) :
  Forall passes pre -> returned pre = [].
Proof.
  induction 1 as [|r pre Hr _ IH]; [reflexivity|].
  unfold returned in *. cbn [flat_map].
  now rewrite (passes_answer_of r Hr), IH.
Qed.

Lemma reported_answer (pre : list response) (r : response) (b : body) :
  answers r b ->
  incl (map nf_name (not_found b)) (reported (pre ++ [r])).
Proof.
  intros (st & ra & -> & _) n Hn. rewrite reported_app. apply in_app_iff.
  right. cbn. now rewrite app_nil_r.
Qed.

(** A body [fetch_batch] returns holds the cards returned by the
    responses it used up. *)
Lemma fetch_batch_returns names_ w b w' :
  fetch_batch names_ w = (Ret b, w') ->
  exists consumed,
    script w = consumed ++ script w'
    /\ returned consumed = data b
    /\ incl (map nf_name (not_found b)) (reported consumed).
Proof.
  intros E. unfold fetch_batch, fetch_batch_with in E.
  change (py_range 0 (4 + 1) 1) with (seq 0 5) in E.
  apply fetch_batch_for_any in E
    as (evs & consumed & _ & Hs & _ & _ & _ & pre & r & -> & Hpre & Ha);
    [|reflexivity].
  exists (pre ++ [r]). split; [exact Hs|]. split.
  - rewrite returned_app, (returned_passes pre Hpre).
    unfold returned. cbn [flat_map app].
    apply answers_answer_of in Ha. rewrite Ha. apply app_nil_r.
  - now apply reported_answer.
Qed.

Lemma merge_cards_app (results : PyDict.dict card) (a b : list card) :
  merge_cards results (a ++ b) = merge_cards (merge_cards results a) b.
Proof. apply fold_left_app. Qed.

Lemma fetch_retry_returns subs :
  forall results w results' w',
    fetch_retry subs results w = (Ret results', w') ->
    exists consumed,
      script w = consumed ++ script w'
      /\ results' = merge_cards results (returned consumed).
Proof.
  induction subs as [|sub subs IH]; intros results w results' w' H; cbn in H.
  - apply ret_inv in H as [<- <-]. now exists [].
  - apply bind_Ret_inv in H as (b & w1 & Hb & H).
    apply fetch_batch_returns in Hb as (c1 & Hs1 & Hd1 & _).
    apply IH in H as (c2 & Hs2 & ->).
    exists (c1 ++ c2). split; [now rewrite Hs1, Hs2, app_assoc|].
    now rewrite returned_app, merge_cards_app, Hd1.
Qed.

(** A completed iteration of the batch loop has merged the cards of the
    responses it used up, in order, and added to the unresolved set
    names that these responses report as not found. *)
Lemma fetch_all_batch_returns verbose batch_idx batch results unresolved w
      results1 unresolved1 w1 :
  fetch_all_batch verbose batch_idx batch (results, unresolved) w
  = (Ret (results1, unresolved1), w1) ->
  exists consumed still_missing,
    script w = consumed ++ script w1
    /\ results1 = merge_cards results (returned consumed)
    /\ unresolved1 = set_update unresolved still_missing
    /\ incl still_missing (reported consumed).
Proof.
  intros H. unfold fetch_all_batch in H.
  apply bind_Ret_inv in H as ([] & w0 & Hp & H).
  apply print_err_script in Hp.
  apply bind_Ret_inv in H as (d & w2 & Hfb & H).
  apply fetch_batch_returns in Hfb as (c1 & Hs1 & Hd1 & Hnf).
  rewrite Hp in Hs1.
  destruct (not_found d) as [|item nf] eqn:Enf.
  - apply ret_inv in H as [H ->]. inversion H; subst.
    exists c1, []. rewrite Hd1. repeat split; auto using incl_nil_l.
  - set (nf_names := map nf_name (item :: nf)) in *.
    apply bind_Ret_inv in H as ([res rtb] & w3 & Hr & H).
    assert (Hs2 : exists c2, script w2 = c2 ++ script w3
                             /\ res = merge_cards results (returned (c1 ++ c2))).
    { destruct (front_faces nf_names) as [|f fs].
      - apply ret_inv in Hr as [Hr ->]. inversion Hr; subst.
        exists []. now rewrite app_nil_r, Hd1.
      - apply bind_Ret_inv in Hr as ([] & w4 & Hv & Hr).
        apply optional_print_script in Hv.
        apply bind_Ret_inv in Hr as (res' & w5 & Hr & Hret).
        apply ret_inv in Hret as [Hret ->]. inversion Hret; subst.
        apply fetch_retry_returns in Hr as (c2 & Hc2 & ->).
        exists c2. rewrite <- Hv. split; [assumption|].
        now rewrite returned_app, merge_cards_app, Hd1. }
    destruct Hs2 as (c2 & Hs2 & Hres).
    assert (Ht : script w1 = script w3 /\ results1 = res
                 /\ unresolved1
                    = set_update unresolved
                        (filter (fun n => negb (mem n rtb)) nf_names)).
    { destruct (filter (fun n => negb (mem n rtb)) nf_names) as [|m ms].
      - apply bind_Ret_inv in H as ([] & w4 & Hv & H).
        apply optional_print_script in Hv.
        apply ret_inv in H as [H <-]. inversion H; subst. auto.
      - apply bind_Ret_inv in H as ([] & w4 & Hv & H).
        assert (Hv' : script w4 = script w3).
        { destruct (filter (fun n => negb (mem n unresolved)) (m :: ms));
            now apply print_err_script in Hv. }
        apply ret_inv in H as [H <-].
        apply pair_equal_spec in H as [<- <-]. auto. }
    destruct Ht as (Hs3 & -> & ->).
    exists (c1 ++ c2), (filter (fun n => negb (mem n rtb)) nf_names).
    split; [now rewrite Hs1, Hs2, Hs3, app_assoc|].
    split; [assumption|]. split; [reflexivity|].
    intros n Hn. apply filter_In in Hn as [Hn _].
    rewrite reported_app. apply in_app_iff. left. now apply Hnf.
Qed.

Lemma fetch_all_loop_returns verbose batches :
  forall batch_idx results unresolved w results1 unresolved1 w1,
    fetch_all_loop verbose batch_idx batches (results, unresolved) w
    = (Ret (results1, unresolved1), w1) ->
    exists consumed,
      script w = consumed ++ script w1
      /\ results1 = merge_cards results (returned consumed)
      /\ (NoDup unresolved -> NoDup unresolved1)
      /\ incl unresolved1 (unresolved ++ reported consumed).
Proof.
  induction batches as [|batch batches IH];
    intros batch_idx results unresolved w results1 unresolved1 w1 H;
    cbn [fetch_all_loop] in H.
  - apply ret_inv in H as [H ->]. inversion H; subst.
    exists []. repeat split; auto. apply incl_appl, incl_refl.
  - apply bind_Ret_inv in H as ([res un] & w2 & Hb & H).
    apply fetch_all_batch_returns in Hb as (c1 & sm & Hs1 & -> & -> & Hi1).
    apply IH in H as (c2 & Hs2 & -> & Hnd & Hi2).
    exists (c1 ++ c2). split; [now rewrite Hs1, Hs2, app_assoc|].
    split; [now rewrite returned_app, merge_cards_app|].
    split; [intros Hu; now apply Hnd, set_update_NoDup|].
    intros n Hn. apply Hi2, in_app_iff in Hn.
    rewrite reported_app, !in_app_iff.
    destruct Hn as [Hn|Hn]; [|auto].
    apply set_update_In in Hn as [Hn|Hn]; [auto|].
    right. left. now apply Hi1.
Qed.

Lemma fetch_all_returns names_ verbose w cards_ unresolved_ w1 :
  fetch_all names_ verbose w = (Ret (cards_, unresolved_), w1) ->
  exists consumed,
    script w = consumed ++ script w1
    /\ cards_ = merge_cards [] (returned consumed)
    /\ NoDup unresolved_
    /\ Sorted le_lower unresolved_
    /\ incl unresolved_ (reported consumed).
Proof.
  intros H. unfold fetch_all in H.
  apply bind_Ret_inv in H as ([res un] & w2 & Hl & H).
  apply fetch_all_loop_returns in Hl as (consumed & Hs & -> & Hnd & Hi).
  apply bind_Ret_inv in H as ([] & w3 & Hp & H).
  assert (Hs3 : script w3 = script w2).
  { destruct (sorted_lower un); [|now apply print_err_script in Hp].
    apply ret_inv in Hp as [_ ->]. reflexivity. }
  apply ret_inv in H as [H <-]. inversion H; subst.
  exists consumed. rewrite Hs3. repeat split; auto.
  - eapply Permutation_NoDup; [symmetry; apply sorted_lower_perm|].
    apply Hnd. constructor.
  - apply sorted_lower_sorted.
  - intros n Hn. apply sorted_lower_In, Hi in Hn. exact Hn.
Qed.

(** X11.  The mapping [fetch_all] returns is what merging, one after the
    other, the cards of every body [fetch_batch] returned gives - those
    of the batches and those of the front-face retries, in the order of
    the responses; 429s and failed responses contribute nothing. *)
Theorem fetch_all_merges_returned_cards :
  forall (names_ : list string) (verbose : bool) (w w1 : world)
         (cards_ : PyDict.dict card) (unresolved_ : list string),
    fetch_all names_ verbose w = (Ret (cards_, unresolved_), w1) ->
    exists consumed,
      script w = consumed ++ script w1
      /\ cards_ = merge_cards [] (returned consumed).
Proof.
  intros names_ verbose w w1 cards_ unresolved_ H.
  apply fetch_all_returns in H as (consumed & Hs & Hc & _).
  now exists consumed.
Qed.

Lemma fetch_all_merges_returned_cards_witness :
  exists consumed,
    script (mkWorld [rate_limit; ok200 delver_not_found; ConnFail;
                     ok200 (delver_found delver_card); ok200 page3] [])
    = consumed
      ++ script (snd (fetch_all [delver] false
                        (mkWorld [rate_limit; ok200 delver_not_found; ConnFail;
                                  ok200 (delver_found delver_card);
                                  ok200 page3] [])))
    /\ [(delver, delver_card)] = merge_cards [] (returned consumed).
Proof.
  apply (fetch_all_merges_returned_cards [delver] false _ _ _ []).
  vm_compute. reflexivity.
Defined.

(** X13.  The unresolved names [fetch_all] returns are distinct, in the
    order of their lower-case forms, and each was reported as not found
    by a response that was used up. *)
Theorem fetch_all_unresolved_sorted_distinct :
  forall (names_ : list string) (verbose : bool) (w w1 : world)
         (cards_ : PyDict.dict card) (unresolved_ : list string),
    fetch_all names_ verbose w = (Ret (cards_, unresolved_), w1) ->
    exists consumed,
      script w = consumed ++ script w1
      /\ NoDup unresolved_
      /\ Sorted le_lower unresolved_
      /\ incl unresolved_ (reported consumed).
Proof.
  intros names_ verbose w w1 cards_ unresolved_ H.
  apply fetch_all_returns in H as (consumed & Hs & _ & Hnd & Hsorted & Hi).
  now exists consumed.
Qed.

Lemma fetch_all_unresolved_sorted_distinct_witness :
  exists consumed,
    script (mkWorld [ok200 fire_ice_not_found; ok200 nothing_found;
                     ok200 page3] [])
    = consumed
      ++ script (snd (fetch_all ["fire // ice"; "Fire // Ice"] false
                        (mkWorld [ok200 fire_ice_not_found;
                                  ok200 nothing_found; ok200 page3] [])))
    /\ NoDup ["Fire // Ice"; "fire // ice"]
    /\ Sorted le_lower ["Fire // Ice"; "fire // ice"]
    /\ incl ["Fire // Ice"; "fire // ice"] (reported consumed).
Proof.
  apply (fetch_all_unresolved_sorted_distinct
           ["fire // ice"; "Fire // Ice"] false _ _ []).
  vm_compute. reflexivity.
Defined.

(** ** Dictionaries and [merge_cards] *)

Section Dict.
Context {V : Type}.

Lemma get_set (k n : string) (v : V) (d : PyDict.dict V) :
  PyDict.get n (PyDict.set k v d)
  = if (k =? n)%string then Some v else PyDict.get n d.
Proof.
  induction d as [|[k' v'] r IH]; cbn [PyDict.set PyDict.get]; [reflexivity|].
  destruct (k' =? k)%string eqn:Ek; cbn [PyDict.get].
  - apply String.eqb_eq in Ek. subst k'. now destruct (k =? n)%string.
  - rewrite IH. destruct (k' =? n)%string eqn:En; [|reflexivity].
    apply String.eqb_eq in En. subst k'.
    rewrite String.eqb_sym in Ek. now rewrite Ek.
Qed.

Lemma keys_set_In (k x : string) (v : V) (d : PyDict.dict V) :
  In x (PyDict.keys (PyDict.set k v d)) <-> x = k \/ In x (PyDict.keys d).
Proof.
  unfold PyDict.keys.
  induction d as [|[k' v'] r IH]; cbn [PyDict.set map In fst].
  - intuition.
  - destruct (k' =? k)%string eqn:Ek; cbn [map In fst].
    + apply String.eqb_eq in Ek. subst k'. intuition.
    + rewrite IH. intuition.
Qed.

Lemma keys_set_NoDup (k : string) (v : V) (d : PyDict.dict V) :
  NoDup (PyDict.keys d) -> NoDup (PyDict.keys (PyDict.set k v d)).
Proof.
  induction d as [|[k' v'] r IH]; cbn [PyDict.set]; intros Hnd.
  - repeat constructor. intros [].
  - destruct (k' =? k)%string eqn:Ek; [exact Hnd|].
    apply String.eqb_neq in Ek.
    change (NoDup (k' :: PyDict.keys (PyDict.set k v r))).
    change (NoDup (k' :: PyDict.keys r)) in Hnd.
    apply NoDup_cons_iff in Hnd as [Hnotin Hnd].
    constructor; [|now apply IH].
    rewrite keys_set_In. intros [->|Hin]; contradiction.
Qed.

Lemma get_Some_In (k : string) (v : V) (d : PyDict.dict V) :
  PyDict.get k d = Some v -> exists k', In (k', v) d /\ k' = k.
Proof.
  induction d as [|[k' v'] r IH]; cbn [PyDict.get]; [discriminate|].
  destruct (k' =? k)%string eqn:Ek.
  - apply String.eqb_eq in Ek. intros H. inversion H; subst.
    exists k. cbn. auto.
  - intros H. destruct (IH H) as (k2 & Hin & ->). exists k. cbn. auto.
Qed.

Lemma In_get (k : string) (v : V) (d : PyDict.dict V) :
  NoDup (PyDict.keys d) -> In (k, v) d -> PyDict.get k d = Some v.
Proof.
  induction d as [|[k' v'] r IH]; cbn [PyDict.get]; [intros _ []|].
  intros Hnd [Heq|Hin].
  - inversion Heq; subst. now rewrite String.eqb_refl.
  - change (NoDup (k' :: PyDict.keys r)) in Hnd.
    apply NoDup_cons_iff in Hnd as [Hnotin Hnd].
    destruct (k' =? k)%string eqn:Ek; [|now apply IH].
    apply String.eqb_eq in Ek. subst k'. exfalso. apply Hnotin.
    unfold PyDict.keys. apply in_map_iff. now exists (k, v).
Qed.

Lemma get_None_keys (k : string) (d : PyDict.dict V) :
  PyDict.get k d = None <-> ~ In k (PyDict.keys d).
Proof.
  induction d as [|[k' v'] r IH]; cbn [PyDict.get]; [cbn; tauto|].
  change (PyDict.keys ((k', v') :: r)) with (k' :: PyDict.keys r).
  destruct (k' =? k)%string eqn:Ek.
  - apply String.eqb_eq in Ek. subst. cbn. split; [discriminate|tauto].
  - apply String.eqb_neq in Ek. rewrite IH. cbn. tauto.
Qed.
End Dict.

Lemma last_named_snoc (n : string) (pool : list card) (c : card) :
  last_named n (pool ++ [c])
  = if named n c then Some c else last_named n pool.
Proof. unfold last_named. rewrite rev_app_distr. reflexivity. Qed.

Lemma truthy_differ (m n : string) :
  truthy m <> truthy n -> (m =? n)%string = false.
Proof.
  intros H. apply String.eqb_neq. intros ->. now apply H.
Qed.

Lemma merge_cards_snoc (results : PyDict.dict card) (pool : list card)
      (c : card) :
  merge_cards results (pool ++ [c])
  = match card_name c with
    | Some n =>
        if truthy n then PyDict.set n c (merge_cards results pool)
        else merge_cards results pool
    | None => merge_cards results pool
    end.
Proof. unfold merge_cards. now rewrite fold_left_app. Qed.

Lemma merge_cards_get (results : PyDict.dict card) (pool : list card)
      (n : string) :
  PyDict.get n (merge_cards results pool)
  = match (if truthy n then last_named n pool else None) with
    | Some c => Some c
    | None => PyDict.get n results
    end.
Proof.
  induction pool as [|c pool IH] using rev_ind.
  - cbn. now destruct (truthy n).
  - rewrite merge_cards_snoc, last_named_snoc. unfold named.
    destruct (card_name c) as [m|]; [|exact IH].
    destruct (truthy m) eqn:Hm.
    + rewrite get_set. destruct (m =? n)%string eqn:Emn.
      * apply String.eqb_eq in Emn. subst m. now rewrite Hm.
      * rewrite IH. reflexivity.
    + rewrite IH. destruct (truthy n) eqn:Hn; [|reflexivity].
      rewrite truthy_differ; [reflexivity | congruence].
Qed.

Lemma merge_cards_NoDup (pool : list card) :
  forall results,
    NoDup (PyDict.keys results) ->
    NoDup (PyDict.keys (merge_cards results pool)).
Proof.
  unfold merge_cards.
  induction pool as [|c pool IH]; intros results Hnd; cbn [fold_left];
    [assumption|].
  apply IH. destruct (card_name c) as [m|]; [|assumption].
  destruct (truthy m); [now apply keys_set_NoDup | assumption].
Qed.

Lemma last_named_In (n : string) (pool : list card) (c : card) :
  last_named n pool = Some c -> In c pool /\ card_name c = Some n.
Proof.
  unfold last_named. intros H. apply find_some in H as [Hin Hn].
  split; [now apply in_rev|].
  unfold named in Hn. destruct (card_name c) as [m|]; [|discriminate].
  apply String.eqb_eq in Hn. now subst.
Qed.

(** Every entry of a mapping built by [merge_cards] alone is a card of
    the pool under its own, truthy name. *)
Lemma merge_cards_entries (pool : list card) (k : string) (c : card) :
  In (k, c) (merge_cards [] pool) ->
  In c pool /\ card_name c = Some k /\ truthy k = true.
Proof.
  intros Hin.
  apply In_get in Hin; [|apply merge_cards_NoDup; constructor].
  rewrite merge_cards_get in Hin. cbn [PyDict.get] in Hin.
  destruct (truthy k); [|discriminate].
  destruct (last_named k pool) as [c'|] eqn:El; [|discriminate].
  inversion Hin; subst. apply last_named_In in El. tauto.
Qed.

(** X12.  In the mapping of [fetch_all] the last card wins: after
    merging a list of cards, the keys are distinct, and the entry for a
    non-empty name is the last card of the list with that name, or the
    entry there was before when no card has it; a card without a name,
    or with an empty one, changes nothing. *)
Theorem merge_cards_last_card_wins :
  forall (results : PyDict.dict card) (pool : list card),
    (NoDup (PyDict.keys results) ->
     NoDup (PyDict.keys (merge_cards results pool)))
    /\ (forall n,
           PyDict.get n (merge_cards results pool)
           = match (if truthy n then last_named n pool else None) with
             | Some c => Some c
             | None => PyDict.get n results
             end)
    /\ (forall c,
           truthy_opt (card_name c) = false ->
           merge_cards results (pool ++ [c]) = merge_cards results pool).
Proof.
  intros results pool. split; [apply merge_cards_NoDup|].
  split; [apply merge_cards_get|].
  intros c Hc. rewrite merge_cards_snoc.
  destruct (card_name c) as [m|]; [|reflexivity].
  cbn in Hc. now rewrite Hc.
Qed.

Lemma merge_cards_last_card_wins_witness :
  NoDup (PyDict.keys (merge_cards [("Island", island)] [forest; island]))
  /\ merge_cards [] ([island] ++ [mkCard (Some "id") (Some "") []])
     = merge_cards [] [island].
Proof.
  split.
  - apply (proj1 (merge_cards_last_card_wins [("Island", island)]
                    [forest; island])).
    repeat constructor; cbn; tauto.
  - apply (proj2 (proj2 (merge_cards_last_card_wins [] [island]))).
    reflexivity.
Defined.

(** ** A batch without front-face candidates *)

Lemma front_faces_none (l : list string) :
  Forall (fun n => front_face n = None) l -> front_faces l = [].
Proof.
  intros H. unfold front_faces. rewrite front_faces_fold. cbn [app].
  induction H as [|n l Hn _ IH]; [reflexivity|].
  cbn [flat_map]. unfold queued at 1. now rewrite Hn.
Qed.

Lemma filter_not_in_nil (l : list string) :
  filter (fun n => negb (mem n [])) l = l.
Proof.
  induction l as [|x l IH]; [reflexivity|].
  change (x :: filter (fun n => negb (mem n [])) l = x :: l). now rewrite IH.
Qed.

(** X14.  When none of the names a batch reports as not found has a
    front face - no [" // "] in it, or nothing before it - no retry
    request is made: the batch costs the requests of its own
    [fetch_batch] only, its cards are merged, and every name reported as
    not found is unresolved. *)
Theorem not_found_without_front_face_unresolved :
  forall (verbose : bool) (batch_idx : nat) (batch : list string)
         (results : PyDict.dict card) (unresolved : list string)
         (pre : list response) (r : response) (b : body)
         (rest : list response) (tr : list event),
    Forall passes pre ->
    List.length pre <= 4 ->
    answers r b ->
    Forall (fun n => front_face n = None) (map nf_name (not_found b)) ->
    exists evs,
      fetch_all_batch verbose batch_idx batch (results, unresolved)
        (mkWorld (pre ++ r :: rest) tr)
      = (Ret (merge_cards results (data b),
              set_update unresolved (map nf_name (not_found b))),
         mkWorld rest (tr ++ evs))
      /\ requests_of evs
         = repeat (Post API_COLLECTION batch) (S (List.length pre)).
Proof.
  intros verbose batch_idx batch results unresolved pre r b rest tr
         Hpre Hlen Ha Hnone.
  set (first := Stderr (MsgFetchingBatch batch_idx (List.length batch))).
  destruct (fetch_batch_for_forward batch 4 (3 # 2) pre 0 5 r rest
              (tr ++ [first]))
    as (evs & Hr & Hret & _); [reflexivity | assumption | lia |].
  specialize (Hret b Ha).
  apply front_faces_none in Hnone.
  unfold fetch_all_batch. unfold bind at 1, print_err at 1, emit.
  cbn [script trace]. fold first.
  unfold bind at 1, fetch_batch, fetch_batch_with.
  change (py_range 0 (4 + 1) 1) with (seq 0 5). rewrite Hret.
  destruct (not_found b) as [|item nf] eqn:Enf.
  - exists ([first] ++ evs). unfold ret. rewrite <- app_assoc.
    split; [reflexivity|]. rewrite requests_of_app. exact Hr.
  - rewrite Hnone. unfold bind at 1, ret at 1. cbv beta iota.
    rewrite filter_not_in_nil.
    remember (map nf_name (item :: nf)) as nf_names eqn:Hne.
    destruct nf_names as [|m ms]; [discriminate|].
    unfold bind, ret.
    destruct (filter (fun n => negb (mem n unresolved)) (m :: ms));
      unfold print_err, emit; cbn [script trace];
      eexists; (split; [rewrite <- !app_assoc; reflexivity|]);
      rewrite !requests_of_app, Hr; cbn; now rewrite app_nil_r.
Qed.

Lemma not_found_without_front_face_unresolved_witness :
  exists evs,
    fetch_all_batch false 1 ["Islnd"; " // Ice"] ([], [])
      (mkWorld ([ConnFail]
                ++ ok200 (mkBody [] [NfDict "Islnd"; NfStr " // Ice"]
                            false None None None) :: [ok200 page3]) [])
    = (Ret (merge_cards []
              (data (mkBody [] [NfDict "Islnd"; NfStr " // Ice"]
                       false None None None)),
            set_update []
              (map nf_name
                 (not_found (mkBody [] [NfDict "Islnd"; NfStr " // Ice"]
                               false None None None)))),
       mkWorld [ok200 page3] ([] ++ evs))
    /\ requests_of evs
       = repeat (Post API_COLLECTION ["Islnd"; " // Ice"])
           (S (List.length [ConnFail])).
Proof.
  apply (not_found_without_front_face_unresolved false 1 ["Islnd"; " // Ice"]
           [] [] [ConnFail]).
  - repeat (apply Forall_cons; [vm_compute; auto|]). apply Forall_nil.
  - cbn. lia.
  - exists 200%Z, None. repeat split; lia.
  - repeat (apply Forall_cons; [vm_compute; reflexivity|]). apply Forall_nil.
Defined.

(** ** What [main] writes *)

Lemma subseq_nil_l {A : Type} (l : list A) : subseq [] l.
Proof. induction l; [apply subseq_nil | now apply subseq_skip]. Qed.

Lemma subseq_refl {A : Type} (l : list A) : subseq l l.
Proof. induction l; [apply subseq_nil | now apply subseq_take]. Qed.

Lemma subseq_app {A : Type} (a b c d : list A) :
  subseq a b -> subseq c d -> subseq (a ++ c) (b ++ d).
Proof.
  induction 1; cbn; intros Hcd;
    [assumption | apply subseq_skip | apply subseq_take]; auto.
Qed.

Lemma subseq_In {A : Type} (a b : list A) (x : A) :
  subseq a b -> In x a -> In x b.
Proof. induction 1; cbn; intuition. Qed.

Lemma subseq_filter_length (p : string -> bool) (a b : list string) :
  subseq a b ->
  Forall (fun x => p x = true) a ->
  List.length a <= List.length (filter p b).
Proof.
  induction 1 as [|x a b _ IH|x a b _ IH]; intros Hall; cbn [filter].
  - cbn. lia.
  - specialize (IH Hall). destruct (p x); cbn; lia.
  - apply Forall_cons_iff in Hall as [Hx Hall]. rewrite Hx. cbn.
    specialize (IH Hall). lia.
Qed.

Lemma filter_lengths (p : string -> bool) (l : list string) :
  List.length (filter p l) + List.length (filter (fun x => negb (p x)) l)
  = List.length l.
Proof.
  induction l as [|x l IH]; [reflexivity|]. cbn [filter].
  destruct (p x); cbn; lia.
Qed.

Section Order.
Variable lower_map : PyDict.dict card.

(** The cards emitted are the cards of a subsequence of the names. *)
Lemma reassemble_subseq (l : list string) :
  exists sub,
    subseq sub l
    /\ Forall2 (resolves lower_map) sub (cards_of (reassemble lower_map l)).
Proof.
  induction l as [|n l IH] using rev_ind.
  - exists []. split; constructor.
  - destruct IH as (sub & Hsub & Hres).
    unfold reassemble in *. rewrite fold_left_app. cbn [fold_left].
    destruct (reassemble_step_cards lower_map
                (fold_left (reassemble_step lower_map) l ([], [], [])) n)
      as [Heq|(c & Hc & Heq)]; rewrite Heq.
    + exists sub. split; [|assumption].
      rewrite <- (app_nil_r sub). apply subseq_app; [assumption|].
      apply subseq_nil_l.
    + exists (sub ++ [n]). split.
      * apply subseq_app; [assumption | apply subseq_refl].
      * apply Forall2_app; [assumption|].
        apply Forall2_cons; [assumption | apply Forall2_nil].
Qed.
End Order.

Lemma set_In {V : Type} (k x : string) (v y : V) (d : PyDict.dict V) :
  In (x, y) (PyDict.set k v d) -> (x = k /\ y = v) \/ In (x, y) d.
Proof.
  induction d as [|[k' v'] r IH]; cbn [PyDict.set In].
  - intros [H|[]]. inversion H. auto.
  - destruct (k' =? k)%string eqn:Ek; cbn [In].
    + apply String.eqb_eq in Ek. subst k'.
      intros [H|H]; [inversion H|]; auto.
    + intros [H|H]; [auto|]. apply IH in H. tauto.
Qed.

Lemma lower_map_fold_values (cards_ : PyDict.dict card) :
  forall m x c,
    In (x, c)
      (fold_left (fun m kv => PyDict.set (lower (fst kv)) (snd kv) m) cards_ m) ->
    In (x, c) m \/ exists k, In (k, c) cards_ /\ x = lower k.
Proof.
  induction cards_ as [|[k v] r IH]; intros m x c H; cbn [fold_left] in H.
  - auto.
  - apply IH in H as [H|(k' & Hin & ->)].
    + cbn [fst snd] in H. apply set_In in H as [[-> ->]|H]; [|auto].
      right. exists k. cbn. auto.
    + right. exists k'. cbn. auto.
Qed.

Lemma lower_map_of_values (cards_ : PyDict.dict card) (x : string) (c : card) :
  In (x, c) (lower_map_of cards_) -> exists k, In (k, c) cards_ /\ x = lower k.
Proof.
  intros H. apply lower_map_fold_values in H as [[]|H]. exact H.
Qed.

Lemma lower_map_fold_keys (cards_ : PyDict.dict card) :
  forall m x,
    In x (PyDict.keys
            (fold_left (fun m kv => PyDict.set (lower (fst kv)) (snd kv) m)
               cards_ m))
    <-> In x (PyDict.keys m) \/ exists k, In k (PyDict.keys cards_) /\ x = lower k.
Proof.
  induction cards_ as [|[k v] r IH]; intros m x; cbn [fold_left].
  - cbn. split; [auto|]. intros [H|(k & [] & _)]. exact H.
  - rewrite IH, keys_set_In. cbn [fst snd].
    change (PyDict.keys ((k, v) :: r)) with (k :: PyDict.keys r). cbn [In].
    split.
    + intros [[->|H]|(k' & Hin & ->)]; eauto.
    + intros [H|(k' & [->|Hin] & ->)]; eauto.
Qed.

Lemma lower_map_of_keys (cards_ : PyDict.dict card) (x : string) :
  In x (PyDict.keys (lower_map_of cards_))
  <-> exists k, In k (PyDict.keys cards_) /\ x = lower k.
Proof.
  unfold lower_map_of. rewrite lower_map_fold_keys. cbn. tauto.
Qed.

Lemma resolve_input_name_value (lower_map : PyDict.dict card) (inp : string)
      (c : card) :
  resolve_input_name lower_map inp = Some c -> exists k, In (k, c) lower_map.
Proof.
  unfold resolve_input_name.
  destruct (PyDict.get (lower inp) lower_map) as [c'|] eqn:Eg.
  - intros H. inversion H; subst.
    apply get_Some_In in Eg as (k & Hin & _). eauto.
  - destruct (contains " // " (lower inp)); [|discriminate].
    destruct (find _ lower_map) as [[k c']|] eqn:Ef; [|discriminate].
    cbn. intros H. inversion H; subst.
    apply find_some in Ef as [Hin _]. eauto.
Qed.

(** What [main] has computed and used up when it reaches its last
    line. *)
Lemma main_resolve_returns names_ out sort verbose w loc w' :
  main_resolve names_ out sort verbose w = (Ret loc, w') ->
  exists consumed,
    script w = consumed ++ script w'
    /\ cards loc = merge_cards [] (returned consumed)
    /\ ordered_cards loc
       = cards_of
           (reassemble (lower_map_of (cards loc))
              match sort with
              | SortInput => names_
              | SortAlpha => sorted_lower (PyDict.keys (cards loc))
              end)
    /\ mapped_names loc
       = mapped_of
           (reassemble (lower_map_of (cards loc))
              match sort with
              | SortInput => names_
              | SortAlpha => sorted_lower (PyDict.keys (cards loc))
              end)
    /\ ordering_unresolved loc
       = filter (fun n => negb (mem n (mapped_names loc))) names_
    /\ In (Stderr (MsgWrote (List.length (ordered_cards loc))
                     (List.length names_)
                     (List.length (ordering_unresolved loc))))
         (trace w').
Proof.
  intros H. unfold main_resolve in H.
  apply bind_Ret_inv in H as ([] & w1 & Hp & H).
  apply print_err_script in Hp.
  apply bind_Ret_inv in H as ([cs un] & w2 & Hf & H).
  apply fetch_all_returns in Hf as (consumed & Hs & Hc & _).
  rewrite Hp in Hs.
  destruct (reassemble (lower_map_of cs)
              match sort with
              | SortInput => names_
              | SortAlpha => sorted_lower (PyDict.keys cs)
              end) as [[oc seen] mp] eqn:Er.
  apply bind_Ret_inv in H as ([] & w3 & Hw & H).
  apply bind_Ret_inv in H as ([] & w4 & Hm & H).
  apply bind_Ret_inv in H as ([] & w5 & Hl & H).
  apply ret_inv in H as [<- <-].
  cbn [cards unresolved_names names mapped_names ordered_cards
         ordering_unresolved combined_unresolved].
  rewrite Er. cbn [mapped_of cards_of fst snd].
  destruct out; [|discriminate Hw].
  unfold emit in Hw. inversion Hw; subst w3; clear Hw.
  unfold print_err, emit in Hm. inversion Hm; subst w4; clear Hm.
  cbn [script trace] in *.
  assert (Hw5 : script w5 = script w2
                /\ exists tl,
                    trace w5
                    = (trace w2 ++ [Wrote oc])
                      ++ Stderr (MsgWrote (List.length oc) (List.length names_)
                                   (List.length
                                      (filter (fun n => negb (mem n mp)) names_)))
                      :: tl).
  { destruct (combine_unresolved _); unfold print_err, emit, ret in Hl;
      inversion Hl; cbn [script trace]; (split; [reflexivity|]);
      first [ exists []; reflexivity
            | eexists;
              rewrite <- (app_assoc (trace w2 ++ [Wrote oc]) [_] [_]);
              reflexivity ]. }
  destruct Hw5 as (Hs5 & tl & Ht5).
  exists consumed. rewrite Hs5, Ht5. repeat split; auto.
  apply in_app_iff. right. now left.
Qed.

(** X15.  Every card [main] writes was returned by the provider in a
    body [fetch_batch] took, and has a non-empty name; this holds whatever
    the input file, the sort mode and the responses. *)
Theorem main_writes_returned_cards :
  forall (file : input_file) (out : bool) (sort : sort_mode)
         (verbose : bool)
         (w : world),
    exists consumed evs,
      script w = consumed ++ script (snd (main file out sort verbose w))
      /\ trace (snd (main file out sort verbose w)) = trace w ++ evs
      /\ forall cs c,
          In cs (written_of evs) -> In c cs ->
          In c (returned consumed)
          /\ exists n, card_name c = Some n /\ truthy n = true.
Proof.
  intros [lines| |] out sort verbose w.
  2:{ exists [], [Stderr MsgReadFailed]. cbn. repeat split; tauto. }
  2:{ exists [], []. cbn. rewrite app_nil_r. repeat split; tauto. }
  destruct (read_names_deduplicates lines w) as (names_ & Hread & _).
  unfold main. rewrite (bind_Ret _ _ _ _ _ Hread).
  destruct names_ as [|n names_].
  { exists [], [Stderr MsgNoNames]. cbn. repeat split; tauto. }
  destruct (main_resolve_outcome (n :: names_) out sort verbose w)
    as (evs & Ht & Ho).
  destruct (main_resolve_script (n :: names_) out sort verbose w) as (used & Hu).
  unfold bind.
  destruct (main_resolve (n :: names_) out sort verbose w) as [o w1] eqn:E.
  cbn [fst snd] in *.
  destruct o as [loc|c|e| |]; cbn [fst snd ret];
    try (exists used, evs; split; [exact Hu|]; split; [exact Ht|];
         rewrite (fetch_event_not_written evs Ho); intros cs c0 []).
  apply main_resolve_returns in E
    as (consumed & Hs & Hc & Hoc & _).
  destruct Ho as (before & after & -> & Hb & Ha).
  exists consumed, (before ++ Wrote (ordered_cards loc) :: after).
  split; [exact Hs|]. split; [exact Ht|].
  intros cs c Hcs Hin.
  rewrite written_of_app, (fetch_event_not_written before Hb) in Hcs.
  cbn in Hcs. destruct Hcs as [<-|Hcs].
  2:{ exfalso. clear -Ha Hcs.
      induction Ha as [|e after (m & ->) _ IH]; cbn in Hcs; auto. }
  rewrite Hoc in Hin.
  pose proof (reassemble_consistent (lower_map_of (cards loc))
                match sort with
                | SortInput => n :: names_
                | SortAlpha => sorted_lower (PyDict.keys (cards loc))
                end) as Hcons.
  destruct (emitted_are_resolved _ _ _ Hcons c Hin) as (nm & _ & Hres & _).
  apply resolve_input_name_value in Hres as (k & Hk).
  apply lower_map_of_values in Hk as (k' & Hk' & _).
  rewrite Hc in Hk'. apply merge_cards_entries in Hk' as (Hpool & Hname & Htr).
  eauto.
Qed.

(** X16.  The reassembly loop keeps the order of its input: the cards it
    emits are the cards that the names of a subsequence of the input
    sequence resolve to, one card per name, in the order of these
    names. *)
Theorem reassemble_keeps_input_order :
  forall (lower_map : PyDict.dict card) (input_sequence : list string),
    exists sub,
      subseq sub input_sequence
      /\ Forall2 (resolves lower_map) sub
           (cards_of (reassemble lower_map input_sequence)).
Proof. intros lower_map input_sequence. apply reassemble_subseq. Qed.

Lemma Forall2_resolves_left (lower_map : PyDict.dict card)
      (sub : list string) (cs : list card) :
  Forall2 (resolves lower_map) sub cs ->
  Forall (fun n => exists c, resolves lower_map n c) sub.
Proof. induction 1; constructor; eauto. Qed.

(** X17.  In input order the numbers [main] prints add up: the cards
    written and the names counted as missing are together no more than
    the names requested. *)
Theorem input_order_counts_add_up :
  forall (names_ : list string) (out : bool) (verbose : bool)
         (w w' : world) (loc : main_locals),
    main_resolve names_ out SortInput verbose w = (Ret loc, w') ->
    exists written missing,
      In (Stderr (MsgWrote written (List.length names_) missing)) (trace w')
      /\ written = List.length (ordered_cards loc)
      /\ missing = List.length (ordering_unresolved loc)
      /\ written + missing <= List.length names_.
Proof.
  intros names_ out verbose w w' loc H.
  apply main_resolve_returns in H as (consumed & _ & _ & Hoc & Hmp & Hou & Hin).
  exists (List.length (ordered_cards loc)),
         (List.length (ordering_unresolved loc)).
  repeat split; [exact Hin|].
  destruct (reassemble_subseq (lower_map_of (cards loc)) names_)
    as (sub & Hsub & Hres).
  rewrite <- Hoc in Hres.
  rewrite <- (Forall2_length Hres), Hou.
  rewrite <- (filter_lengths (fun n => mem n (mapped_names loc)) names_).
  apply Nat.add_le_mono_r.
  apply subseq_filter_length; [assumption|].
  apply Forall2_resolves_left in Hres.
  rewrite Forall_forall in *. intros n Hn.
  apply mem_In. rewrite Hmp.
  apply (mapped_are_resolved _ _ _
           (reassemble_consistent (lower_map_of (cards loc)) names_)).
  split; [eapply subseq_In; eauto | now apply Hres].
Qed.

Lemma input_order_counts_add_up_witness :
  exists written missing,
    In (Stderr (MsgWrote written (List.length [fire_nice; "Island"]) missing))
      (trace (snd (main_resolve [fire_nice; "Island"] true SortInput false
                     (mkWorld [ok200 (mkBody [] [NfDict fire_nice; NfDict "Island"]
                                        false None None None);
                               ok200 (one_card fire_ice)] []))))
    /\ written = List.length [fire_ice]
    /\ missing = List.length ["Island"]
    /\ written + missing <= List.length [fire_nice; "Island"].
Proof.
  apply (input_order_counts_add_up [fire_nice; "Island"] true false
           (mkWorld [ok200 (mkBody [] [NfDict fire_nice; NfDict "Island"]
                              false None None None);
                     ok200 (one_card fire_ice)] [])
           _
           (mkLocals [fire_nice; "Island"] [("Fire // Ice", fire_ice)]
              [fire_nice; "Island"] [fire_ice] [fire_nice] ["Island"]
              [fire_nice; "Island"])).
  vm_compute. reflexivity.
Defined.

(** Every key of a mapping built by [merge_cards] resolves, through the
    lower-case mapping, to a card. *)
Lemma merged_key_resolves (pool : list card) (k : string) :
  In k (PyDict.keys (merge_cards [] pool)) ->
  exists c, resolves (lower_map_of (merge_cards [] pool)) k c.
Proof.
  intros Hk.
  assert (Hlk : In (lower k)
                  (PyDict.keys (lower_map_of (merge_cards [] pool))))
    by (apply lower_map_of_keys; eauto).
  destruct (PyDict.get (lower k) (lower_map_of (merge_cards [] pool)))
    as [c|] eqn:Eg; [|now apply get_None_keys in Eg].
  exists c. split; [unfold resolve_input_name; now rewrite Eg|].
  apply get_Some_In in Eg as (x & Hin & _).
  apply lower_map_of_values in Hin as (k' & Hin & _).
  apply merge_cards_entries in Hin as (_ & Hname & _).
  unfold card_truthy. rewrite Hname. now destruct (card_id c).
Qed.

(** X18.  With [--sort alpha] the names counted as mapped are the names
    of the returned cards, not the input names: an input name is counted
    as missing unless it is, letter for letter, the name of a card in
    the mapping. *)
Theorem alpha_order_maps_card_names :
  forall (names_ : list string) (out : bool) (verbose : bool)
         (w w' : world) (loc : main_locals),
    main_resolve names_ out SortAlpha verbose w = (Ret loc, w') ->
    (forall n, In n (mapped_names loc) <-> In n (PyDict.keys (cards loc)))
    /\ ordering_unresolved loc
       = filter (fun n => negb (mem n (PyDict.keys (cards loc)))) names_.
Proof.
  intros names_ out verbose w w' loc H.
  apply main_resolve_returns in H as (consumed & _ & Hc & _ & Hmp & Hou & _).
  assert (Hiff : forall n,
             In n (mapped_names loc) <-> In n (PyDict.keys (cards loc))).
  { intros n. rewrite Hmp.
    rewrite (mapped_are_resolved _ _ _
               (reassemble_consistent (lower_map_of (cards loc))
                  (sorted_lower (PyDict.keys (cards loc)))) n).
    rewrite sorted_lower_In. split; [tauto|].
    intros Hn. split; [assumption|].
    rewrite Hc in *. now apply merged_key_resolves. }
  split; [exact Hiff|].
  rewrite Hou. apply filter_ext. intros n. f_equal. now apply mem_ext.
Qed.

Lemma alpha_order_maps_card_names_witness :
  (forall n, In n ["Island"] <-> In n (PyDict.keys [("Island", island)]))
  /\ ["island"]
     = filter (fun n => negb (mem n (PyDict.keys [("Island", island)])))
         ["island"].
Proof.
  apply (alpha_order_maps_card_names ["island"] true false
           (mkWorld [ok200 (one_card island)] [])
           (snd (main_resolve ["island"] true SortAlpha false
                   (mkWorld [ok200 (one_card island)] [])))
           (mkLocals ["island"] [("Island", island)] [] [island] ["Island"]
              ["island"] ["island"])).
  vm_compute. reflexivity.
Defined.

(** ** [stream_cards] on any script *)

Section PageAny.
Variables (query unique : string).

(** One attempt for a page, whatever the next response is. *)
Lemma page_attempt_any url attempt w o w' :
  attempt <= 4 ->
  page_attempt query unique url attempt w = (o, w') ->
  exists evs,
    trace w' = trace w ++ evs
    /\ requests_of evs = [page_request query unique url]
    /\ yields_of evs = []
    /\ Forall (pause_ok 2 4) (pauses_of evs)
    /\ match o with
       | Ret Next =>
           exists r, script w = r :: script w'
                     /\ (rate_limited r = true
                         \/ (fails r = true /\ attempt <> 4))
       | Ret (Done p) =>
           exists r, script w = r :: script w' /\ answers r p
       | Exit _ => False
       | Raise e =>
           exists r,
             script w = r :: script w'
             /\ ((e = ValueError
                  /\ exists st ra js, r = Http st ra js
                                      /\ st = 429%Z /\ parses ra = false)
                 \/ refuses r e
                 \/ (attempt = 4 /\ fails r = true /\ e = exn_of r))
       | Stalled => script w = [] /\ script w' = []
       | OutOfFuel => False
       end.
Proof.
  intros Hle. destruct w as [s tr].
  assert (Hreq : forall (A : Type) (k1 k2 : A),
             (if (url =? API_SEARCH)%string then k1 else k2) = k1
             \/ (if (url =? API_SEARCH)%string then k1 else k2) = k2)
    by (intros; destruct (url =? API_SEARCH)%string; auto).
  unfold page_attempt, page_request.
  destruct (url =? API_SEARCH)%string;
    unfold try_except, bind, send, retry_after_header,
      resp_json, raise_for_status, print_err, sleep, emit, ret, raise;
    cbn [script trace];
    (destruct s as [|[|st ra js] rest]; cbn;
     [ intros H; inversion H; subst; eexists; repeat split; constructor
     | destruct (attempt =? 4) eqn:Ea; cbn; intros H; inversion H; subst;
       rewrite <- ?app_assoc; eexists;
       (split; [reflexivity|]); (split; [reflexivity|]);
       (split; [reflexivity|]); cbn;
       [ split; [constructor|]; apply Nat.eqb_eq in Ea; eauto 9
       | apply Nat.eqb_neq in Ea; split; [pauses_ok|]; eauto 8 ]
     | ]).
  all: assert (Hrt : retry_after_text ra
                     = match ra with Some s => s | None => "1" end)
         by reflexivity.
  all: destruct (st =? 429)%Z eqn:Hst.
  all: try (apply Z.eqb_eq in Hst; subst st; rewrite <- Hrt;
            assert (Hp : parses ra
                         = match py_int (retry_after_text ra) with
                           | Some _ => true
                           | None => false
                           end) by reflexivity;
            destruct (py_int (retry_after_text ra)) as [n|] eqn:Hn; cbn;
            [destruct (sleep_error (Z.max 1 n)) as [x|] eqn:Hx;
             unfold sleep_error in Hx; case_sleep; try discriminate;
             cbn|];
            intros H; inversion H; subst; rewrite <- ?app_assoc; eexists;
            (split; [reflexivity|]); (split; [reflexivity|]);
            (split; [reflexivity|]);
            (split; [cbn [pauses_of flat_map app];
                     first [apply Forall_nil | pauses_ok]|]);
            (eexists; split; [reflexivity|]);
            [ right; left; exists ra, js, n; repeat split; auto;
              unfold sleep_error; now rewrite Heqb
            | right; left; exists ra, js, n; repeat split; auto;
              unfold sleep_error; now rewrite Heqb, Heqb0
            | left; cbn; unfold pauses, sleeps; rewrite Hn;
              apply Z.ltb_lt; apply Z.leb_gt in Heqb0; exact Heqb0
            | left; split; [reflexivity|];
              exists 429%Z, ra, js; now repeat split ]).
  all: assert (Hne : st <> 429%Z) by now apply Z.eqb_neq.
  all: rewrite Z.geb_leb.
  all: destruct (400 <=? st)%Z eqn:H4; cbn [andb].
  all: try (destruct (st <? 600)%Z eqn:H6).
  all: try (assert (Hnot : ~ (400 <= st < 600)%Z)
              by (first [apply Z.ltb_ge in H6 | apply Z.leb_gt in H4]; lia)).
  all: assert (Hf : (((400 <=? st) && (st <? 600))%Z = true \/ js = None) ->
                    fails (Http st ra js) = true)
         by (unfold fails; rewrite Hst; cbn [negb andb];
             intros [->| ->]; [reflexivity | apply orb_true_r]).
  all: assert (He : exn_of (Http st ra js)
                    = if ((400 <=? st) && (st <? 600))%Z then HTTPError st
                      else JSONDecodeError) by reflexivity.
  all: rewrite ?H4, ?H6 in Hf, He; cbn [andb] in Hf, He.
  all: try destruct (truthy_opt _); cbn;
       destruct js as [b|]; cbn;
       try (destruct (attempt =? 4) eqn:Ea; cbn);
       intros H; inversion H; subst; rewrite <- ?app_assoc; eexists;
       (split; [reflexivity|]); (split; [reflexivity|]);
       (split; [reflexivity|]);
       (split; [try (apply Nat.eqb_neq in Ea); pauses_ok|]);
       first [ eexists; split; [reflexivity|]; exists st, ra; now repeat split
             | apply Nat.eqb_eq in Ea; eexists; split; [reflexivity|]; right;
               right; repeat split; auto
             | apply Nat.eqb_neq in Ea; eexists; split; [reflexivity|]; right;
               split; auto ].
Qed.

(** The attempts [i], ..., 4 for a page: one identical request per
    response used up, no card yielded, and the way the loop ends told by
    the responses it used up. *)
Lemma page_for_any n :
  forall i url page w o w',
    i + n = 5 ->
    page_for query unique (seq i n) url page w = (o, w') ->
    exists evs consumed,
      trace w' = trace w ++ evs
      /\ script w = consumed ++ script w'
      /\ requests_of evs
         = repeat (page_request query unique url) (requests_made o consumed)
      /\ requests_made o consumed <= n
      /\ yields_of evs = []
      /\ Forall (pause_ok 2 4) (pauses_of evs)
      /\ match o with
         | Ret page' =>
             (exists pre r p, consumed = pre ++ [r]
                              /\ Forall passes pre /\ answers r p
                              /\ page' = Some p)
             \/ (page' = page /\ List.length consumed = n
                 /\ Forall passes consumed)
         | Exit _ => False
         | Raise e =>
             exists pre r,
               consumed = pre ++ [r]
               /\ Forall passes pre
               /\ ((e = ValueError
                    /\ exists st ra js, r = Http st ra js
                                        /\ st = 429%Z /\ parses ra = false)
                   \/ refuses r e
                   \/ (List.length consumed = n /\ fails r = true
                       /\ e = exn_of r))
         | Stalled => script w' = [] /\ Forall passes consumed
         | OutOfFuel => False
         end.
Proof.
  induction n as [|n IH]; intros i url page w o w' Hi H;
    cbn [seq page_for] in H.
  - unfold ret in H. inversion H; subst.
    exists [], []. rewrite app_nil_r. cbn. repeat split; auto.
  - unfold bind in H.
    destruct (page_attempt query unique url i w) as [o1 w1] eqn:Ea.
    apply page_attempt_any in Ea as (evs1 & Ht1 & Hr1 & Hy1 & Hp1 & Ho1);
      [|lia].
    destruct o1 as [[|p]| c | e | |].
    + destruct Ho1 as (r & Hs1 & Hpass).
      assert (Hr : passes r) by (unfold passes; tauto).
      apply IH in H
        as (evs2 & consumed2 & Ht2 & Hs2 & Hr2 & Hn2 & Hy2 & Hp2 & Ho2);
        [|lia].
      exists (evs1 ++ evs2), (r :: consumed2).
      split; [now rewrite Ht2, Ht1, app_assoc|].
      split; [now rewrite Hs1, Hs2|].
      split; [rewrite requests_of_app, Hr1, Hr2; now destruct o|].
      split; [destruct o; cbn in *; lia|].
      split; [now rewrite yields_of_app, Hy1, Hy2|].
      split; [rewrite pauses_of_app; now apply Forall_app|].
      destruct o as [page'| c | e | |].
      * destruct Ho2 as [(pre & r' & p & -> & Hpre & Ha & ->)
                        |(-> & Hlen & Hall)].
        -- left. exists (r :: pre), r', p. repeat split; auto.
        -- right. repeat split; [cbn; now rewrite Hlen | now constructor].
      * destruct Ho2.
      * destruct Ho2 as (pre & r' & -> & Hpre & Hcase).
        exists (r :: pre), r'. split; [reflexivity|].
        split; [now constructor|].
        destruct Hcase as [Hv|[Hre|(Hlen & Hf & He)]];
          [now left | now right; left | right; right].
        repeat split; auto. cbn. cbn in Hlen. now rewrite Hlen.
      * destruct Ho2 as [Hend Hall]. split; [assumption | now constructor].
      * destruct Ho2.
    + destruct Ho1 as (r & Hs1 & Ha).
      unfold ret in H. inversion H; subst.
      exists evs1, [r]. cbn [requests_made List.length repeat].
      repeat split; auto; try lia.
      left. exists [], r, p. repeat split; auto.
    + destruct Ho1.
    + destruct Ho1 as (r & Hs1 & Hcase).
      inversion H; subst.
      exists evs1, [r]. cbn [requests_made List.length repeat].
      repeat split; auto; try lia.
      exists [], r. split; [reflexivity|]. split; [constructor|].
      destruct Hcase as [Hv|[Hre|(Hlast & Hf & He)]];
        [now left | now right; left | right; right].
      repeat split; auto. lia.
    + destruct Ho1 as [Hs1 Hs1'].
      inversion H; subst.
      exists evs1, []. cbn [requests_made List.length repeat].
      rewrite Hs1, Hs1'. repeat split; auto; try lia.
    + destruct Ho1.
Qed.

Lemma page_attempt_forward url attempt r rest tr :
  attempt <= 4 ->
  exists evs,
    requests_of evs = [page_request query unique url]
    /\ yields_of evs = []
    /\ ((rate_limited r = true \/ (fails r = true /\ attempt <> 4) ->
         page_attempt query unique url attempt (mkWorld (r :: rest) tr)
         = (Ret Next, mkWorld rest (tr ++ evs)))
        /\ (forall p, answers r p ->
                      page_attempt query unique url attempt
                        (mkWorld (r :: rest) tr)
                      = (Ret (Done p), mkWorld rest (tr ++ evs)))
        /\ (fails r = true -> attempt = 4 ->
            page_attempt query unique url attempt (mkWorld (r :: rest) tr)
            = (Raise (exn_of r), mkWorld rest (tr ++ evs)))).
Proof.
  intros Hle.
  destruct (page_attempt query unique url attempt (mkWorld (r :: rest) tr))
    as [o [s1 t1]] eqn:E.
  pose proof E as E'.
  apply page_attempt_any in E' as (evs & Ht & Hr & Hy & _ & Ho); [|exact Hle].
  cbn [script trace] in Ht, Ho. subst t1.
  exists evs. split; [exact Hr|]. split; [exact Hy|].
  assert (Hs : forall r', r :: rest = r' :: s1 -> r' = r /\ s1 = rest)
    by (intros r' H; inversion H; auto).
  assert (Hrl : rate_limited r = true -> fails r = true -> False).
  { destruct r as [|st ra js]; [discriminate|]. cbn. intros H1 H2.
    apply andb_true_iff in H1 as [Hst _]. rewrite Hst in H2. discriminate. }
  split; [|split].
  - intros Hpass.
    assert (Hp : passes r) by (unfold passes; tauto).
    destruct o as [[|p]| c | e | |].
    + destruct Ho as (r' & Hr' & _). apply Hs in Hr' as [_ ->]. reflexivity.
    + destruct Ho as (r' & Hr' & Ha). apply Hs in Hr' as [-> _].
      destruct (passes_not_answers _ _ Hp Ha).
    + destruct Ho.
    + destruct Ho as (r' & Hr' & [(_ & st & ra & js & -> & Hst & Hpa)
                                 |[Hre|(Hlast & Hf & _)]]);
        apply Hs in Hr' as [Hr' _].
      * subst r. rewrite (passes_parses _ _ _ Hp Hst) in Hpa. discriminate.
      * subst r'. destruct (passes_not_refuses _ _ Hp Hre).
      * subst r'. destruct Hpass as [Hrl'|[_ Hnl]]; [|contradiction].
        destruct (Hrl Hrl' Hf).
    + destruct Ho as [Ho _]. discriminate.
    + destruct Ho.
  - intros p Ha.
    destruct o as [[|p']| c | e | |].
    + destruct Ho as (r' & Hr' & Hpass). apply Hs in Hr' as [-> _].
      assert (Hp : passes r) by (unfold passes; tauto).
      destruct (passes_not_answers _ _ Hp Ha).
    + destruct Ho as (r' & Hr' & Ha'). apply Hs in Hr' as [-> ->].
      destruct Ha as (st & ra & -> & _), Ha' as (st' & ra' & Heq & _).
      inversion Heq; subst. reflexivity.
    + destruct Ho.
    + destruct Ho as (r' & Hr' & [(_ & st & ra & js & -> & Hst & _)
                                 |[(ra & js & n & -> & _)|(_ & Hf & _)]]);
        apply Hs in Hr' as [Hr' _].
      * subst r. destruct Ha as (st' & ra' & Heq & Hne & _).
        inversion Heq; subst. contradiction.
      * subst r. destruct Ha as (st' & ra' & Heq & Hne & _).
        inversion Heq; subst. contradiction.
      * subst r'. assert (Hp : passes r) by (unfold passes; tauto).
        destruct (passes_not_answers _ _ Hp Ha).
    + destruct Ho as [Ho _]. discriminate.
    + destruct Ho.
  - intros Hf Hlast.
    assert (Hp : passes r) by (unfold passes; tauto).
    destruct o as [[|p']| c | e | |].
    + destruct Ho as (r' & Hr' & [Hrl'|[_ Hnl]]); [|contradiction].
      apply Hs in Hr' as [-> _]. destruct (Hrl Hrl' Hf).
    + destruct Ho as (r' & Hr' & Ha). apply Hs in Hr' as [-> _].
      destruct (passes_not_answers _ _ Hp Ha).
    + destruct Ho.
    + destruct Ho as (r' & Hr' & [(_ & st & ra & js & -> & Hst & Hpa)
                                 |[Hre|(_ & _ & ->)]]);
        apply Hs in Hr' as [Hr' Hs1].
      * subst r. rewrite (passes_parses _ _ _ Hp Hst) in Hpa. discriminate.
      * subst r'. destruct (passes_not_refuses _ _ Hp Hre).
      * subst. reflexivity.
    + destruct Ho as [Ho _]. discriminate.
    + destruct Ho.
Qed.

(** The attempts [i], ..., 4 on responses that send the loop on,
    followed by one more response [r]. *)
Lemma page_for_forward pre :
  forall i n url page r rest tr,
    i + n = 5 ->
    Forall passes pre ->
    List.length pre < n ->
    exists evs,
      requests_of evs
      = repeat (page_request query unique url) (S (List.length pre))
      /\ yields_of evs = []
      /\ (forall p, answers r p ->
                    page_for query unique (seq i n) url page
                      (mkWorld (pre ++ r :: rest) tr)
                    = (Ret (Some p), mkWorld rest (tr ++ evs)))
      /\ (S (List.length pre) = n -> fails r = true ->
          page_for query unique (seq i n) url page
            (mkWorld (pre ++ r :: rest) tr)
          = (Raise (exn_of r), mkWorld rest (tr ++ evs))).
Proof.
  induction pre as [|p0 pre IH]; intros i n url page r rest tr Hi Hall Hlen;
    (destruct n as [|n]; [cbn in Hlen; lia|]); cbn [seq page_for app].
  - destruct (page_attempt_forward url i r rest tr)
      as (evs & Hr & Hy & _ & Ha & He); [lia|].
    exists evs. split; [exact Hr|]. split; [exact Hy|]. split.
    + intros p Hp. unfold bind. now rewrite (Ha p Hp).
    + intros Hlast Hf. unfold bind. rewrite He; auto. cbn in Hlast. lia.
  - apply Forall_cons_iff in Hall as [Hp Hall]. cbn [List.length] in *.
    destruct (page_attempt_forward url i p0 (pre ++ r :: rest) tr)
      as (evs1 & Hr1 & Hy1 & Hn1 & _); [lia|].
    destruct (IH (S i) n url page r rest (tr ++ evs1))
      as (evs2 & Hr2 & Hy2 & Ha2 & He2); [lia | assumption | lia |].
    assert (Hgo : page_attempt query unique url i
                    (mkWorld (p0 :: pre ++ r :: rest) tr)
                  = (Ret Next, mkWorld (pre ++ r :: rest) (tr ++ evs1))).
    { apply Hn1. destruct Hp as [Hp|Hp]; [now left|right].
      split; [assumption|lia]. }
    exists (evs1 ++ evs2).
    split; [rewrite requests_of_app, Hr1, Hr2; reflexivity|].
    split; [now rewrite yields_of_app, Hy1, Hy2|].
    rewrite app_assoc. split.
    + intros p Hb. unfold bind at 1. rewrite Hgo. now apply Ha2.
    + intros Hlast Hf. unfold bind at 1. rewrite Hgo.
      apply He2; [lia|assumption].
Qed.
End PageAny.

(** X19.  The first page of [stream_cards] is the first body the
    provider gives: after at most four responses that are 429s or
    failures, a response with a JSON body and a status that is neither
    429 nor from 400 to 599 is taken as the page, and its cards are
    yielded in order.  The generator then stops without another request
    when the page does not say [has_more], has no [next_page], or has an
    empty one. *)
Theorem stream_cards_first_page_after_retries :
  forall (query unique : string) (pre : list response) (r : response)
         (p : body) (rest : list response) (tr : list event),
    Forall passes pre ->
    List.length pre <= 4 ->
    answers r p ->
    next_url p = None ->
    exists evs,
      stream_cards query unique (mkWorld (pre ++ r :: rest) tr)
      = (Ret tt, mkWorld rest (tr ++ evs))
      /\ requests_of evs
         = repeat (page_request query unique API_SEARCH) (S (List.length pre))
      /\ yields_of evs = data p.
Proof.
  intros query unique pre r p rest tr Hpre Hlen Ha Hstop.
  destruct (page_for_forward query unique pre 0 5 API_SEARCH None r rest tr)
    as (evs & Hr & Hy & Hret & _); [reflexivity | assumption | lia |].
  specialize (Hret p Ha).
  exists (evs ++ map Yielded (data p)).
  split; [|split].
  - unfold stream_cards. cbn [script]. rewrite length_app. cbn [List.length].
    rewrite Nat.add_succ_r.
    cbn [stream_loop]. change (truthy API_SEARCH) with true. cbv iota.
    change (py_range 0 5 1) with (seq 0 5).
    unfold bind at 1. rewrite Hret.
    unfold bind. rewrite yield_all_trace. cbn [script trace].
    unfold next_url in Hstop.
    destruct (if has_more p then next_page p else None) as [u|];
      [destruct (truthy u); [discriminate|]|];
      unfold ret; now rewrite app_assoc.
  - rewrite requests_of_app, Hr, requests_of_map_Yielded. apply app_nil_r.
  - rewrite yields_of_app, Hy, yields_of_map_Yielded. reflexivity.
Qed.

Lemma stream_cards_first_page_after_retries_witness :
  exists evs,
    stream_cards "t:land" "cards"
      (mkWorld ([rate_limit; ConnFail]
                ++ ok200 (mkBody [island; forest] [] true (Some "") None None)
                :: [ok200 page3]) [])
    = (Ret tt, mkWorld [ok200 page3] ([] ++ evs))
    /\ requests_of evs
       = repeat (page_request "t:land" "cards" API_SEARCH)
           (S (List.length [rate_limit; ConnFail]))
    /\ yields_of evs
       = data (mkBody [island; forest] [] true (Some "") None None).
Proof.
  apply (stream_cards_first_page_after_retries "t:land" "cards"
           [rate_limit; ConnFail]
           (ok200 (mkBody [island; forest] [] true (Some "") None None))
           (mkBody [island; forest] [] true (Some "") None None)
           [ok200 page3] []).
  - repeat (apply Forall_cons; [vm_compute; auto|]). apply Forall_nil.
  - cbn. lia.
  - exists 200%Z, None. repeat split; lia.
  - reflexivity.
Defined.

Lemma fails_exn_of (r : response) :
  fails r = true -> is_RequestException (exn_of r) = true.
Proof.
  destruct r as [|st ra js]; [reflexivity|]. cbn.
  now destruct ((400 <=? st)%Z && (st <? 600)%Z).
Qed.

(** X20.  When the first four responses for a page were 429s or
    failures and the fifth is a failure, [stream_cards] lets the
    exception of the fifth propagate - [HTTPError] for a status from 400
    to 599, [JSONDecodeError] for a body that is not JSON,
    [RequestException] for a network failure - after five requests, and
    yields nothing; unlike [fetch_batch] it does not end the process. *)
Theorem stream_cards_fifth_failure_raises :
  forall (query unique : string) (pre : list response) (r : response)
         (rest : list response) (tr : list event),
    Forall passes pre ->
    List.length pre = 4 ->
    fails r = true ->
    exists evs,
      stream_cards query unique (mkWorld (pre ++ r :: rest) tr)
      = (Raise (exn_of r), mkWorld rest (tr ++ evs))
      /\ is_RequestException (exn_of r) = true
      /\ requests_of evs = repeat (page_request query unique API_SEARCH) 5
      /\ yields_of evs = [].
Proof.
  intros query unique pre r rest tr Hpre Hlen Hf.
  destruct (page_for_forward query unique pre 0 5 API_SEARCH None r rest tr)
    as (evs & Hr & Hy & _ & Hraise); [reflexivity | assumption | lia |].
  exists evs. rewrite Hlen in Hr.
  split; [|auto using fails_exn_of].
  unfold stream_cards. cbn [stream_loop]. change (truthy API_SEARCH) with true.
  cbv iota. change (py_range 0 5 1) with (seq 0 5).
  unfold bind at 1. rewrite Hraise; [reflexivity | lia | assumption].
Qed.

Lemma stream_cards_fifth_failure_raises_witness :
  exists evs,
    stream_cards "t:land" "cards"
      (mkWorld ([rate_limit; ConnFail; rate_limit; Http 200 None None]
                ++ Http 404 None (Some nothing_found) :: [ok200 page3]) [])
    = (Raise (exn_of (Http 404 None (Some nothing_found))),
       mkWorld [ok200 page3] ([] ++ evs))
    /\ is_RequestException (exn_of (Http 404 None (Some nothing_found))) = true
    /\ requests_of evs = repeat (page_request "t:land" "cards" API_SEARCH) 5
    /\ yields_of evs = [].
Proof.
  apply (stream_cards_fifth_failure_raises "t:land" "cards"
           [rate_limit; ConnFail; rate_limit; Http 200 None None]
           (Http 404 None (Some nothing_found)) [ok200 page3] []).
  - repeat (apply Forall_cons; [vm_compute; auto|]). apply Forall_nil.
  - reflexivity.
  - reflexivity.
Defined.

(** ** The events, endings and yields of [stream_cards] *)

Lemma all_endings_try_caught {A : Type} (P : ending -> Prop) (m : M A)
      (h : exn -> M A) :
  all_endings (or_caught P) m ->
  (forall e, is_RequestException e = true -> all_endings P (h e)) ->
  all_endings P (try_except m h).
Proof.
  intros Hm Hh w. unfold try_except. specialize (Hm w).
  destruct (m w) as [[a| |e| |] w1]; cbn [fst ending_of] in *;
    try (destruct Hm as [Hm|(x & Hx & _)]; [exact Hm|discriminate]).
  destruct (is_RequestException e) eqn:Ee.
  - now apply Hh.
  - destruct Hm as [Hm|(x & Hx & Hc)]; [exact Hm|].
    inversion Hx; subst. congruence.
Qed.

Section StreamInvariants.
Variables (query unique : string).

Lemma page_attempt_events url attempt :
  truthy url = true ->
  attempt <= 4 ->
  all_events (stream_event query unique)
    (page_attempt query unique url attempt).
Proof.
  intros Hurl Hle. unfold page_attempt. by_structure; cbn; eauto.
  - exists url. unfold page_request.
    match goal with H : (_ =? _)%string = true |- _ => rewrite H end. auto.
  - exists url. unfold page_request.
    match goal with H : (_ =? _)%string = false |- _ => rewrite H end. auto.
  - lia.
  - split; [reflexivity|].
    match goal with H : (_ =? _) = false |- _ => apply Nat.eqb_neq in H end.
    lia.
Qed.

Lemma page_for_events n :
  forall i url page,
    truthy url = true ->
    i + n = 5 ->
    all_events (stream_event query unique)
      (page_for query unique (seq i n) url page).
Proof.
  induction n as [|n IH]; intros i url page Hurl Hi; cbn [seq page_for].
  - apply all_events_ret.
  - apply all_events_bind; [apply page_attempt_events; [assumption|lia]|].
    intros [|p]; [apply IH; [assumption|lia] | apply all_events_ret].
Qed.

Lemma yield_all_events cs :
  all_events (stream_event query unique) (yield_all cs).
Proof.
  induction cs as [|c cs IH]; cbn [yield_all]; [apply all_events_ret|].
  apply all_events_bind; [now apply all_events_emit | intros _; exact IH].
Qed.

Lemma stream_loop_events fuel :
  forall url page,
    all_events (stream_event query unique)
      (stream_loop query unique fuel url page).
Proof.
  induction fuel as [|fuel IH]; intros url page; cbn [stream_loop].
  - intros w. exists []. now rewrite app_nil_r.
  - destruct url as [u|]; [|apply all_events_ret].
    destruct (truthy u) eqn:Hu; [|apply all_events_ret].
    apply all_events_bind.
    + change (py_range 0 5 1) with (seq 0 5). now apply page_for_events.
    + intros [p|]; [|apply all_events_raise].
      apply all_events_bind; [apply yield_all_events|]. intros _. apply IH.
Qed.

Lemma page_attempt_endings url attempt :
  all_endings stream_ending (page_attempt query unique url attempt).
Proof.
  unfold page_attempt. apply all_endings_try_caught.
  - by_structure; unfold or_caught; cbn; eauto 6.
  - intros e He. by_structure; cbn; auto.
Qed.

Lemma page_for_endings attempts :
  forall url page,
    all_endings stream_ending (page_for query unique attempts url page).
Proof.
  induction attempts as [|a attempts IH]; intros url page; cbn [page_for].
  - now apply all_endings_ret.
  - apply all_endings_bind; [apply page_attempt_endings|].
    intros [|p]; [apply IH | now apply all_endings_ret].
Qed.

Lemma yield_all_endings (P : ending -> Prop) cs :
  P Returned -> all_endings P (yield_all cs).
Proof.
  intros HP. induction cs as [|c cs IH]; cbn [yield_all];
    [now apply all_endings_ret|].
  apply all_endings_bind; [now apply all_endings_emit | intros _; exact IH].
Qed.

Lemma stream_loop_endings fuel :
  forall url page,
    all_endings (fun e => stream_ending e \/ e = Unbounded)
      (stream_loop query unique fuel url page).
Proof.
  induction fuel as [|fuel IH]; intros url page; cbn [stream_loop].
  - intros w. now right.
  - destruct url as [u|]; [|apply all_endings_ret; now left].
    destruct (truthy u); [|apply all_endings_ret; now left].
    apply all_endings_bind.
    + eapply all_endings_weaken; [|apply page_for_endings]. now left.
    + intros [p|]; [|apply all_endings_raise; left; cbn; auto].
      apply all_endings_bind; [apply yield_all_endings; now left|].
      intros _. apply IH.
Qed.

Lemma returned_answer (pre : list response) (r : response) (p : body) :
  answers r p -> incl (data p) (returned (pre ++ [r])).
Proof.
  intros Ha c Hc. rewrite returned_app. apply in_app_iff. right.
  unfold returned. cbn [flat_map]. apply answers_answer_of in Ha.
  rewrite Ha, app_nil_r. exact Hc.
Qed.

(** Every card the loop yields is a card of the page it starts with or
    of a body it took from a response. *)
Lemma stream_loop_yields fuel :
  forall url page w pool o w',
    (forall p, page = Some p -> incl (data p) pool) ->
    stream_loop query unique fuel url page w = (o, w') ->
    exists evs consumed,
      trace w' = trace w ++ evs
      /\ script w = consumed ++ script w'
      /\ incl (yields_of evs) (pool ++ returned consumed).
Proof.
  induction fuel as [|fuel IH]; intros url page w pool o w' Hpage H;
    cbn [stream_loop] in H.
  - inversion H; subst. exists [], []. cbn. rewrite app_nil_r.
    repeat split; auto using incl_nil_l.
  - assert (Hstop : ret tt w = (o, w') ->
               exists evs consumed,
                 trace w' = trace w ++ evs /\ script w = consumed ++ script w'
                 /\ incl (yields_of evs) (pool ++ returned consumed)).
    { intros Hr. inversion Hr; subst. exists [], []. cbn. rewrite app_nil_r.
      repeat split; auto using incl_nil_l. }
    destruct url as [u|]; [|now apply Hstop].
    destruct (truthy u); [|now apply Hstop]. clear Hstop.
    unfold bind at 1 in H. change (py_range 0 5 1) with (seq 0 5) in H.
    destruct (page_for query unique (seq 0 5) u page w) as [o1 w1] eqn:E.
    apply page_for_any in E
      as (evs1 & c1 & Ht1 & Hs1 & _ & _ & Hy1 & _ & Ho); [|reflexivity].
    assert (Hend : (o, w') = (o, w1) ->
               exists evs consumed,
                 trace w' = trace w ++ evs /\ script w = consumed ++ script w'
                 /\ incl (yields_of evs) (pool ++ returned consumed)).
    { intros Heq. inversion Heq; subst. exists evs1, c1. rewrite Hy1.
      repeat split; auto using incl_nil_l. }
    destruct o1 as [[p|]| c | e | |];
      try (inversion H; subst; now apply Hend).
    clear Hend. unfold bind in H. rewrite yield_all_trace in H.
    set (w2 := mkWorld (script w1) (trace w1 ++ map Yielded (data p))) in *.
    assert (Hp : incl (data p) (pool ++ returned c1)).
    { destruct Ho as [(pre & r & p' & -> & _ & Ha & Heq)|(Heq & _)].
      - inversion Heq; subst p'. apply incl_appr. now apply returned_answer.
      - apply incl_appl. now apply Hpage. }
    apply (IH _ _ _ (pool ++ returned c1)) in H
      as (evs2 & c2 & Ht2 & Hs2 & Hy2).
    2:{ intros p' Heq. inversion Heq; subst. exact Hp. }
    exists (evs1 ++ map Yielded (data p) ++ evs2), (c1 ++ c2).
    split; [|split].
    + rewrite Ht2. unfold w2. cbn [trace]. rewrite Ht1.
      now rewrite <- !app_assoc.
    + rewrite <- app_assoc, <- Hs2. exact Hs1.
    + rewrite !yields_of_app, Hy1, yields_of_map_Yielded. cbn [app].
      rewrite returned_app, app_assoc.
      apply incl_app; [now apply incl_appl | exact Hy2].
Qed.
End StreamInvariants.

(** X21.  Whatever the provider answers, every request of
    [stream_cards] is a GET for a non-empty URL - with the query
    parameters exactly when the URL is the search endpoint -, every pause
    after a 429 lasts at least one second, every other pause is
    [2 ** attempt] for an attempt from 0 to 3, the only lines on
    [stderr] are error reports of the provider, and nothing is written. *)
Theorem stream_cards_requests_and_pauses :
  forall (query unique : string) (w : world),
    exists evs,
      trace (snd (stream_cards query unique w)) = trace w ++ evs
      /\ Forall (stream_event query unique) evs.
Proof.
  intros query unique w. unfold stream_cards. apply stream_loop_events.
Qed.

(** X22.  [stream_cards] never ends the process and its loop is never
    cut short: it is exhausted, or waits for a response, or raises - an
    exception of requests, the [ValueError] of [int()], the
    [OverflowError] or [OSError] of [time.sleep] on a [Retry-After] it
    refuses, or the [UnboundLocalError] of [page], and nothing else. *)
Theorem stream_cards_endings :
  forall (query unique : string) (w : world),
    match fst (stream_cards query unique w) with
    | Ret _ => True
    | Exit _ => False
    | Raise x =>
        is_RequestException x = true
        \/ x = ValueError \/ x = OverflowError \/ x = OSError
        \/ x = UnboundLocalError "page"
    | Stalled => True
    | OutOfFuel => False
    end.
Proof.
  intros query unique w.
  pose proof (stream_cards_total query unique w) as Htotal.
  pose proof (stream_loop_endings query unique (S (List.length (script w)))
                (Some API_SEARCH) None w) as He.
  unfold stream_cards in *.
  destruct (fst (stream_loop query unique (S (List.length (script w)))
                   (Some API_SEARCH) None w)); cbn in He;
    try (destruct He as [He|He]; [exact He | discriminate]); auto.
Qed.

(** X23.  Every card [stream_cards] yields is a card of a body it took
    from a response it used up - a page may be yielded again, but no card
    comes from elsewhere. *)
Theorem stream_cards_yields_returned_cards :
  forall (query unique : string) (w : world),
    exists evs consumed,
      trace (snd (stream_cards query unique w)) = trace w ++ evs
      /\ script w = consumed ++ script (snd (stream_cards query unique w))
      /\ forall c, In c (yields_of evs) -> In c (returned consumed).
Proof.
  intros query unique w. unfold stream_cards.
  destruct (stream_loop query unique (S (List.length (script w)))
              (Some API_SEARCH) None w) as [o w'] eqn:E.
  apply (stream_loop_yields _ _ _ _ _ _ []) in E
    as (evs & consumed & Ht & Hs & Hy); [|discriminate].
  exists evs, consumed. auto.
Qed.

(** ** The list of missing names *)

Lemma set_update_fresh (b : list string) :
  forall a,
    NoDup b ->
    set_update a b = a ++ filter (fun n => negb (mem n a)) b.
Proof.
  unfold set_update.
  induction b as [|x b IH]; intros a Hnd; cbn [fold_left filter].
  - now rewrite app_nil_r.
  - apply NoDup_cons_iff in Hnd as [Hx Hnd]. rewrite IH by assumption.
    unfold set_add. destruct (mem x a) eqn:Hm; cbn [negb]; [reflexivity|].
    rewrite <- app_assoc. cbn [app]. do 2 f_equal.
    apply filter_ext_in. intros n Hn. f_equal.
    unfold mem. rewrite existsb_app. cbn [existsb]. rewrite orb_false_r.
    destruct (n =? x)%string eqn:Enx; [|apply orb_false_r].
    apply String.eqb_eq in Enx. subst. contradiction.
Qed.

(** X24.  The list of missing names [main] prints last is made of the
    unresolved names of [fetch_all], in their sorted order, followed by
    the input names that were not mapped and are not among them, in
    input order. *)
Theorem missing_names_order :
  forall (names_ : list string) (out : bool) (sort : sort_mode)
         (verbose : bool) (w w' : world) (loc : main_locals),
    NoDup names_ ->
    main_resolve names_ out sort verbose w = (Ret loc, w') ->
    combined_unresolved loc
    = unresolved_names loc
      ++ filter (fun n => negb (mem n (unresolved_names loc)))
           (ordering_unresolved loc).
Proof.
  intros names_ out sort verbose w w' loc Hnd H.
  apply main_resolve_inv in H
    as (w1 & w2 & Hfa & _ & _ & _ & Hou & Hcu).
  apply fetch_all_returns in Hfa as (_ & _ & _ & Hun & _).
  rewrite Hcu. unfold combine_unresolved.
  rewrite (combine_unresolved_fold _ []). cbn [fst].
  unfold set_update at 1. rewrite fold_left_app.
  fold (set_update [] (unresolved_names loc)).
  rewrite (set_update_fresh (unresolved_names loc) [] Hun).
  cbn [app]. rewrite filter_not_in_nil.
  fold (set_update (unresolved_names loc) (ordering_unresolved loc)).
  apply set_update_fresh. rewrite Hou. now apply NoDup_filter.
Qed.

Lemma missing_names_order_witness :
  [fire_nice; "Island"]
  = [fire_nice; "Island"]
    ++ filter (fun n => negb (mem n [fire_nice; "Island"])) ["Island"].
Proof.
  apply (missing_names_order [fire_nice; "Island"] true SortInput false
           (mkWorld [ok200 (mkBody [] [NfDict fire_nice; NfDict "Island"]
                              false None None None);
                     ok200 (one_card fire_ice)] [])
           (snd (main_resolve [fire_nice; "Island"] true SortInput false
                   (mkWorld [ok200 (mkBody [] [NfDict fire_nice; NfDict "Island"]
                                      false None None None);
                             ok200 (one_card fire_ice)] [])))
           (mkLocals [fire_nice; "Island"] [("Fire // Ice", fire_ice)]
              [fire_nice; "Island"] [fire_ice] [fire_nice] ["Island"]
              [fire_nice; "Island"])).
  - repeat constructor; cbn; intuition discriminate.
  - vm_compute. reflexivity.
Defined.

(** ** The pause a 429 asks for *)

Lemma page_for_cons query unique attempt attempts url page :
  page_for query unique (attempt :: attempts) url page
  = (c <- page_attempt query unique url attempt ;;
     match c with
     | Next => page_for query unique attempts url page
     | Done p => ret (Some p)
     end).
Proof. reflexivity. Qed.

(** X25.  A 429 whose [Retry-After] reads as the integer [n] - or
    without the header, when [n] is 1 -, with [max(1, n)] a number of
    seconds that [time.sleep] takes, makes [fetch_batch] and
    [stream_cards] pause [max(1, n)] seconds and send the same request
    again; a zero or negative value still costs one second. *)
Theorem retry_after_is_honoured :
  forall (names_ : list string) (query unique : string)
         (ra : option string) (js : option body) (n : Z) (b : body)
         (rest : list response) (tr : list event),
    py_int (retry_after_text ra) = Some n ->
    sleeps (Z.max 1 n) = true ->
    fetch_batch names_ (mkWorld (Http 429 ra js :: ok200 b :: rest) tr)
    = (Ret b,
       mkWorld rest
         (tr ++ [Sent (Post API_COLLECTION names_);
                 Slept (RetryAfter (Z.max 1 n));
                 Sent (Post API_COLLECTION names_)]))
    /\ (next_url b = None ->
        stream_cards query unique
          (mkWorld (Http 429 ra js :: ok200 b :: rest) tr)
        = (Ret tt,
           mkWorld rest
             (tr ++ [Sent (page_request query unique API_SEARCH);
                     Slept (RetryAfter (Z.max 1 n));
                     Sent (page_request query unique API_SEARCH)]
                 ++ map Yielded (data b)))).
Proof.
  intros names_ query unique ra js n b rest tr Hn Hsl. split.
  - unfold fetch_batch, fetch_batch_with.
    change (py_range 0 (4 + 1) 1) with [0; 1; 2; 3; 4].
    cbn [fetch_batch_for]. unfold bind at 1.
    rewrite (fetch_batch_attempt_pause names_ 4 (3 # 2) 0 ra js n _ _ Hn Hsl).
    unfold bind at 1.
    change (fetch_batch_attempt names_ 4 (3 # 2) 1
              (mkWorld (ok200 b :: rest)
                 (tr ++ [Sent (Post API_COLLECTION names_);
                         Slept (RetryAfter (Z.max 1 n))])))
      with (Ret (Done b),
            mkWorld rest
              ((tr ++ [Sent (Post API_COLLECTION names_);
                       Slept (RetryAfter (Z.max 1 n))])
               ++ [Sent (Post API_COLLECTION names_)])).
    unfold ret. now rewrite <- app_assoc.
  - intros Hstop. unfold stream_cards. cbn [script List.length stream_loop].
    change (truthy API_SEARCH) with true. cbv iota.
    change (py_range 0 5 1) with [0; 1; 2; 3; 4].
    unfold bind at 1. rewrite page_for_cons. unfold bind at 1.
    rewrite (page_attempt_pause query unique API_SEARCH 0 ra js n _ _ Hn Hsl).
    rewrite page_for_decoded.
    unfold bind. rewrite yield_all_trace. cbn [script trace].
    unfold next_url in Hstop.
    destruct (if has_more b then next_page b else None) as [u|];
      [destruct (truthy u); [discriminate|]|];
      unfold ret; now rewrite <- !app_assoc.
Qed.

Lemma retry_after_is_honoured_witness :
  fetch_batch ["Island"]
    (mkWorld [Http 429 (Some " -5 ") None; ok200 (one_card island)] [])
  = (Ret (one_card island),
     mkWorld []
       ([] ++ [Sent (Post API_COLLECTION ["Island"]);
               Slept (RetryAfter (Z.max 1 (-5)));
               Sent (Post API_COLLECTION ["Island"])])).
Proof.
  apply (retry_after_is_honoured ["Island"] "t:land" "cards"
           (Some " -5 ") None (-5)%Z (one_card island) [] []);
    reflexivity.
Defined.

(** ** The query of [scryfall.py] *)

Lemma truthy_cons (c : ascii) (s : string) : truthy (String c s) = true.
Proof. reflexivity. Qed.

Lemma truthy_append (p s : string) :
  truthy p = true -> truthy (p ++ s)%string = true.
Proof. destruct p as [|c p]; [discriminate | reflexivity]. Qed.

Lemma join_truthy (sep : string) (parts : list string) :
  Forall (fun p => truthy p = true) parts ->
  truthy (join sep parts)
  = match parts with [] => false | _ :: _ => true end.
Proof.
  intros H. destruct H as [|p ps Hp _]; [reflexivity|]. cbn [join].
  destruct ps; [exact Hp | now apply truthy_append].
Qed.

Lemma filter_nonblank_exists (lines : list string) :
  match filter (fun line => truthy (strip line)) lines with
  | [] => false
  | _ :: _ => true
  end
  = existsb (fun line => truthy (strip line)) lines.
Proof.
  induction lines as [|l lines IH]; [reflexivity|]. cbn [filter existsb].
  destruct (truthy (strip l)); [reflexivity | exact IH].
Qed.

Lemma file_query_truthy (lines : list string) :
  truthy (file_query lines)
  = existsb (fun line => truthy (strip line)) lines.
Proof.
  unfold file_query. rewrite join_truthy.
  - rewrite <- filter_nonblank_exists.
    now destruct (filter (fun line => truthy (strip line)) lines).
  - apply Forall_forall. intros p Hp.
    apply in_map_iff in Hp as (l & <- & Hl).
    now apply filter_In in Hl as [_ Hl].
Qed.

(** X26.  The query file of [scryfall.py] replaces the [-q] query
    exactly when it has a line that is not blank; its query is the
    stripped non-blank lines joined by single spaces, so blank lines and
    the white space around a line never matter; without the option the
    [-q] query is kept, and an unreadable file ends the run. *)
Theorem query_file_overrides :
  forall (query : string) (lines : list string),
    select_query query (Some (Some lines))
    = Some (if existsb (fun line => truthy (strip line)) lines
            then file_query lines else query)
    /\ file_query (map strip (filter (fun line => truthy (strip line)) lines))
       = file_query lines
    /\ select_query query None = Some query
    /\ select_query query (Some None) = None.
Proof.
  intros query lines. split; [|split; [|split; reflexivity]].
  - unfold select_query. now rewrite file_query_truthy.
  - unfold file_query. f_equal.
    induction lines as [|l lines IH]; [reflexivity|]. cbn [filter].
    destruct (truthy (strip l)) eqn:Hl; [|exact IH].
    cbn [map filter]. rewrite strip_idempotent, Hl. cbn [map].
    now rewrite strip_idempotent, IH.
Qed.

(** ** Full batches *)

Lemma range_from_nth fuel :
  forall i stop step k j,
    nth_error (range_from fuel i stop step) k = Some j ->
    j = i + k * step /\ j < stop.
Proof.
  induction fuel as [|fuel IH]; intros i stop step k j H; cbn [range_from] in H.
  - destruct k; discriminate.
  - destruct (i <? stop) eqn:Hlt; [|destruct k; discriminate].
    apply Nat.ltb_lt in Hlt. destruct k as [|k]; cbn [nth_error] in H.
    + inversion H; subst. lia.
    + apply IH in H as [-> Hj]. cbn [Nat.mul]. lia.
Qed.

(** X27.  [chunked] cuts at multiples of [size]: its batch number [k],
    counting from 0, is [seq[k * size : k * size + size]], and every
    batch but the last holds exactly [size] names. *)
Theorem chunked_full_batches :
  forall (seq : list string) (size k : nat) (c : list string),
    0 < size ->
    nth_error (chunked seq size) k = Some c ->
    c = slice seq size (k * size)
    /\ (S k < List.length (chunked seq size) -> List.length c = size).
Proof.
  intros seq size k c Hsize H. unfold chunked in *.
  rewrite nth_error_map in H.
  destruct (nth_error (py_range 0 (List.length seq) size) k) as [j|] eqn:Ej;
    [|discriminate].
  inversion H; subst c. clear H.
  pose proof (range_from_nth _ _ _ _ _ _ Ej) as [Hj _]. cbn [Nat.add] in Hj.
  subst j. split; [reflexivity|].
  rewrite length_map. intros Hnext.
  destruct (nth_error (py_range 0 (List.length seq) size) (S k)) as [j'|] eqn:Ej'.
  - apply range_from_nth in Ej' as [-> Hlt]. cbn [Nat.add Nat.mul] in Hlt.
    rewrite length_firstn, length_skipn. lia.
  - apply nth_error_None in Ej'. lia.
Qed.

Lemma chunked_full_batches_witness :
  ["a"; "b"] = slice ["a"; "b"; "c"] 2 (0 * 2)
  /\ (1 < List.length (chunked ["a"; "b"; "c"] 2) ->
      List.length ["a"; "b"] = 2).
Proof.
  apply (chunked_full_batches ["a"; "b"; "c"] 2 0 ["a"; "b"]).
  - lia.
  - reflexivity.
Defined.

(** ** The batches requested by [fetch_all] *)

Lemma primary_from_quiet (evs rest : list event) :
  Forall (fun e => announces e = false) evs ->
  primary_from false (evs ++ rest) = primary_from false rest.
Proof.
  induction 1 as [|e evs He _ IH]; [reflexivity|].
  destruct e; cbn [app primary_from]; rewrite ?He; cbn [orb]; exact IH.
Qed.

Lemma primary_from_first (evs rest : list event) (r : request)
      (rs : list request) :
  Forall (fun e => announces e = false) evs ->
  requests_of evs = r :: rs ->
  primary_from true (evs ++ rest) = r :: primary_from false rest.
Proof.
  induction 1 as [|e evs He Hq IH]; intros Hr; [discriminate|].
  destruct e; cbn [app primary_from orb]; try (apply IH; exact Hr).
  cbn in Hr. inversion Hr; subst. f_equal. now apply primary_from_quiet.
Qed.

Lemma announced_of_app (a b : list event) :
  announced_of (a ++ b) = announced_of a ++ announced_of b.
Proof. apply flat_map_app. Qed.

Lemma announced_of_quiet (evs : list event) :
  Forall (fun e => announces e = false) evs -> announced_of evs = [].
Proof.
  induction 1 as [|e evs He _ IH]; [reflexivity|].
  destruct e as [r|p|m|c|cs]; try exact IH.
  destruct m; try exact IH. discriminate.
Qed.

Lemma fetch_batch_quiet (names_ : list string) :
  all_events (fun e => announces e = false) (fetch_batch names_).
Proof.
  unfold fetch_batch, fetch_batch_with.
  generalize (py_range 0 (4 + 1) 1). intros attempts.
  induction attempts as [|a attempts IH]; cbn [fetch_batch_for].
  - apply all_events_raise.
  - apply all_events_bind.
    + unfold fetch_batch_attempt. by_structure; reflexivity.
    + intros [|b]; [exact IH | apply all_events_ret].
Qed.

Lemma fetch_retry_quiet (subs : list (list string)) :
  forall results,
    all_events (fun e => announces e = false) (fetch_retry subs results).
Proof.
  induction subs as [|sub subs IH]; intros results; cbn [fetch_retry].
  - apply all_events_ret.
  - apply all_events_bind; [apply fetch_batch_quiet|]. intros b. apply IH.
Qed.

(** [fetch_batch] sends its request at least once. *)
Lemma fetch_batch_sends (names_ : list string) (w : world) :
  exists evs rs,
    trace (snd (fetch_batch names_ w)) = trace w ++ evs
    /\ requests_of evs = Post API_COLLECTION names_ :: rs.
Proof.
  destruct (fetch_batch names_ w) as [o w'] eqn:E.
  unfold fetch_batch, fetch_batch_with in E.
  change (py_range 0 (4 + 1) 1) with (seq 0 5) in E.
  apply fetch_batch_for_any in E
    as (evs & consumed & Ht & _ & Hr & _ & _ & Ho); [|reflexivity].
  exists evs. cbn [snd].
  assert (Hn : 1 <= requests_made o consumed).
  { destruct o as [b| c | e | |]; cbn [requests_made].
    - destruct Ho as (pre & r & -> & _). rewrite length_app. cbn. lia.
    - destruct Ho as (_ & -> & _). lia.
    - destruct Ho as [(pre & r & -> & _)|(_ & -> & _)];
        [rewrite length_app; cbn|]; lia.
    - lia.
    - destruct Ho. }
  destruct (requests_made o consumed) as [|k]; [lia|].
  exists (repeat (Post API_COLLECTION names_) k). split; assumption.
Qed.

Lemma bind_appends {A B : Type} (Q : event -> Prop) (m : M A) (k : A -> M B)
      (w : world) :
  (forall a, all_events Q (k a)) ->
  exists evs,
    trace (snd (bind m k w)) = trace (snd (m w)) ++ evs /\ Forall Q evs.
Proof.
  intros Hk. unfold bind.
  destruct (m w) as [[a| | | |] w1]; cbn [snd];
    try (exists []; split; [now rewrite app_nil_r | constructor]).
  apply Hk.
Qed.

(** The events of one batch: its announcement, then events without an
    announcement, the first request among them being the batch. *)
Lemma fetch_all_batch_block verbose batch_idx batch st w :
  exists evs rs,
    trace (snd (fetch_all_batch verbose batch_idx batch st w))
    = trace w ++ Stderr (MsgFetchingBatch batch_idx (List.length batch)) :: evs
    /\ Forall (fun e => announces e = false) evs
    /\ requests_of evs = Post API_COLLECTION batch :: rs.
Proof.
  destruct st as [results unresolved]. unfold fetch_all_batch.
  unfold bind at 1, print_err at 1, emit. cbn [script trace].
  set (w0 := mkWorld (script w)
               (trace w
                ++ [Stderr (MsgFetchingBatch batch_idx (List.length batch))])).
  destruct (fetch_batch_sends batch w0) as (evs1 & rs & Ht1 & Hr1).
  destruct (fetch_batch_quiet batch w0) as (evs1' & Ht1' & Hq1).
  rewrite Ht1 in Ht1'. apply app_inv_head in Ht1'. subst evs1'.
  match goal with
  | |- context [bind (fetch_batch batch) ?k w0] =>
      destruct (bind_appends (fun e => announces e = false)
                  (fetch_batch batch) k w0) as (evs2 & Ht2 & Hq2)
  end.
  { intros b. destruct (not_found b); [apply all_events_ret|].
    apply all_events_bind.
    - destruct (front_faces _); [apply all_events_ret|].
      apply all_events_bind;
        [destruct verbose; [now apply all_events_emit | apply all_events_ret]|].
      intros _. apply all_events_bind; [|intros; apply all_events_ret].
      apply fetch_retry_quiet.
    - intros [res rtb]. by_structure; reflexivity. }
  exists (evs1 ++ evs2), (rs ++ requests_of evs2).
  split; [|split].
  - rewrite Ht2, Ht1. unfold w0. cbn [trace].
    now rewrite <- !app_assoc.
  - now apply Forall_app.
  - now rewrite requests_of_app, Hr1.
Qed.

(** The primary requests of the loop over the batches: one per batch
    started, in order; every batch is started when the loop returns. *)
Lemma fetch_all_loop_primary verbose batches :
  forall batch_idx st w,
    exists evs started,
      trace (snd (fetch_all_loop verbose batch_idx batches st w))
      = trace w ++ evs
      /\ (forall rest,
             primary_from false (evs ++ rest)
             = map (Post API_COLLECTION) (firstn started batches)
               ++ primary_from false rest)
      /\ announced_of evs
         = combine (seq batch_idx started)
             (map (@List.length string) (firstn started batches))
      /\ started <= List.length batches
      /\ (forall st',
             fst (fetch_all_loop verbose batch_idx batches st w) = Ret st' ->
             started = List.length batches).
Proof.
  induction batches as [|batch batches IH]; intros batch_idx st w;
    cbn [fetch_all_loop].
  - exists [], 0. cbn. rewrite app_nil_r. auto.
  - destruct (fetch_all_batch_block verbose batch_idx batch st w)
      as (evs1 & rs & Ht1 & Hq1 & Hr1).
    unfold bind.
    destruct (fetch_all_batch verbose batch_idx batch st w)
      as [[st1| c | e | |] w1]; cbn [fst snd] in *.
    2-5: exists (Stderr (MsgFetchingBatch batch_idx (List.length batch))
                   :: evs1), 1;
      (split; [exact Ht1|]);
      (split;
       [intros rest; cbn [app primary_from announces orb firstn map];
        now rewrite (primary_from_first _ _ _ _ Hq1 Hr1)|]);
      (split;
       [cbn [announced_of flat_map app seq firstn map combine];
        fold (announced_of evs1);
        now rewrite (announced_of_quiet _ Hq1)|]);
      (split; [cbn [List.length]; lia | discriminate]).
    destruct (IH (S batch_idx) st1 w1)
      as (evs2 & k & Ht2 & Hp & Han & Hk & Hret).
    exists (Stderr (MsgFetchingBatch batch_idx (List.length batch))
              :: evs1 ++ evs2), (S k).
    split; [|split; [|split; [|split]]].
    + rewrite Ht2, Ht1, <- app_assoc. reflexivity.
    + intros rest. cbn [app primary_from announces orb firstn map].
      rewrite <- app_assoc, (primary_from_first _ _ _ _ Hq1 Hr1), Hp.
      reflexivity.
    + cbn [announced_of flat_map app seq firstn map combine].
      fold (announced_of (evs1 ++ evs2)).
      now rewrite announced_of_app, (announced_of_quiet _ Hq1), Han.
    + cbn [List.length]. lia.
    + intros st' Hst. cbn [List.length]. f_equal. eapply Hret, Hst.
Qed.

(** The loop over the batches when every batch is answered at once
    and in full: one request per batch, and the cards of all answers
    merged in order. *)
Lemma fetch_all_loop_found verbose batches :
  forall bodies batch_idx results unresolved rest tr,
    List.length bodies = List.length batches ->
    Forall (fun b => not_found b = []) bodies ->
    exists evs,
      fetch_all_loop verbose batch_idx batches (results, unresolved)
        (mkWorld (map ok200 bodies ++ rest) tr)
      = (Ret (merge_cards results (flat_map data bodies), unresolved),
         mkWorld rest (tr ++ evs))
      /\ requests_of evs = map (Post API_COLLECTION) batches.
Proof.
  induction batches as [|batch batches IH];
    intros [|b bodies] batch_idx results unresolved rest tr Hlen Hnf;
    try discriminate.
  - exists []. cbn. unfold ret. now rewrite app_nil_r.
  - inversion Hnf as [|? ? Hb Hbs]; subst.
    cbn [fetch_all_loop map app flat_map]. unfold bind at 1.
    rewrite fetch_all_batch_found by assumption.
    destruct (IH bodies (S batch_idx) (merge_cards results (data b)) unresolved
                rest
                (tr ++ [Stderr (MsgFetchingBatch batch_idx (List.length batch));
                        Sent (Post API_COLLECTION batch)]))
      as (evs & E & R); [now inversion Hlen | assumption |].
    exists ([Stderr (MsgFetchingBatch batch_idx (List.length batch));
             Sent (Post API_COLLECTION batch)] ++ evs).
    split.
    + rewrite E, merge_cards_app. now rewrite <- app_assoc.
    + rewrite requests_of_app, R. reflexivity.
Qed.

(** C8.  [chunked(names, BATCH_LIMIT)] cuts the names into
    [ceil(n / 75)] consecutive batches of 1 to 75 names whose
    concatenation is [names]: one batch for 75 names, two batches of 75
    and 1 for 76.  When the provider answers every request with a 200
    that reports no name as not found, the requests [fetch_all] sends are
    exactly these batches, in order, one request per batch, and the
    mapping it returns holds the cards of all the answers.  Whatever
    the provider answers - 429s, failures and names not found with their
    front-face requests included - the primary requests of [fetch_all],
    the request sent first for each batch announced, are these batches
    in order, announced with their numbers from 1 and their sizes: all
    of them when [fetch_all] returns, the batches started until then
    when it does not. *)
Theorem one_request_per_batch_of_75 :
  forall (names : list string),
    (List.concat (chunked names BATCH_LIMIT) = names
     /\ Forall (fun c => 1 <= List.length c <= 75) (chunked names BATCH_LIMIT)
     /\ List.length (chunked names BATCH_LIMIT)
        = (List.length names + 74) / 75)
    /\ (List.length names = 75 -> chunked names BATCH_LIMIT = [names])
    /\ (List.length names = 76 ->
        chunked names BATCH_LIMIT = [firstn 75 names; skipn 75 names]
        /\ List.length (firstn 75 names) = 75
        /\ List.length (skipn 75 names) = 1)
    /\ (forall verbose bodies rest tr,
           List.length bodies = List.length (chunked names BATCH_LIMIT) ->
           Forall (fun b => not_found b = []) bodies ->
           exists evs,
             fetch_all names verbose (mkWorld (map ok200 bodies ++ rest) tr)
             = (Ret (merge_cards [] (flat_map data bodies), []),
                mkWorld rest (tr ++ evs))
             /\ requests_of evs
                = map (Post API_COLLECTION) (chunked names BATCH_LIMIT))
    /\ (forall verbose w,
           exists evs started,
             trace (snd (fetch_all names verbose w)) = trace w ++ evs
             /\ primary_requests evs
                = map (Post API_COLLECTION)
                    (firstn started (chunked names BATCH_LIMIT))
             /\ announced_of evs
                = combine (seq 1 started)
                    (map (@List.length string)
                       (firstn started (chunked names BATCH_LIMIT)))
             /\ started <= List.length (chunked names BATCH_LIMIT)
             /\ (forall st,
                    fst (fetch_all names verbose w) = Ret st ->
                    started = List.length (chunked names BATCH_LIMIT))).
Proof.
  intros names. split; [|split; [|split; [|split]]].
  - destruct (chunked_partition names BATCH_LIMIT) as (Hc & Hf & Hl);
      [unfold BATCH_LIMIT; lia|].
    split; [exact Hc | split; [exact Hf|]].
    rewrite Hl. unfold BATCH_LIMIT. f_equal. lia.
  - apply chunked_exactly_75.
  - apply chunked_exactly_76.
  - intros verbose bodies rest tr Hlen Hnf.
    destruct (fetch_all_loop_found verbose (chunked names BATCH_LIMIT) bodies
                1 [] [] rest tr Hlen Hnf) as (evs & E & R).
    exists evs. split; [|exact R].
    unfold fetch_all. unfold bind at 1. rewrite E.
    cbn. unfold ret. reflexivity.
  - intros verbose w. unfold fetch_all, primary_requests.
    match goal with
    | |- context [bind (fetch_all_loop verbose 1 ?bs ?s0) ?k0 w] =>
        destruct (fetch_all_loop_primary verbose bs 1 s0 w)
          as (evs1 & k & Ht1 & Hp & Han & Hk & Hret);
        destruct (bind_appends (fun e => announces e = false)
                    (fetch_all_loop verbose 1 bs s0) k0 w)
          as (evs2 & Ht2 & Hq2)
    end.
    { intros [results unresolved]. by_structure; reflexivity. }
    exists (evs1 ++ evs2), k.
    split; [now rewrite Ht2, Ht1, app_assoc|].
    split; [|split; [|split; [exact Hk|]]].
    + rewrite Hp, <- (app_nil_r evs2), (primary_from_quiet _ _ Hq2).
      cbn. now rewrite app_nil_r.
    + now rewrite announced_of_app, (announced_of_quiet _ Hq2), app_nil_r.
    + intros st Hst. unfold bind in Hst.
      destruct (fetch_all_loop verbose 1 _ _ w)
        as [[st1| c | e | |] w1]; try discriminate.
      now apply (Hret st1).
Qed.

Lemma one_request_per_batch_of_75_witness :
  chunked (repeat "Island" 75) BATCH_LIMIT = [repeat "Island" 75]
  /\ (chunked (repeat "Island" 76) BATCH_LIMIT
      = [firstn 75 (repeat "Island" 76); skipn 75 (repeat "Island" 76)]
      /\ List.length (firstn 75 (repeat "Island" 76)) = 75
      /\ List.length (skipn 75 (repeat "Island" 76)) = 1)
  /\ (exists evs,
         fetch_all (repeat "Island" 76) false
           (mkWorld (map ok200 [one_card island; nothing_found] ++ []) [])
         = (Ret (merge_cards [] (flat_map data [one_card island; nothing_found]),
                 []),
            mkWorld [] ([] ++ evs))
         /\ requests_of evs
            = map (Post API_COLLECTION)
                (chunked (repeat "Island" 76) BATCH_LIMIT))
  /\ exists evs started,
      trace (snd (fetch_all [fire_nice] false
                    (mkWorld (rate_limit :: ConnFail :: fire_nice_script) [])))
      = [] ++ evs
      /\ primary_requests evs
         = map (Post API_COLLECTION)
             (firstn started (chunked [fire_nice] BATCH_LIMIT))
      /\ announced_of evs
         = combine (seq 1 started)
             (map (@List.length string)
                (firstn started (chunked [fire_nice] BATCH_LIMIT)))
      /\ started <= List.length (chunked [fire_nice] BATCH_LIMIT)
      /\ (forall st,
             fst (fetch_all [fire_nice] false
                    (mkWorld (rate_limit :: ConnFail :: fire_nice_script) []))
             = Ret st ->
             started = List.length (chunked [fire_nice] BATCH_LIMIT)).
Proof.
  split; [|split; [|split]].
  - apply (proj1 (proj2 (one_request_per_batch_of_75 (repeat "Island" 75)))).
    reflexivity.
  - apply (proj1 (proj2 (proj2 (one_request_per_batch_of_75
                                  (repeat "Island" 76))))).
    reflexivity.
  - apply (proj1 (proj2 (proj2 (proj2 (one_request_per_batch_of_75
                                         (repeat "Island" 76)))))
             false [one_card island; nothing_found] [] []).
    + reflexivity.
    + repeat constructor.
  - apply (proj2 (proj2 (proj2 (proj2 (one_request_per_batch_of_75
                                         [fire_nice]))))
             false
             (mkWorld (rate_limit :: ConnFail :: fire_nice_script) [])).
Defined.

(** ** The records written by [main] *)

(** C9.  In the reassembly loop no truthy [id] is emitted twice; a name
    is in [mapped_names] exactly when it was processed and resolves to a
    card, whether or not that card was emitted; the card of every
    resolving name is in the output, or a card with the same [id] is; and
    for each [id] the card emitted is the one of the first name that
    resolves to that [id].  Two names that resolve to one record with an
    [id] give one output record and are both mapped, and an input file
    that names a card on two lines gives one request for one name and
    one output record.  All of this holds of what [main] writes and
    counts, whatever the names, the sort mode and the responses: when
    [main] gets to its end, the one list it writes holds no truthy [id]
    twice, holds for each [id] the card of the first name of its input
    sequence that resolves to it; a name of the input sequence is mapped
    exactly when it resolves, emitted or not, and the names read that
    are not mapped are the ones counted as missing; the numbers it
    prints are those of the cards written, the names read and the names
    missing, and the names it reports are the unresolved names of
    [fetch_all] followed by the missing ones. *)
Theorem reassembly_emits_each_record_once :
  (forall lower_map input_sequence,
      let st := reassemble lower_map input_sequence in
      NoDup (card_ids (cards_of st))
      /\ (forall n, In n (mapped_of st)
                    <-> In n input_sequence /\ exists c, resolves lower_map n c)
      /\ (forall n c, In n input_sequence -> resolves lower_map n c ->
                      In c (cards_of st)
                      \/ exists i, card_id c = Some i /\ truthy i = true
                                   /\ In i (card_ids (cards_of st)))
      /\ (forall l1 n l2 c i,
             input_sequence = l1 ++ n :: l2 ->
             resolves lower_map n c ->
             card_id c = Some i ->
             truthy i = true ->
             (forall n' c', In n' l1 -> resolves lower_map n' c' ->
                            card_id c' <> Some i) ->
             In c (cards_of st)))
  /\ (forall lower_map n1 n2 c i,
         resolves lower_map n1 c ->
         resolves lower_map n2 c ->
         card_id c = Some i ->
         truthy i = true ->
         cards_of (reassemble lower_map [n1; n2]) = [c]
         /\ In n1 (mapped_of (reassemble lower_map [n1; n2]))
         /\ In n2 (mapped_of (reassemble lower_map [n1; n2])))
  /\ (forall line c nm sort verbose rest tr,
         truthy (strip line) = true ->
         startswith "#" (strip line) = false ->
         card_name c = Some nm ->
         truthy nm = true ->
         lower nm = lower (strip line) ->
         exists evs,
           main (Lines [line; line]) true sort verbose
             (mkWorld (ok200 (one_card c) :: rest) tr)
           = (Ret 0%Z, mkWorld rest (tr ++ evs))
           /\ requests_of evs = [Post API_COLLECTION [strip line]]
           /\ written_of evs = [[c]])
  /\ (forall names_ out sort verbose w loc w',
         main_resolve names_ out sort verbose w = (Ret loc, w') ->
         let lower_map := lower_map_of (cards loc) in
         let input_sequence :=
           match sort with
           | SortInput => names_
           | SortAlpha => sorted_lower (PyDict.keys (cards loc))
           end in
         (exists evs,
             trace w' = trace w ++ evs
             /\ written_of evs = [ordered_cards loc])
         /\ NoDup (card_ids (ordered_cards loc))
         /\ (forall n, In n (mapped_names loc)
                       <-> In n input_sequence
                           /\ exists c, resolves lower_map n c)
         /\ (forall n c, In n input_sequence -> resolves lower_map n c ->
                         In c (ordered_cards loc)
                         \/ exists i, card_id c = Some i /\ truthy i = true
                                      /\ In i (card_ids (ordered_cards loc)))
         /\ (forall l1 n l2 c i,
                input_sequence = l1 ++ n :: l2 ->
                resolves lower_map n c ->
                card_id c = Some i ->
                truthy i = true ->
                (forall n' c', In n' l1 -> resolves lower_map n' c' ->
                               card_id c' <> Some i) ->
                In c (ordered_cards loc))
         /\ ordering_unresolved loc
            = filter (fun n => negb (mem n (mapped_names loc))) names_
         /\ In (Stderr (MsgWrote (List.length (ordered_cards loc))
                          (List.length names_)
                          (List.length (ordering_unresolved loc))))
              (trace w')
         /\ combined_unresolved loc
            = combine_unresolved
                (unresolved_names loc ++ ordering_unresolved loc)).
Proof.
  split; [|split; [|split]].
  - intros lower_map input_sequence st.
    pose proof (reassemble_consistent lower_map input_sequence) as H.
    fold st in H. destruct H as [Hnd Hseen Hmap Hsound Hcompl].
    split; [exact Hnd|]. split; [exact Hmap|]. split; [exact Hcompl|].
    intros l1 n l2 c i -> Hr Hid Hti Hfirst. subst st.
    now apply (reassemble_first_wins lower_map l1 n l2 c i).
  - intros lower_map n1 n2 c i [Hr1 Ht] [Hr2 _] Hid Hti.
    unfold reassemble, reassemble_step. cbn [fold_left].
    rewrite Hr1, Ht, Hid, Hti. cbn [mem existsb set_add app].
    rewrite Hr2, Ht, Hid, Hti. cbn [mem existsb]. rewrite String.eqb_refl.
    cbn [orb cards_of mapped_of fst snd].
    split; [reflexivity|]. rewrite !set_add_In. cbn. auto.
  - intros line c nm sort verbose rest tr. apply main_same_name_twice.
  - intros names_ out sort verbose w loc w' H lower_map input_sequence.
    pose proof (main_resolve_outcome names_ out sort verbose w)
      as (evs & Ht & Ho).
    rewrite H in Ht, Ho. cbn [fst snd] in Ht, Ho.
    destruct Ho as (before & after & -> & Hb & Ha).
    pose proof (main_resolve_inv _ _ _ _ _ _ _ H)
      as (_ & _ & _ & _ & _ & _ & _ & Hcu).
    apply main_resolve_returns in H as (_ & _ & _ & Hoc & Hmp & Hou & Hpr).
    fold lower_map in Hoc, Hmp. fold input_sequence in Hoc, Hmp.
    pose proof (reassemble_consistent lower_map input_sequence)
      as [Hnd Hseen Hmap Hsound Hcompl].
    rewrite <- Hoc in Hnd, Hcompl. rewrite <- Hmp in Hmap.
    split; [|split; [exact Hnd|]; split; [exact Hmap|];
             split; [exact Hcompl|]; split;
             [|split; [exact Hou | split; [exact Hpr | exact Hcu]]]].
    + eexists. split; [exact Ht|].
      rewrite written_of_app, (fetch_event_not_written before Hb).
      cbn [written_of flat_map app]. f_equal.
      clear -Ha. induction Ha as [|e after (m & ->) _ IH]; [reflexivity|].
      exact IH.
    + intros l1 n l2 c i Hseq Hr Hid Hti Hfirst. rewrite Hoc, Hseq.
      now apply (reassemble_first_wins lower_map l1 n l2 c i).
Qed.

Lemma island_resolves (n : string) :
  lower n = "island" -> resolves [("island", island)] n island.
Proof.
  intros H. unfold resolves, resolve_input_name. cbn [PyDict.get].
  rewrite H. split; reflexivity.
Defined.

Lemma reassembly_emits_each_record_once_witness :
  In island (cards_of (reassemble [("island", island)] ["Island"; "island"]))
  /\ (cards_of (reassemble [("island", island)] ["Island"; "island"]) = [island]
      /\ In "Island"
           (mapped_of (reassemble [("island", island)] ["Island"; "island"]))
      /\ In "island"
           (mapped_of (reassemble [("island", island)] ["Island"; "island"])))
  /\ (exists evs,
         main (Lines ["Island"; "Island"]) true SortInput false
           (mkWorld (ok200 (one_card island) :: []) [])
         = (Ret 0%Z, mkWorld [] ([] ++ evs))
         /\ requests_of evs = [Post API_COLLECTION [strip "Island"]]
         /\ written_of evs = [[island]])
  /\ (exists evs,
         trace (snd (main_resolve ["Island"; "island"] true SortInput false
                       (mkWorld [ok200 (one_card island)] [])))
         = [] ++ evs
         /\ written_of evs = [[island]])
  /\ NoDup (card_ids [island])
  /\ (forall n, In n ["Island"; "island"]
                <-> In n ["Island"; "island"]
                    /\ exists c, resolves [("island", island)] n c).
Proof.
  split; [|split; [|split]].
  - apply (proj2 (proj2 (proj2 (proj1 reassembly_emits_each_record_once
                                  [("island", island)] ["Island"; "island"])))
             [] "Island" ["island"] island "id-island").
    + reflexivity.
    + apply island_resolves. reflexivity.
    + reflexivity.
    + reflexivity.
    + intros n' c' [].
  - apply (proj1 (proj2 reassembly_emits_each_record_once)
             [("island", island)] "Island" "island" island "id-island").
    + apply island_resolves. reflexivity.
    + apply island_resolves. reflexivity.
    + reflexivity.
    + reflexivity.
  - apply (proj1 (proj2 (proj2 reassembly_emits_each_record_once))
             "Island" island "Island" SortInput false [] []);
      reflexivity.
  - destruct (proj2 (proj2 (proj2 reassembly_emits_each_record_once))
                ["Island"; "island"] true SortInput false
                (mkWorld [ok200 (one_card island)] [])
                (mkLocals ["Island"; "island"] [("Island", island)] []
                   [island] ["Island"; "island"] [] [])
                (snd (main_resolve ["Island"; "island"] true SortInput false
                        (mkWorld [ok200 (one_card island)] []))))
      as (Hw & Hnd & Hmp & _).
    + vm_compute. reflexivity.
    + split; [exact Hw | split; [exact Hnd | exact Hmp]].
Defined.
